(** * ts-poe: the SSE codec, the bot client and the bot server dispatcher

    A shallow embedding of the streaming core of ts-poe (the modules [sse],
    [client], [base], [express] and [internal/utils] of src/lib) and the
    properties of its specification.

    Conventions of the embedding.
    - A JavaScript string is a [string] (a sequence of 8-bit characters).
    - [undefined] / an absent property is [None].
    - A number that the code only prints, parses or compares (the SSE
      [retry] field, a tool-call [index]) is an integer [Z]; the embedding
      is exact on the safe-integer range of the runtime.
    - A generator is the list of the values it yields together with the way
      it ends (return or throw). *)

From Stdlib Require Import ZArith NArith Ascii String List Lia Bool.
From stdpp Require Import base option list gmap strings sorting.

Local Open Scope Z_scope.

(** ** Characters and strings *)

Definition CR : ascii := "013"%char.
Definition LF : ascii := "010"%char.
Definition NUL : ascii := "000"%char.
Definition DQ : ascii := "034"%char.

(** [s.includes(c)] for a one-character needle. *)
Fixpoint includes_char (c : ascii) (s : string) : bool :=
  match s with
  | EmptyString => false
  | String c' rest => Ascii.eqb c' c || includes_char c rest
  end.

(** A string in which the regular expression LINE_SEP_EXPR has a match. *)
Definition has_line_sep (s : string) : bool :=
  includes_char CR s || includes_char LF s.

(** [s.split(LINE_SEP_EXPR)] with [LINE_SEP_EXPR = /\r\n|\r|\n/]: the
    fragments between the matches, scanning from the left, the alternative
    [\r\n] tried first. A string with n matches has n+1 fragments. *)
Fixpoint split_line_sep (s : string) : list string :=
  match s with
  | EmptyString => [EmptyString]
  | String c rest =>
      if Ascii.eqb c CR then
        match rest with
        | String c' rest' =>
            if Ascii.eqb c' LF then EmptyString :: split_line_sep rest'
            else EmptyString :: split_line_sep rest
        | EmptyString => EmptyString :: split_line_sep rest
        end
      else if Ascii.eqb c LF then EmptyString :: split_line_sep rest
      else match split_line_sep rest with
           | h :: t => String c h :: t
           | [] => [String c EmptyString]
           end
  end.

(** [s.replace(LINE_SEP_EXPR, '')]: the regular expression has no [g] flag,
    so only the leftmost match is removed. *)
Fixpoint replace_line_sep (s : string) : string :=
  match s with
  | EmptyString => EmptyString
  | String c rest =>
      if Ascii.eqb c CR then
        match rest with
        | String c' rest' => if Ascii.eqb c' LF then rest' else rest
        | EmptyString => rest
        end
      else if Ascii.eqb c LF then rest
      else String c (replace_line_sep rest)
  end.

(** [s.indexOf(c)], with [None] for -1. *)
Fixpoint indexOf (c : ascii) (s : string) : option nat :=
  match s with
  | EmptyString => None
  | String c' rest =>
      if Ascii.eqb c' c then Some O else S <$> indexOf c rest
  end.

(** [s.substring(0, n)] and [s.substring(n)]. *)
Fixpoint substring_to (n : nat) (s : string) : string :=
  match n, s with
  | S n', String c rest => String c (substring_to n' rest)
  | _, _ => EmptyString
  end.

Fixpoint substring_from (n : nat) (s : string) : string :=
  match n, s with
  | S n', String _ rest => substring_from n' rest
  | _, _ => s
  end.

Definition startsWith (c : ascii) (s : string) : bool :=
  match s with
  | String c' _ => Ascii.eqb c' c
  | EmptyString => false
  end.

(** [a.join(sep)]. *)
Definition join (sep : string) (l : list string) : string :=
  String.concat sep l.

(** ** Numbers as text

    The numbers of the code are the doubles of the runtime. An integer is
    embedded as a [Z]; the embedding of [`${n}`] and of [parseInt] is exact
    on the safe integers ([Number.isSafeInteger], below 2^53 in absolute
    value): from 1e21 on the runtime prints an exponent, and above 2^53 it
    rounds. The statements that read a [retry] back carry this bound. *)

Definition safe_integer (z : Z) : bool := (Z.abs z <? 2 ^ 53)%Z.

Definition digit_char (d : N) : ascii := ascii_of_N (48 + d).

(** The decimal digits of [n], most significant first, in front of [acc]. *)
Fixpoint N_digits (fuel : nat) (n : N) (acc : string) : string :=
  let acc' := String (digit_char (n mod 10)) acc in
  match fuel with
  | O => acc'
  | S f => if (n / 10 =? 0)%N then acc' else N_digits f (n / 10) acc'
  end.

Definition N_to_string (n : N) : string := N_digits (N.size_nat n) n EmptyString.

(** The template literal [`${n}`] of a safe integer. *)
Definition number_to_string (z : Z) : string :=
  match z with
  | Z.neg p => String "-"%char (N_to_string (Npos p))
  | _ => N_to_string (Z.to_N z)
  end.

(** The value of a character as a digit in the given radix (10 or 16). *)
Definition digit_val (radix : N) (c : ascii) : option N :=
  let n := N_of_ascii c in
  let v := if (48 <=? n)%N && (n <=? 57)%N then Some (n - 48)%N
           else if (97 <=? n)%N && (n <=? 102)%N then Some (n - 87)%N
           else if (65 <=? n)%N && (n <=? 70)%N then Some (n - 55)%N
           else None in
  match v with
  | Some d => if (d <? radix)%N then Some d else None
  | None => None
  end.

(** The longest prefix of digits read as a number; [None] when it is empty. *)
Fixpoint parse_digits (radix : N) (s : string) (acc : N) (seen : bool) : option N :=
  match s with
  | EmptyString => if seen then Some acc else None
  | String c rest =>
      match digit_val radix c with
      | Some d => parse_digits radix rest (acc * radix + d)%N true
      | None => if seen then Some acc else None
      end
  end.

Definition is_white_space (c : ascii) : bool :=
  let n := N_of_ascii c in
  ((9 <=? n)%N && (n <=? 13)%N) || (n =? 32)%N || (n =? 160)%N.

Fixpoint trim_start (s : string) : string :=
  match s with
  | String c rest => if is_white_space c then trim_start rest else s
  | EmptyString => EmptyString
  end.

Definition strip_hex_prefix (s : string) : option string :=
  match s with
  | String c0 (String c1 rest) =>
      if Ascii.eqb c0 "0"%char && (Ascii.eqb c1 "x"%char || Ascii.eqb c1 "X"%char)
      then Some rest else None
  | _ => None
  end.

(** The runtime's [parseInt(s)] without a radix argument; [None] is NaN.
    The value is exact when it is a safe integer. *)
Definition parseInt (s : string) : option Z :=
  let s := trim_start s in
  let '(neg, s) :=
    match s with
    | String c rest =>
        if Ascii.eqb c "-"%char then (true, rest)
        else if Ascii.eqb c "+"%char then (false, rest)
        else (false, s)
    | EmptyString => (false, s)
    end in
  let mag :=
    match strip_hex_prefix s with
    | Some rest => parse_digits 16 rest 0%N false
    | None => parse_digits 10 s 0%N false
    end in
  (fun m => if neg : bool then (- Z.of_N m) else Z.of_N m) <$> mag.

(** ** The SSE codec (module [sse]) *)

(** A value of the type [ServerSentEvent]: an absent property is [None],
    and the [retry] is a number ([encodeServerSentEvent] throws a
    [TypeError] for a retry of another type, which no value of the type
    is). An integer retry is embedded as a [Z]. *)
Module ServerSentEvent.
Record t : Type := mk {
  data : option string;
  event : option string;
  id : option string;
  retry : option Z
}.
End ServerSentEvent.

Abbreviation SSE := ServerSentEvent.t.

(** The event [{}]. *)
Definition empty_sse : SSE := ServerSentEvent.mk None None None None.

(** An event whose retry, when it has one, is a safe integer. *)
Definition safe_retry (e : SSE) : bool :=
  match ServerSentEvent.retry e with
  | Some r => safe_integer r
  | None => true
  end.

Definition encodeServerSentEvent (sse : SSE) (comment : string) (sep : string) : string :=
  let output := EmptyString in
  let output :=
    if String.eqb comment EmptyString then output
    else fold_left (fun output chunk => output +:+ ": " +:+ chunk +:+ sep)
           (split_line_sep comment) output in
  let output :=
    match ServerSentEvent.id sse with
    | Some i => output +:+ "id: " +:+ replace_line_sep i +:+ sep
    | None => output
    end in
  let output :=
    match ServerSentEvent.event sse with
    | Some e => output +:+ "event: " +:+ replace_line_sep e +:+ sep
    | None => output
    end in
  let output :=
    match ServerSentEvent.data sse with
    | Some d => fold_left (fun output chunk => output +:+ "data: " +:+ chunk +:+ sep)
                  (split_line_sep d) output
    | None => output
    end in
  let output :=
    match ServerSentEvent.retry sse with
    | Some r => output +:+ "retry: " +:+ number_to_string r +:+ sep
    | None => output
    end in
  output +:+ sep.

Module SSEDecoder.
Record t : Type := mk {
  event : string;
  data : list string;
  lastEventId : string;
  retry : option Z
}.

(** [new SSEDecoder()]. *)
Definition fresh : t := mk EmptyString [] EmptyString None.

Definition extractFieldAndValue (line : string) : string * string :=
  match indexOf ":"%char line with
  | None => (line, EmptyString)
  | Some index =>
      let fieldname := substring_to index line in
      let value := substring_from (index + 1) line in
      let value := if startsWith " "%char value then substring_from 1 value else value in
      (fieldname, value)
  end.

(** [decode(line)]: the decoder after the call and the value returned
    ([None] for [null]). In the event returned, [this.event ?? 'message'] is
    [this.event]: the field is a string, never null or undefined. *)
Definition decode (line : string) (d : t) : t * option SSE :=
  if String.eqb line EmptyString then
    if String.eqb (event d) EmptyString
       && bool_decide (data d = [])
       && String.eqb (lastEventId d) EmptyString
       && bool_decide (retry d = None)
    then (d, None)
    else
      let sse := ServerSentEvent.mk
                   (Some (join (String LF EmptyString) (data d)))
                   (Some (event d))
                   (Some (lastEventId d))
                   (retry d) in
      (mk EmptyString [] (lastEventId d) None, Some sse)
  else if startsWith ":"%char line then (d, None)
  else
    let '(fieldname, value) := extractFieldAndValue line in
    if String.eqb fieldname "event" then
      (mk value (data d) (lastEventId d) (retry d), None)
    else if String.eqb fieldname "data" then
      (mk (event d) (data d ++ [value]) (lastEventId d) (retry d), None)
    else if String.eqb fieldname "id" then
      if negb (includes_char NUL value)
      then (mk (event d) (data d) value (retry d), None)
      else (d, None)
    else if String.eqb fieldname "retry" then
      match parseInt value with
      | Some retryValue => (mk (event d) (data d) (lastEventId d) (Some retryValue), None)
      | None => (d, None)
      end
    else (d, None).

(** Feeding lines one at a time: the final decoder and the events
    returned, in order. *)
Fixpoint decode_lines (lines : list string) (d : t) : t * list SSE :=
  match lines with
  | [] => (d, [])
  | line :: rest =>
      let '(d', r) := decode line d in
      let '(d'', evs) := decode_lines rest d' in
      (d'', match r with Some e => e :: evs | None => evs end)
  end.
End SSEDecoder.

(** The last event id that a sequence of lines gives, in the words of the
    format: the value of the most recent line of the field [id] whose value
    holds no NUL, and the empty string when there is none. *)
Definition id_after (last line : string) : string :=
  let '(fieldname, value) := SSEDecoder.extractFieldAndValue line in
  if String.eqb fieldname "id" && negb (includes_char NUL value) then value else last.

Definition seen_id (lines : list string) : string := fold_left id_after lines EmptyString.

(** The lines of a stream: every line ends with a terminator, so what
    follows the last terminator is not a line. *)
Definition stream_lines (s : string) : list string :=
  removelast (split_line_sep s).


(** *** The codec seen line by line *)

Definition CRLF : string := String CR (String LF EmptyString).

(** The separators of the wire format; the default is [\r\n]. *)
Definition line_separators : list string :=
  [CRLF; String CR EmptyString; String LF EmptyString].

Definition DEFAULT_SEPARATOR : string := CRLF.

(** The text made of the given lines, each followed by the separator. *)
Definition concat_lines (sep : string) (lines : list string) : string :=
  fold_right (fun line acc => line +:+ sep +:+ acc) EmptyString lines.

(** The lines that [encodeServerSentEvent] writes, the closing blank line
    included. *)
Definition encode_lines (sse : SSE) (comment : string) : list string :=
  (if String.eqb comment EmptyString then []
   else map (String.append ": ") (split_line_sep comment))
  ++ match ServerSentEvent.id sse with
     | Some i => ["id: " +:+ replace_line_sep i]
     | None => []
     end
  ++ match ServerSentEvent.event sse with
     | Some e => ["event: " +:+ replace_line_sep e]
     | None => []
     end
  ++ match ServerSentEvent.data sse with
     | Some d => map (String.append "data: ") (split_line_sep d)
     | None => []
     end
  ++ match ServerSentEvent.retry sse with
     | Some r => ["retry: " +:+ number_to_string r]
     | None => []
     end
  ++ [EmptyString].

(** [decode_stream s]: the events that a fresh decoder returns on the lines
    of [s]. *)
Definition decode_stream (s : string) : list SSE :=
  snd (SSEDecoder.decode_lines (stream_lines s) SSEDecoder.fresh).

(** [s.trim()]. *)
Fixpoint trim_end (s : string) : string :=
  match s with
  | EmptyString => EmptyString
  | String c rest =>
      match trim_end rest with
      | EmptyString => if is_white_space c then EmptyString else String c EmptyString
      | rest' => String c rest'
      end
  end.

Definition trim (s : string) : string := trim_end (trim_start s).

(** The inner loop of [iterSSE] on the buffer [partial +:+ chunk], where
    [partial] holds no line feed: every line that ends with a line feed is
    trimmed and decoded; what follows the last line feed stays in the
    buffer. *)
Fixpoint feed_chunk (chunk partial : string) (d : SSEDecoder.t)
  : string * SSEDecoder.t * list SSE :=
  match chunk with
  | EmptyString => (partial, d, [])
  | String c rest =>
      if Ascii.eqb c LF then
        let '(d', r) := SSEDecoder.decode (trim partial) d in
        let '(buffer, d'', evs) := feed_chunk rest EmptyString d' in
        (buffer, d'', match r with Some e => e :: evs | None => evs end)
      else feed_chunk rest (partial +:+ String c EmptyString) d
  end.

(** [iterSSE()] on the chunks of a response body of the right content
    type: the events yielded. *)
Fixpoint iterSSE_from (chunks : list string) (buffer : string) (d : SSEDecoder.t)
  : list SSE :=
  match chunks with
  | [] => []
  | chunk :: rest =>
      let '(buffer', d', evs) := feed_chunk chunk buffer d in
      evs ++ iterSSE_from rest buffer' d'
  end.

Definition iterSSE (chunks : list string) : list SSE :=
  iterSSE_from chunks EmptyString SSEDecoder.fresh.

(** An event with something to dispatch: a non-empty event name, a data
    field, a non-empty id or a retry. *)
Definition carries_field (e : SSE) : bool :=
  match ServerSentEvent.event e with Some ev => negb (String.eqb ev EmptyString) | None => false end
  || bool_decide (is_Some (ServerSentEvent.data e))
  || match ServerSentEvent.id e with Some i => negb (String.eqb i EmptyString) | None => false end
  || bool_decide (is_Some (ServerSentEvent.retry e)).

(** The event that the round trip of [e] is claimed to give: [e] with an
    absent event name read as ["message"]. *)
Definition roundtrip_expected (e : SSE) : SSE :=
  ServerSentEvent.mk
    (ServerSentEvent.data e)
    (Some (default "message" (ServerSentEvent.event e)))
    (ServerSentEvent.id e)
    (ServerSentEvent.retry e).

(** The data of an event after one pass through the codec: its fragments
    joined with [\n], and the empty string when the event has no data. *)
Definition normalized_data (e : SSE) : string :=
  match ServerSentEvent.data e with
  | Some d => join (String LF EmptyString) (split_line_sep d)
  | None => EmptyString
  end.

(** What the decoder returns for the lines of [e], field by field. *)
Definition decoded_event (e : SSE) : SSE :=
  ServerSentEvent.mk
    (Some (normalized_data e))
    (Some (default EmptyString (ServerSentEvent.event e)))
    (Some (default EmptyString (ServerSentEvent.id e)))
    (ServerSentEvent.retry e).

(** ** JSON values (module [internal/types]) *)

#[local] Set Warnings "-register-all".

(** A number keeps its literal: the modelled code prints numbers and tests
    them for zero, and never computes with them. *)
Inductive JsonValue : Type :=
| JNull
| JBool (b : bool)
| JNumber (literal : string)
| JString (s : string)
| JArray (items : list JsonValue)
| JObject (members : list (string * JsonValue)).

(** [o[key]] on the members of an object. *)
Fixpoint obj_get (key : string) (members : list (string * JsonValue)) : option JsonValue :=
  match members with
  | [] => None
  | (k, v) :: rest => if String.eqb k key then Some v else obj_get key rest
  end.

(** [o[key] = v]: an existing key keeps its place, a new one goes last. *)
Fixpoint obj_set (key : string) (v : JsonValue) (members : list (string * JsonValue))
  : list (string * JsonValue) :=
  match members with
  | [] => [(key, v)]
  | (k, v') :: rest =>
      if String.eqb k key then (k, v) :: rest else (k, v') :: obj_set key v rest
  end.

(** [v[key]] for any value: only objects have members (an array is an
    object without named members). *)
Definition js_get (key : string) (v : JsonValue) : option JsonValue :=
  match v with
  | JObject members => obj_get key members
  | _ => None
  end.

Definition is_upper (c : ascii) : bool :=
  let n := N_of_ascii c in (65 <=? n)%N && (n <=? 90)%N.

Definition to_lower_char (c : ascii) : ascii :=
  if is_upper c then ascii_of_N (N_of_ascii c + 32) else c.

(** [s.toLowerCase()]. *)
Fixpoint toLowerCase (s : string) : string :=
  match s with
  | EmptyString => EmptyString
  | String c rest => String (to_lower_char c) (toLowerCase rest)
  end.

(** Module [internal/utils]. *)
Fixpoint camelToSnakeCase (str : string) : string :=
  match str with
  | EmptyString => EmptyString
  | String c rest =>
      if is_upper c then String "_"%char (String (to_lower_char c) (camelToSnakeCase rest))
      else String c (camelToSnakeCase rest)
  end.

(** [modelDump(obj)] with [deepDump = true]. *)
Fixpoint modelDump (obj : JsonValue) : JsonValue :=
  match obj with
  | JArray items => JArray (map modelDump items)
  | JObject members =>
      JObject (fold_left
                 (fun result kv => obj_set (camelToSnakeCase (fst kv)) (modelDump (snd kv)) result)
                 members [])
  | _ => obj
  end.

(** *** [JSON.stringify] *)

Definition hex_digit (n : N) : ascii :=
  if (n <? 10)%N then ascii_of_N (48 + n) else ascii_of_N (87 + n).

Definition escape_char (c : ascii) : string :=
  let n := N_of_ascii c in
  if (n =? 34)%N then String "\"%char (String DQ EmptyString)
  else if (n =? 92)%N then "\\"
  else if (n =? 8)%N then "\b"
  else if (n =? 12)%N then "\f"
  else if (n =? 10)%N then "\n"
  else if (n =? 13)%N then "\r"
  else if (n =? 9)%N then "\t"
  else if (n <? 32)%N then
    "\u00" +:+ String (hex_digit (n / 16)) (String (hex_digit (n mod 16)) EmptyString)
  else String c EmptyString.

Fixpoint escape_string (s : string) : string :=
  match s with
  | EmptyString => EmptyString
  | String c rest => escape_char c +:+ escape_string rest
  end.

Definition quote (s : string) : string :=
  String DQ (escape_string s +:+ String DQ EmptyString).

Fixpoint JSON_stringify (v : JsonValue) : string :=
  match v with
  | JNull => "null"
  | JBool true => "true"
  | JBool false => "false"
  | JNumber literal => literal
  | JString s => quote s
  | JArray items => "[" +:+ join "," (map JSON_stringify items) +:+ "]"
  | JObject members =>
      "{" +:+ join "," (map (fun kv => quote (fst kv) +:+ ":" +:+ JSON_stringify (snd kv)) members)
      +:+ "}"
  end.

(** *** [JSON.parse]

    A reference reader for JSON texts over 8-bit characters: [None] stands
    for the [SyntaxError] of the runtime. An escape [\uXXXX] above 255 has no
    character in the embedding and is refused. *)

Definition is_json_ws (c : ascii) : bool :=
  let n := N_of_ascii c in
  (n =? 32)%N || (n =? 9)%N || (n =? 10)%N || (n =? 13)%N.

Fixpoint skip_ws (s : string) : string :=
  match s with
  | String c rest => if is_json_ws c then skip_ws rest else s
  | EmptyString => EmptyString
  end.

Definition hex4 (h1 h2 h3 h4 : ascii) : option N :=
  match digit_val 16 h1, digit_val 16 h2, digit_val 16 h3, digit_val 16 h4 with
  | Some a, Some b, Some c, Some d => Some (((a * 16 + b) * 16 + c) * 16 + d)%N
  | _, _, _, _ => None
  end.

(** The characters of a string literal after its opening quote, and what
    follows its closing quote. *)
Fixpoint parse_string_body (s : string) : option (string * string) :=
  match s with
  | EmptyString => None
  | String c rest =>
      if Ascii.eqb c DQ then Some (EmptyString, rest)
      else if Ascii.eqb c "\"%char then
        match rest with
        | String e rest' =>
            let simple (x : ascii) :=
              (fun r => (String x (fst r), snd r)) <$> parse_string_body rest' in
            if Ascii.eqb e DQ then simple DQ
            else if Ascii.eqb e "\"%char then simple "\"%char
            else if Ascii.eqb e "/"%char then simple "/"%char
            else if Ascii.eqb e "b"%char then simple "008"%char
            else if Ascii.eqb e "f"%char then simple "012"%char
            else if Ascii.eqb e "n"%char then simple LF
            else if Ascii.eqb e "r"%char then simple CR
            else if Ascii.eqb e "t"%char then simple "009"%char
            else if Ascii.eqb e "u"%char then
              match rest' with
              | String h1 (String h2 (String h3 (String h4 rest''))) =>
                  match hex4 h1 h2 h3 h4 with
                  | Some n =>
                      if (n <? 256)%N then
                        (fun r => (String (ascii_of_N n) (fst r), snd r))
                          <$> parse_string_body rest''
                      else None
                  | None => None
                  end
              | _ => None
              end
            else None
        | EmptyString => None
        end
      else if (N_of_ascii c <? 32)%N then None
      else (fun r => (String c (fst r), snd r)) <$> parse_string_body rest
  end.

Definition is_digit (c : ascii) : bool :=
  let n := N_of_ascii c in (48 <=? n)%N && (n <=? 57)%N.

(** The longest prefix of decimal digits and the rest. *)
Fixpoint span_digits (s : string) : string * string :=
  match s with
  | String c rest =>
      if is_digit c then let '(ds, r) := span_digits rest in (String c ds, r)
      else (EmptyString, s)
  | EmptyString => (EmptyString, EmptyString)
  end.

(** A number literal [-? int frac? exp?] and the rest. *)
Definition parse_number (s : string) : option (string * string) :=
  let '(sign, s1) :=
    match s with
    | String c rest => if Ascii.eqb c "-"%char then ("-", rest) else (EmptyString, s)
    | EmptyString => (EmptyString, s)
    end in
  let '(int, s2) := span_digits s1 in
  let int_ok :=
    match int with
    | EmptyString => false
    | String c EmptyString => true
    | String c _ => negb (Ascii.eqb c "0"%char)
    end in
  if negb int_ok then None else
  let frac :=
    match s2 with
    | String c rest =>
        if Ascii.eqb c "."%char then
          let '(ds, r) := span_digits rest in
          match ds with
          | EmptyString => None
          | _ => Some ("." +:+ ds, r)
          end
        else Some (EmptyString, s2)
    | EmptyString => Some (EmptyString, s2)
    end in
  match frac with
  | None => None
  | Some (fr, s3) =>
      let exp :=
        match s3 with
        | String c rest =>
            if Ascii.eqb c "e"%char || Ascii.eqb c "E"%char then
              let '(sg, rest1) :=
                match rest with
                | String c' rest' =>
                    if Ascii.eqb c' "+"%char || Ascii.eqb c' "-"%char
                    then (String c' EmptyString, rest') else (EmptyString, rest)
                | EmptyString => (EmptyString, rest)
                end in
              let '(ds, r) := span_digits rest1 in
              match ds with
              | EmptyString => None
              | _ => Some (String c sg +:+ ds, r)
              end
            else Some (EmptyString, s3)
        | EmptyString => Some (EmptyString, s3)
        end in
      match exp with
      | None => None
      | Some (ex, s4) => Some (sign +:+ int +:+ fr +:+ ex, s4)
      end
  end.

(** [strip_prefix p s]: what follows [p] in [s], when [s] starts with [p]. *)
Fixpoint strip_prefix (p s : string) : option string :=
  match p, s with
  | EmptyString, _ => Some s
  | String a p', String b s' => if Ascii.eqb a b then strip_prefix p' s' else None
  | _, _ => None
  end.

(** The members of an object after its opening brace, up to its closing
    brace; [pv] reads one value. A key given twice keeps its last value. *)
Fixpoint parse_members (fuel : nat) (pv : string -> option (JsonValue * string))
    (s : string) (acc : list (string * JsonValue))
  : option (list (string * JsonValue) * string) :=
  match fuel with
  | O => None
  | S f =>
      match skip_ws s with
      | String c r =>
          if Ascii.eqb c DQ then
            match parse_string_body r with
            | Some (k, r1) =>
                match skip_ws r1 with
                | String c1 r2 =>
                    if Ascii.eqb c1 ":"%char then
                      match pv r2 with
                      | Some (v, r3) =>
                          match skip_ws r3 with
                          | String c3 r4 =>
                              if Ascii.eqb c3 ","%char then parse_members f pv r4 (obj_set k v acc)
                              else if Ascii.eqb c3 "}"%char then Some (obj_set k v acc, r4)
                              else None
                          | EmptyString => None
                          end
                      | None => None
                      end
                    else None
                | EmptyString => None
                end
            | None => None
            end
          else None
      | EmptyString => None
      end
  end.

(** The items of an array after its opening bracket. *)
Fixpoint parse_items (fuel : nat) (pv : string -> option (JsonValue * string))
    (s : string) (acc : list JsonValue) : option (list JsonValue * string) :=
  match fuel with
  | O => None
  | S f =>
      match pv s with
      | Some (v, r) =>
          match skip_ws r with
          | String c r1 =>
              if Ascii.eqb c ","%char then parse_items f pv r1 (acc ++ [v])
              else if Ascii.eqb c "]"%char then Some (acc ++ [v], r1)
              else None
          | EmptyString => None
          end
      | None => None
      end
  end.

Fixpoint parse_value (fuel : nat) (s : string) : option (JsonValue * string) :=
  match fuel with
  | O => None
  | S f =>
      match skip_ws s with
      | EmptyString => None
      | String c r =>
          if Ascii.eqb c "{"%char then
            match skip_ws r with
            | String c' r' =>
                if Ascii.eqb c' "}"%char then Some (JObject [], r')
                else (fun m => (JObject (fst m), snd m)) <$> parse_members f (parse_value f) r []
            | EmptyString => None
            end
          else if Ascii.eqb c "["%char then
            match skip_ws r with
            | String c' r' =>
                if Ascii.eqb c' "]"%char then Some (JArray [], r')
                else (fun m => (JArray (fst m), snd m)) <$> parse_items f (parse_value f) r []
            | EmptyString => None
            end
          else if Ascii.eqb c DQ then
            (fun m => (JString (fst m), snd m)) <$> parse_string_body r
          else
            match strip_prefix "true" (String c r), strip_prefix "false" (String c r),
                  strip_prefix "null" (String c r) with
            | Some r', _, _ => Some (JBool true, r')
            | _, Some r', _ => Some (JBool false, r')
            | _, _, Some r' => Some (JNull, r')
            | _, _, _ => (fun m => (JNumber (fst m), snd m)) <$> parse_number (String c r)
            end
      end
  end.

Definition JSON_parse (text : string) : option JsonValue :=
  match parse_value (S (String.length text)) text with
  | Some (v, rest) =>
      match skip_ws rest with
      | EmptyString => Some v
      | _ => None
      end
  | None => None
  end.

(** ** Authorization of a POST (module [express]) *)

(** The outcome of code that may throw. *)
Inductive Result (E A : Type) : Type :=
| Ok (value : A)
| Throw (error : E).
Arguments Ok {E A} value.
Arguments Throw {E A} error.

Record HTTPException : Type := mkHTTPException {
  statusCode : Z;
  message : string;
  detail : option string;
  headers : list (string * string)
}.

(** [s.split(' ')]. *)
Fixpoint split_space (s : string) : list string :=
  match s with
  | EmptyString => [EmptyString]
  | String c rest =>
      if Ascii.eqb c " "%char then EmptyString :: split_space rest
      else match split_space rest with
           | h :: t => String c h :: t
           | [] => [String c EmptyString]
           end
  end.

(** A value used as a condition: an absent or empty string is falsy. *)
Definition truthy (s : option string) : bool :=
  match s with
  | Some v => negb (String.eqb v EmptyString)
  | None => false
  end.

Record HTTPAuthorizationCredentials : Type := mkCredentials {
  scheme : string;
  credentials : string
}.

(** [extractAuthorization(req)], on the Authorization header of [req]. *)
Definition extractAuthorization (authorization : option string)
  : Result HTTPException HTTPAuthorizationCredentials :=
  let parts :=
    match authorization with
    | Some a => if String.eqb a EmptyString then [] else split_space a
    | None => []
    end in
  let scheme := parts !! 0%nat in
  let credentials := parts !! 1%nat in
  if negb (truthy authorization) || negb (truthy scheme) || negb (truthy credentials)
  then Throw (mkHTTPException 403 "Not authenticated" None [])
  else
    let scheme := default EmptyString scheme in
    let credentials := default EmptyString credentials in
    if negb (String.eqb (toLowerCase scheme) "bearer")
    then Throw (mkHTTPException 403 "Invalid authorization credentials" None [])
    else Ok (mkCredentials scheme credentials).

(** The first POST handler that [addRoutesForBot] registers on the path of
    a bot: [Ok tt] is the call of [next()]. *)
Definition authorizePost (accessKey : option string) (authorization : option string)
  : Result HTTPException unit :=
  if negb (truthy accessKey) then Ok tt
  else
    match extractAuthorization authorization with
    | Throw e => Throw e
    | Ok c =>
        if negb (String.eqb (scheme c) "Bearer")
           || negb (bool_decide (Some (credentials c) = accessKey))
        then Throw (mkHTTPException 401 "Invalid access key" None
                      [("WWW-Authenticate", "Bearer")])
        else Ok tt
    end.

(** *** The answer of the application

    The repository runs on Express 4. Express calls the handlers of a path
    in the order of their registration, and does nothing with the value
    that a handler returns. The handlers of [addRoutesForBot] are async
    functions: when one throws, the promise that it returns is rejected,
    [next] is not called, no error handler is called and nothing is
    written on the response. *)

Record HTTPResponse : Type := mkHTTPResponse {
  status : Z;
  body : string;
  response_headers : list (string * string)
}.

(** The error handler that [makeApp] registers, before the routes of the
    bots, on an [HTTPException]:
    [res.status(error.statusCode).send(error.message)]. *)
Definition errorMiddleware (error : HTTPException) : HTTPResponse :=
  mkHTTPResponse (statusCode error) (message error) [].

(** What becomes of a POST on the path of a bot at the first handler: it
    is passed on to the second handler, or it stays without a response,
    the promise of the handler being rejected with the exception. *)
Inductive Served : Type :=
| PassedOn
| Unanswered (rejection : HTTPException).

Definition servePost (accessKey : option string) (authorization : option string) : Served :=
  match authorizePost accessKey authorization with
  | Ok _ => PassedOn
  | Throw e => Unanswered e
  end.

(** ** The bot server (module [base]) *)

(** What a bot yields from [getResponse]: an object, seen through the
    properties that [handleQuery] reads. A property that the object does not
    have is [None]. *)
Module Item.
Record t : Type := mk {
  event : option string;
  data : option string;
  id : option string;
  retry : option Z;
  text : option string;
  allowRetry : option bool;
  errorType : option string;
  suggestedReplies : option bool;
  linkify : option bool;
  contentType : option string;
  refetchSettings : option bool;
  isSuggestedReply : bool;
  isReplaceResponse : bool
}.
End Item.

(** Module [internal/utils]. *)
Definition isEventMessage (m : Item.t) : bool := bool_decide (is_Some (Item.event m)).
Definition isErrorMessage (m : Item.t) : bool := bool_decide (is_Some (Item.allowRetry m)).
Definition isMetaMessage (m : Item.t) : bool := bool_decide (is_Some (Item.suggestedReplies m)).
Definition isPartialMessage (m : Item.t) : bool := bool_decide (is_Some (Item.text m)).

(** [JSON.stringify({ text })]: an undefined property is left out. *)
Definition text_object (text : option string) : JsonValue :=
  JObject match text with Some t => [("text", JString t)] | None => [] end.

Definition textEvent (text : option string) : SSE :=
  ServerSentEvent.mk (Some (JSON_stringify (text_object text))) (Some "text") None None.

Definition replaceResponseEvent (text : option string) : SSE :=
  ServerSentEvent.mk (Some (JSON_stringify (text_object text))) (Some "replace_response")
    None None.

Definition doneEvent : SSE :=
  ServerSentEvent.mk (Some "{}") (Some "done") None None.

Definition suggestedReplyEvent (text : option string) : SSE :=
  ServerSentEvent.mk (Some (JSON_stringify (text_object text))) (Some "suggested_reply")
    None None.

Definition metaEvent (contentType : option string) (refetchSettings linkify
    suggestedReplies : option bool) : SSE :=
  ServerSentEvent.mk
    (Some (JSON_stringify
             (JObject [("content_type", JString (default "text/markdown" contentType));
                       ("refetch_settings", JBool (default false refetchSettings));
                       ("linkify", JBool (default true linkify));
                       ("suggested_replies", JBool (default false suggestedReplies))])))
    (Some "meta") None None.

(** The object [data] that [errorEvent] builds before it is dumped. *)
Definition error_data (text : option string) (allowRetry : option bool)
    (errorType : option string) : JsonValue :=
  JObject ([("allowRetry", JBool (default true allowRetry))]
           ++ (if truthy text then [("text", JString (default EmptyString text))] else [])
           ++ (if truthy errorType
               then [("errorType", JString (default EmptyString errorType))] else [])).

Definition errorEvent (text : option string) (allowRetry : option bool)
    (errorType : option string) : SSE :=
  ServerSentEvent.mk
    (Some (JSON_stringify (modelDump (error_data text allowRetry errorType))))
    (Some "error") None None.

(** *** Pending attachment uploads *)

(** An upload task: a promise of [makeFileAttachmentRequest], known by its
    identity, that ends fulfilled or rejected with an error, seen through
    its message (the function rejects with an [InvalidParameterError] or
    with the error of the upload request). *)
Inductive Settled : Type :=
| Fulfilled
| Rejected (message : string).

Record Task : Type := mkTask {
  task_id : nat;
  outcome : Settled
}.

(** The names that every object inherits from [Object.prototype]. The
    table [pendingFileAttachmentTasks] is a plain object: read at one of
    these names when it has no entry of its own for it, it gives a function
    (the prototype itself for [__proto__]), which is neither undefined nor
    an array of tasks. *)
Definition inherited_names : list string :=
  ["constructor"; "hasOwnProperty"; "isPrototypeOf"; "propertyIsEnumerable";
   "toLocaleString"; "toString"; "valueOf"; "__proto__";
   "__defineGetter__"; "__defineSetter__"; "__lookupGetter__"; "__lookupSetter__"].

Definition inherited (key : string) : bool := bool_decide (key ∈ inherited_names).

(** The message of the [TypeError] with which [Promise.all] rejects when
    its argument cannot be iterated; the text depends on the engine. *)
Definition not_iterable : string := "object is not iterable".

(** The state of a bot: the table [pendingFileAttachmentTasks], and for
    every call of [postMessageAttachment] that has not finished, the task
    it awaits with the array it holds in [pendingTasksForMessage] (the
    message id of the array, or [None] when the variable is undefined). *)
Record PoeBot : Type := mkPoeBot {
  pendingFileAttachmentTasks : gmap string (list Task);
  awaiting : list (nat * option string)
}.

(** [postMessageAttachment] up to its [await task]: the task is put in the
    table. The variable [pendingTasksForMessage] is read before the array of
    a new message id is made, and stays undefined in that case. With an
    empty message id the call throws at once; with an inherited name as
    message id, [pendingTasksForMessage] has no method [push] and the call
    throws a [TypeError] before the task is put in the table. *)
Definition postMessageAttachment_start (messageId : string) (task : Task) (bot : PoeBot)
  : PoeBot :=
  if String.eqb messageId EmptyString then bot
  else
    match pendingFileAttachmentTasks bot !! messageId with
    | None =>
        if inherited messageId then bot
        else
        mkPoeBot (<[messageId := [task]]> (pendingFileAttachmentTasks bot))
                 (awaiting bot ++ [(task_id task, None)])
    | Some pendingTasksForMessage =>
        mkPoeBot (<[messageId := pendingTasksForMessage ++ [task]]>
                    (pendingFileAttachmentTasks bot))
                 (awaiting bot ++ [(task_id task, Some messageId)])
    end.

(** [a.splice(a.findIndex(item => item === task), 1)] when the index is not
    -1. *)
Fixpoint remove_task (tid : nat) (tasks : list Task) : list Task :=
  match tasks with
  | [] => []
  | t :: rest => if Nat.eqb (task_id t) tid then rest else t :: remove_task tid rest
  end.

Fixpoint lookup_call (tid : nat) (calls : list (nat * option string))
  : option (option string) :=
  match calls with
  | [] => None
  | (t, a) :: rest => if Nat.eqb t tid then Some a else lookup_call tid rest
  end.

(** The [finally] block of [postMessageAttachment], run when the task of
    the call has settled. *)
Definition postMessageAttachment_finally (tid : nat) (bot : PoeBot) : PoeBot :=
  let calls := filter (fun c => fst c ≠ tid) (awaiting bot) in
  match lookup_call tid (awaiting bot) with
  | Some (Some messageId) =>
      mkPoeBot (alter (remove_task tid) messageId (pendingFileAttachmentTasks bot)) calls
  | _ => mkPoeBot (pendingFileAttachmentTasks bot) calls
  end.

(** [Promise.all(tasks)] once every task has settled: the message of a
    rejected task, the first in the array, when there is one. *)
Fixpoint promise_all (tasks : list Task) : Result string unit :=
  match tasks with
  | [] => Ok tt
  | t :: rest =>
      match outcome t with
      | Rejected m => Throw m
      | Fulfilled => promise_all rest
      end
  end.

Definition processPendingAttachmentRequests (messageId : string) (bot : PoeBot)
  : PoeBot * Result string unit :=
  match pendingFileAttachmentTasks bot !! messageId with
  | Some pendingTasks =>
      match promise_all pendingTasks with
      | Ok _ => (mkPoeBot (delete messageId (pendingFileAttachmentTasks bot)) (awaiting bot),
                 Ok tt)
      | Throw m => (bot, Throw m)
      end
  | None => if inherited messageId then (bot, Throw not_iterable) else (bot, Ok tt)
  end.

(** *** [handleQuery] *)

(** One step of the bot's [getResponse] as [handleQuery] sees it: the bot
    yields an object, starts an upload with [postMessageAttachment], or an
    upload it has started settles. *)
Inductive HandlerStep : Type :=
| Yield (item : Item.t)
| PostMessageAttachment (messageId : string) (task : Task)
| TaskSettled (tid : nat).

(** The way the code in the first [try] block of [handleQuery] ends: it
    returns, it throws a value with the given message (an empty message
    also stands for a thrown value without one), or it throws [null] or
    [undefined]. In the last case [(error as Error).message] in the [catch]
    block throws a [TypeError] out of the generator. *)
Inductive HandlerEnd : Type :=
| Returns
| Throws (message : string)
| ThrowsNullish.

Record Handler : Type := mkHandler {
  steps : list HandlerStep;
  ending : HandlerEnd
}.

(** The event that [handleQuery] yields for an object of the bot. *)
Definition translate (event : Item.t) : list SSE :=
  if isEventMessage event then
    [ServerSentEvent.mk (Item.data event) (Item.event event) (Item.id event) (Item.retry event)]
  else if isErrorMessage event then
    [errorEvent (Item.text event) (Item.allowRetry event) (Item.errorType event)]
  else if isMetaMessage event then
    [metaEvent (Item.contentType event) (Item.refetchSettings event) (Item.linkify event)
       (Item.suggestedReplies event)]
  else if isPartialMessage event then
    if Item.isSuggestedReply event then [suggestedReplyEvent (Item.text event)]
    else if Item.isReplaceResponse event then [replaceResponseEvent (Item.text event)]
    else [textEvent (Item.text event)]
  else [].

Fixpoint run_steps (steps : list HandlerStep) (bot : PoeBot) : PoeBot * list SSE :=
  match steps with
  | [] => (bot, [])
  | step :: rest =>
      let '(bot1, evs) :=
        match step with
        | Yield item => (bot, translate item)
        | PostMessageAttachment messageId task =>
            (postMessageAttachment_start messageId task bot, [])
        | TaskSettled tid => (postMessageAttachment_finally tid bot, [])
        end in
      let '(bot2, evs') := run_steps rest bot1 in
      (bot2, evs ++ evs')
  end.

(** [handleQuery(request, context)] for a request with the given message id
    and a bot that behaves as [handler]: the bot afterwards and the events
    yielded, in order, when the consumer reads the stream to its end. When
    the bot throws [null] or [undefined], the generator throws after the
    events of the bot: the pending uploads are not awaited and no [done]
    event is yielded. *)
Definition handleQuery (messageId : string) (handler : Handler) (bot : PoeBot)
  : PoeBot * list SSE :=
  let '(bot1, evs) := run_steps (steps handler) bot in
  match ending handler with
  | ThrowsNullish => (bot1, evs)
  | _ =>
      let caught :=
        match ending handler with
        | Throws m => [errorEvent (Some m) (Some false) None]
        | _ => []
        end in
      let '(bot2, r) := processPendingAttachmentRequests messageId bot1 in
      let drained :=
        match r with
        | Ok _ => []
        | Throw m => [errorEvent (Some m) (Some false) None]
        end in
      (bot2, evs ++ caught ++ drained ++ [doneEvent])
  end.

(** The generator of [handleQuery] ends by returning: the consumer reads
    the stream to its end without an exception. *)
Definition completes (handler : Handler) : bool :=
  match ending handler with
  | ThrowsNullish => false
  | _ => true
  end.

(** [new PoeBot()]. *)
Definition new_bot : PoeBot := mkPoeBot ∅ [].

(** A plain [PartialResponse] with the given text. *)
Definition partial_response (text : string) : Item.t :=
  Item.mk None None None None (Some text) None None None None None None false false.

(** A string between double quotes, for the texts of the examples. *)
Definition quoted (s : string) : string := String DQ (s +:+ String DQ EmptyString).




(** ** The bot client (module [client]) *)

(** A thrown value, seen through what the client tests: whether it is an
    [Error], its [name] and [message], whether its property [isAxiosError]
    is [true], and its [code]. *)
Record Thrown : Type := mkThrown {
  instanceofError : bool;
  name : string;
  error_message : string;
  hasIsAxiosError : bool;
  code : option string
}.

Definition BotError (message : string) : Thrown :=
  mkThrown true "BotError" message false None.

Definition BotErrorNoRetry (message : string) : Thrown :=
  mkThrown true "BotErrorNoRetry" message false None.

Definition SyntaxError : Thrown := mkThrown true "SyntaxError" "Unexpected token" false None.

Definition TypeError : Thrown := mkThrown true "TypeError" "Cannot read properties" false None.

(** Module [internal/utils]. *)
Definition isBotErrorNoRetry (e : Thrown) : bool :=
  instanceofError e && String.eqb (name e) "BotErrorNoRetry".

Definition isError (e : Thrown) : bool := instanceofError e.

(** [isAxiosError] of the module [axios], which is the one that
    [streamRequestBase] imports; it is called on an [Error] only. *)
Definition isAxiosError (e : Thrown) : bool := instanceofError e && hasIsAxiosError e.

(** [safeEllipsis] on a string: [slice(0, limit - 3)] counts from the end
    of the string when [limit - 3] is negative. *)
Definition safeEllipsis (value : string) (limit : nat) : string :=
  if (limit <? String.length value)%nat
  then substring_to (if (3 <=? limit)%nat then limit - 3
                     else String.length value - (3 - limit)) value +:+ "..."
  else value.

(** A message of the client: a [PartialResponse], or a [MetaResponse] when
    it has the property [suggestedReplies]. The debugging properties
    [rawResponse] and [fullPrompt] are left out. *)
Module Response.
Record t : Type := mk {
  text : string;
  data : option JsonValue;
  isSuggestedReply : bool;
  isReplaceResponse : bool;
  linkify : option bool;
  suggestedReplies : option bool;
  contentType : option string
}.
End Response.

Definition isMetaResponse (message : Response.t) : bool :=
  bool_decide (is_Some (Response.suggestedReplies message)).

(** What a call of the client does that can be seen from outside: it yields
    a message to its caller, or it calls [reportError] to post a
    [report_error] request to the bot. *)
Inductive Output : Type :=
| Yielded (message : Response.t)
| Reported (message : string).

(** A computation that yields and reports, and ends with a value or throws. *)
Definition Gen (A : Type) : Type := list Output * Result Thrown A.

Definition gen_ret {A : Type} (a : A) : Gen A := ([], Ok a).

Definition gen_bind {A B : Type} (m : Gen A) (f : A -> Gen B) : Gen B :=
  match m with
  | (out, Ok a) => let '(out', r) := f a in (out ++ out', r)
  | (out, Throw e) => (out, Throw e)
  end.

Definition gen_throw {A : Type} (e : Thrown) : Gen A := ([], Throw e).

Definition gen_yield (message : Response.t) : Gen unit := ([Yielded message], Ok tt).

(** A [report_error] request that the bot accepts. *)
Definition accepted (message : string) : Result Thrown unit := Ok tt.

Notation "'let*' x ':=' m 'in' k" := (gen_bind m (fun x => k))
  (at level 10, x name, m at level 100, k at level 200, only parsing).

(** [typeof v === 'object' && v !== null]. *)
Definition is_object (v : JsonValue) : bool :=
  match v with
  | JObject _ | JArray _ => true
  | _ => false
  end.

(** [v ?? d] on a property that may be absent. *)
Definition nullish (v : option JsonValue) (d : JsonValue) : JsonValue :=
  match v with
  | None | Some JNull => d
  | Some x => x
  end.

(** A number literal that denotes zero: no digit other than 0 before the
    exponent. *)
Fixpoint literal_is_zero (literal : string) : bool :=
  match literal with
  | EmptyString => true
  | String c rest =>
      if Ascii.eqb c "e"%char || Ascii.eqb c "E"%char then true
      else if is_digit c && negb (Ascii.eqb c "0"%char) then false
      else literal_is_zero rest
  end.

(** A JSON value used as a condition. *)
Definition json_truthy (v : JsonValue) : bool :=
  match v with
  | JNull => false
  | JBool b => b
  | JNumber literal => negb (literal_is_zero literal)
  | JString s => negb (String.eqb s EmptyString)
  | JArray _ | JObject _ => true
  end.

(** The running state of one call of [performQueryRequest]. *)
Record QueryState : Type := mkQueryState {
  chunks : list string;
  eventCount : nat;
  errorReported : bool
}.

(** What the body of the loop over the events decides. *)
Inductive Control : Type :=
| Continue (st : QueryState)
| Return.

(** The response of the bot to the POST of the query: the events that
    [iterSSE] delivers and, when the transport fails after them, the error
    that it throws (a failure of the POST itself or of the Content-Type
    check is a failure before the first event). *)
Record BotReply : Type := mkBotReply {
  reply_events : list SSE;
  reply_failure : option Thrown
}.

Section Client.

(** The [JSON.parse] of the runtime; [None] is its [SyntaxError]. *)
Variable parse : string -> option JsonValue.

(** How the call [this.reportError(message, ...)] ends: it calls the error
    handler [onError] and awaits the post of the [report_error] request
    with the given message, and returns; or it throws the error of the
    handler or of the session, which nothing in the client catches. *)
Variable report : string -> Result Thrown unit.

Definition reportError (message : string) : Gen unit := ([Reported message], report message).

(** [JSON.parse(sse.data!)]: an undefined text is no JSON text. *)
Definition parse_data (data : option string) : option JsonValue :=
  match data with
  | Some d => parse d
  | None => None
  end.

Definition loadJsonDict (data : option string) (context : string) : Gen JsonValue :=
  let invalid : Gen JsonValue :=
    let* _ := reportError ("Invalid JSON in " +:+ context +:+ " event") in
    gen_throw (BotErrorNoRetry ("Invalid JSON in " +:+ context +:+ " event")) in
  match parse_data data with
  | Some parsed =>
      if negb (is_object parsed) then
        let* _ := reportError ("Expected JSON dict in " +:+ context +:+ " event") in invalid
      else gen_ret parsed
  | None => invalid
  end.

Definition getSingleJsonField (data : option string) (context : string) (field : string)
  : Gen string :=
  let* dataDict := loadJsonDict data context in
  match js_get field dataDict with
  | Some (JString text) => gen_ret text
  | _ =>
      let* _ := reportError ("Expected string in '" +:+ field +:+ "' field for '"
                             +:+ context +:+ "' event") in
      gen_throw (BotErrorNoRetry ("Expected string in '" +:+ context +:+ "' event"))
  end.

Definition text_response (text : string) (suggested replace : bool) : Response.t :=
  Response.mk text None suggested replace None None None.

(** The body of the loop of [performQueryRequest] for one event; [tools]
    tells whether the call was given tools. For an event of an unknown type,
    [safeEllipsis] is applied to the name and to the data of the event, and
    throws a [TypeError] on an undefined one. *)
Definition handle_event (tools : bool) (sse : SSE) (st : QueryState) : Gen Control :=
  let eventCount := S (eventCount st) in
  let st := mkQueryState (chunks st) eventCount (errorReported st) in
  let event := ServerSentEvent.event sse in
  let data := ServerSentEvent.data sse in
  if bool_decide (event = Some "done") then
    let* _ :=
      (if bool_decide (chunks st = []) && negb (errorReported st) && negb tools
       then reportError "Bot returned no text in response" else gen_ret tt) in
    gen_ret Return
  else if bool_decide (event = Some "text") then
    let* text := getSingleJsonField data "text" "text" in
    let* _ := gen_yield (text_response text false false) in
    gen_ret (Continue (mkQueryState (chunks st ++ [text]) eventCount (errorReported st)))
  else if bool_decide (event = Some "replace_response") then
    let* text := getSingleJsonField data "replace_response" "text" in
    let* _ := gen_yield (text_response text false true) in
    gen_ret (Continue (mkQueryState ([] ++ [text]) eventCount (errorReported st)))
  else if bool_decide (event = Some "suggested_reply") then
    let* text := getSingleJsonField data "suggested_reply" "text" in
    let* _ := gen_yield (text_response text true false) in
    gen_ret (Continue st)
  else if bool_decide (event = Some "json") then
    match parse_data data with
    | Some v =>
        let* _ := gen_yield (Response.mk EmptyString (Some v) false false None None None) in
        gen_ret (Continue st)
    | None => gen_throw SyntaxError
    end
  else if bool_decide (event = Some "meta") then
    if negb (Nat.eqb eventCount 1) then gen_ret (Continue st)
    else
      let* data := loadJsonDict data "meta" in
      let failed := mkQueryState (chunks st) eventCount true in
      match nullish (js_get "linkify" data) (JBool false) with
      | JBool linkify =>
          match nullish (js_get "suggested_replies" data) (JBool false) with
          | JBool sendSuggestedReplies =>
              match nullish (js_get "content_type" data) (JString "text/markdown") with
              | JString contentType =>
                  let* _ := gen_yield (Response.mk EmptyString None false false
                                         (Some linkify) (Some sendSuggestedReplies)
                                         (Some contentType)) in
                  gen_ret (Continue st)
              | _ =>
                  let* _ := reportError "Invalid content_type value in 'meta' event" in
                  gen_ret (Continue failed)
              end
          | _ =>
              let* _ := reportError "Invalid suggested_replies value in 'meta' event" in
              gen_ret (Continue failed)
          end
      | _ =>
          let* _ := reportError "Invalid linkify value in 'meta' event" in
          gen_ret (Continue failed)
      end
  else if bool_decide (event = Some "error") then
    let* dict := loadJsonDict data "error" in
    if json_truthy (nullish (js_get "allow_retry" dict) (JBool true))
    then gen_throw (BotError (default EmptyString data))
    else gen_throw (BotErrorNoRetry (default EmptyString data))
  else if bool_decide (event = Some "ping") then gen_ret (Continue st)
  else
    match event, data with
    | Some name, Some _ =>
        let* _ := reportError ("Unknown event type: " +:+ safeEllipsis name 100) in
        gen_ret (Continue (mkQueryState (chunks st) eventCount true))
    | _, _ => gen_throw TypeError
    end.

(** The loop over the events of the reply, and what follows it. *)
Fixpoint consume (tools : bool) (events : list SSE) (failure : option Thrown)
    (st : QueryState) : Gen unit :=
  match events with
  | [] =>
      match failure with
      | Some e => gen_throw e
      | None => reportError "Bot exited without sending 'done' event"
      end
  | sse :: rest =>
      let* c := handle_event tools sse st in
      match c with
      | Return => gen_ret tt
      | Continue st' => consume tools rest failure st'
      end
  end.

Definition performQueryRequest (tools : bool) (reply : BotReply) : Gen unit :=
  consume tools (reply_events reply) (reply_failure reply) (mkQueryState [] 0 false).

End Client.

(** *** The retry loop *)

Definition has_yield (out : list Output) : bool :=
  existsb (fun o => match o with Yielded _ => true | Reported _ => false end) out.

(** What [streamRequestBase] has done when it ends: the outputs of its
    calls of [performQueryRequest], the number of these calls, the number of
    sleeps between them, and the way it ends. *)
Record Stream : Type := mkStream {
  outputs : list Output;
  calls : nat;
  sleeps : nat;
  result : Result Thrown unit
}.

(** The loop [for (let i = 0; i < numTries; i++)] of [streamRequestBase]
    from the index [i] on, with [remaining = numTries - i]; [attempt i] is
    what the call number [i] of [performQueryRequest] does. *)
Fixpoint retry_loop (botName : string) (attempt : nat -> Gen unit) (remaining : nat)
    (i : nat) (gotResponse : bool) : Stream :=
  match remaining with
  | O => mkStream [] 0 0 (Ok tt)
  | S remaining' =>
      let '(out, r) := attempt i in
      let gotResponse := gotResponse || has_yield out in
      match r with
      | Ok _ => mkStream out 1 0 (Ok tt)
      | Throw e =>
          if isBotErrorNoRetry e then mkStream out 1 0 (Throw e)
          else if isError e then
            let allowRetryAfterResponse :=
              isAxiosError e && bool_decide (code e = Some "ECONNABORTED") in
            if (gotResponse && negb allowRetryAfterResponse) || Nat.eqb remaining' 0
            then mkStream out 1 0
                   (Throw (BotError ("Error communicating with bot " +:+ botName)))
            else
              let next := retry_loop botName attempt remaining' (S i) gotResponse in
              mkStream (out ++ outputs next) (S (calls next)) (S (sleeps next)) (result next)
          else
            let next := retry_loop botName attempt remaining' (S i) gotResponse in
            mkStream (out ++ outputs next) (S (calls next)) (sleeps next) (result next)
      end
  end.

Definition streamRequestBase (botName : string) (numTries : nat) (attempt : nat -> Gen unit)
  : Stream :=
  retry_loop botName attempt numTries 0 false.

(** The messages that the caller of a stream has received. *)
Definition yielded (out : list Output) : list Response.t :=
  omap (fun o => match o with Yielded m => Some m | Reported _ => None end) out.

(** The loop of [getFinalResponse] over the messages of the stream. *)
Definition collect_chunks (messages : list Response.t) : list string :=
  fold_left
    (fun chunks message =>
       if isMetaResponse message then chunks
       else if Response.isSuggestedReply message then chunks
       else (if Response.isReplaceResponse message then [] else chunks)
            ++ [Response.text message])
    messages [].

(** [getFinalResponse]: [streamRequest] without tools is
    [streamRequestBase]. *)
Definition getFinalResponse (botName : string) (numTries : nat) (attempt : nat -> Gen unit)
  : Result Thrown string :=
  let stream := streamRequestBase botName numTries attempt in
  match result stream with
  | Throw e => Throw e
  | Ok _ =>
      let chunks := collect_chunks (yielded (outputs stream)) in
      if bool_decide (chunks = []) then Throw (BotError ("Bot " +:+ botName +:+ " sent no response"))
      else Ok (join EmptyString chunks)
  end.

(** *** Tool calls *)

(** The value of the property [arguments] while deltas are added to it with
    [+=]: undefined, a string, or the number NaN (the sum of two undefined
    values). *)
Inductive Arguments : Type :=
| ArgUndefined
| ArgString (s : string)
| ArgNaN.

(** [a + b]. *)
Definition js_plus (a b : Arguments) : Arguments :=
  let text (x : Arguments) : string :=
    match x with
    | ArgUndefined => "undefined"
    | ArgString s => s
    | ArgNaN => "NaN"
    end in
  match a, b with
  | ArgString _, _ | _, ArgString _ => ArgString (text a +:+ text b)
  | _, _ => ArgNaN
  end.

(** Modelled from the spec: the type [ChatCompletionChunk] of
    the module [internal/openai], which is not among the sources; it mirrors
    the OpenAI function-calling shape, a tool call having a stable [index]
    and optional [id], [type] and [function] with optional [name] and
    [arguments]. *)
Module ToolCall.
Record Function : Type := mkFunction {
  name : option string;
  arguments : Arguments
}.
Record t : Type := mk {
  index : Z;
  id : option string;
  type : option string;
  function : option Function
}.
End ToolCall.

Record Delta : Type := mkDelta {
  tool_calls : option (list ToolCall.t)
}.

Record Choice : Type := mkChoice {
  delta : Delta;
  finish_reason : option string
}.

Record ChatCompletionChunk : Type := mkChunk {
  choices : list Choice
}.

(** An entry of the list that [getToolCalls] returns. *)
Module ToolCallDefinition.
Record t : Type := mk {
  id : option string;
  type : option string;
  function : ToolCall.Function
}.
End ToolCallDefinition.

(** The body of the loop of [getToolCalls] for one message of the stream,
    given by its property [data]; a [TypeError] in the [try] block leaves
    the table as it is. *)
Definition aggregate_delta (toolCallObjectDict : gmap Z ToolCall.t)
    (data : option ChatCompletionChunk) : gmap Z ToolCall.t :=
  match data with
  | None => toolCallObjectDict
  | Some data =>
      match choices data with
      | [] => toolCallObjectDict
      | choice :: _ =>
          if truthy (finish_reason choice) then toolCallObjectDict
          else
            match tool_calls (delta choice) with
            | Some (toolCallObject :: _) =>
                let index := ToolCall.index toolCallObject in
                match toolCallObjectDict !! index with
                | None => <[index := toolCallObject]> toolCallObjectDict
                | Some toolCallObjectInDict =>
                    match ToolCall.function toolCallObjectInDict,
                          ToolCall.function toolCallObject with
                    | Some f, Some g =>
                        <[index :=
                            ToolCall.mk (ToolCall.index toolCallObjectInDict)
                              (ToolCall.id toolCallObjectInDict)
                              (ToolCall.type toolCallObjectInDict)
                              (Some (ToolCall.mkFunction (ToolCall.name f)
                                       (js_plus (ToolCall.arguments f)
                                                (ToolCall.arguments g))))]>
                          toolCallObjectDict
                    | _, _ => toolCallObjectDict
                    end
                end
            | _ => toolCallObjectDict
            end
      end
  end.

(** The tool call that the loop of [getToolCalls] reads in a message, when
    it reads one: the first tool call of the delta of the first choice. *)
Definition first_tool_call (data : option ChatCompletionChunk) : option ToolCall.t :=
  match data with
  | Some data =>
      match choices data with
      | choice :: _ =>
          if truthy (finish_reason choice) then None
          else match tool_calls (delta choice) with
               | Some (toolCallObject :: _) => Some toolCallObject
               | _ => None
               end
      | [] => None
      end
  | None => None
  end.

Definition aggregate (messages : list (option ChatCompletionChunk)) : gmap Z ToolCall.t :=
  fold_left aggregate_delta messages ∅.

Definition index_le (a b : ToolCall.t) : Prop := ToolCall.index a ≤ ToolCall.index b.

#[global] Instance index_le_dec : RelDecision index_le.
Proof. intros a b. unfold index_le. apply _. Defined.

(** [Object.values(toolCallObjectDict).sort((a, b) => a.index - b.index)]. *)
Definition sortedToolCallObjects (toolCallObjectDict : gmap Z ToolCall.t) : list ToolCall.t :=
  merge_sort index_le (snd <$> map_to_list toolCallObjectDict).

(** [getToolCalls], on the messages of the first round: a tool call
    without [function] is skipped by the [catch]. *)
Definition getToolCalls (messages : list (option ChatCompletionChunk))
  : list ToolCallDefinition.t :=
  omap (fun toolCallObject =>
          match ToolCall.function toolCallObject with
          | Some f =>
              Some (ToolCallDefinition.mk (ToolCall.id toolCallObject)
                      (ToolCall.type toolCallObject)
                      (ToolCall.mkFunction (ToolCall.name f) (ToolCall.arguments f)))
          | None => None
          end)
       (sortedToolCallObjects (aggregate messages)).

(** The message of a stream that carries one tool-call delta. *)
Definition delta_message (toolCallObject : ToolCall.t) : option ChatCompletionChunk :=
  Some (mkChunk [mkChoice (mkDelta (Some [toolCallObject])) None]).

(** A delta with the given index and fragment of arguments. *)
Definition delta_of (index : Z) (id type name : option string) (arguments : string)
  : ToolCall.t :=
  ToolCall.mk index id type (Some (ToolCall.mkFunction name (ArgString arguments))).

(** *** The events of a reply *)

(** An error that is retried when nothing was yielded: an [Error] other
    than [BotErrorNoRetry]. *)
Definition transient (e : Thrown) : bool := isError e && negb (isBotErrorNoRetry e).

(** The transport error of an aborted connection or of a read timeout. *)
Definition connection_aborted (e : Thrown) : bool :=
  isAxiosError e && bool_decide (code e = Some "ECONNABORTED").

(** The variable [gotResponse] of [streamRequestBase] when the call
    number [i] has ended: a message was yielded by one of the calls 0 to
    [i]. *)
Definition gotResponse_at (attempt : nat -> Gen unit) (i : nat) : bool :=
  existsb (fun j => has_yield (fst (attempt j))) (seq 0 (S i)).

(** The call number [i] is the last one of a stream with [numTries] tries:
    it returns, it throws [BotErrorNoRetry], or it throws a transient error
    when a message has been yielded by this call or by an earlier one and
    the error is not an aborted connection, or when it is the last try. *)
Definition last_call (numTries : nat) (attempt : nat -> Gen unit) (i : nat) : bool :=
  match snd (attempt i) with
  | Ok _ => true
  | Throw e =>
      isBotErrorNoRetry e
      || (transient e
          && ((gotResponse_at attempt i && negb (connection_aborted e))
              || Nat.eqb (S i) numTries))
  end.

(** The same in the words of the claim, which looks at the messages of the
    call that throws only. *)
Definition claimed_last_call (numTries : nat) (attempt : nat -> Gen unit) (i : nat) : bool :=
  match snd (attempt i) with
  | Ok _ => true
  | Throw e =>
      isBotErrorNoRetry e
      || (transient e
          && ((has_yield (fst (attempt i)) && negb (connection_aborted e))
              || Nat.eqb (S i) numTries))
  end.

(** The error of a connection that the transport has aborted. *)
Definition aborted : Thrown := mkThrown true "AxiosError" "timeout exceeded" true (Some "ECONNABORTED").

(** A run of calls: the first one yields a message and then fails with an
    aborted connection, the second one fails with another error of the
    transport before any message, and the later ones would return. *)
Definition mixed_run (i : nat) : Gen unit :=
  match i with
  | 0%nat => ([Yielded (Response.mk "a" None false false None None None)], Throw aborted)
  | 1%nat => ([], Throw (mkThrown true "AxiosError" "socket hang up" true (Some "ECONNRESET")))
  | _ => ([], Ok tt)
  end.

(** An event as the decoder returns it, with the given name and data. *)
Definition sse_event (name : string) (data : option string) : SSE :=
  ServerSentEvent.mk data (Some name) (Some EmptyString) None.

(** The JSON text [{"text":"..."}] of a text without a character to
    escape. *)
Definition text_json (text : string) : string :=
  "{" +:+ quoted "text" +:+ ":" +:+ quoted text +:+ "}".

(** The [MetaResponse] of a valid [meta] event. *)
Definition meta_response (linkify suggestedReplies : bool) (contentType : string)
  : Response.t :=
  Response.mk EmptyString None false false (Some linkify) (Some suggestedReplies)
    (Some contentType).

(** *** The tool calls that a stream of deltas should give *)

(** A delta whose [function] has a string as [arguments]. *)
Definition has_arguments (d : ToolCall.t) : bool :=
  match ToolCall.function d with
  | Some f => match ToolCall.arguments f with ArgString _ => true | _ => false end
  | None => false
  end.

Definition arguments_text (d : ToolCall.t) : string :=
  match ToolCall.function d with
  | Some f => match ToolCall.arguments f with ArgString s => s | _ => EmptyString end
  | None => EmptyString
  end.

(** The deltas of a stream that carry the index [i], in arrival order. *)
Definition with_index (i : Z) (deltas : list ToolCall.t) : list ToolCall.t :=
  filter (fun d => ToolCall.index d = i) deltas.

(** The single call object of the index [i]: the first delta with that
    index, its arguments replaced by the fragments of all the deltas with
    that index, concatenated in arrival order. *)
Definition merged (i : Z) (deltas : list ToolCall.t) : option ToolCall.t :=
  match with_index i deltas with
  | [] => None
  | first :: rest =>
      Some (ToolCall.mk (ToolCall.index first) (ToolCall.id first) (ToolCall.type first)
              (Some (ToolCall.mkFunction
                       (ToolCall.function first ≫= ToolCall.name)
                       (ArgString (join EmptyString (arguments_text <$> first :: rest))))))
  end.

(** The entry of the result for a call object with a [function]. *)
Definition definition_of (tc : ToolCall.t) : ToolCallDefinition.t :=
  ToolCallDefinition.mk (ToolCall.id tc) (ToolCall.type tc)
    (default (ToolCall.mkFunction None ArgUndefined) (ToolCall.function tc)).

(** *** The scenarios of the specification *)

(** The body that [streamResponse] (module [express]) writes for a stream
    of events that is read to its end without a timeout. *)
Definition response_body (events : list SSE) (sep : string) : string :=
  fold_left (fun body ev => body +:+ encodeServerSentEvent ev EmptyString sep)
    events EmptyString.

Definition NL : string := String LF EmptyString.

(** The body of scenario S4. *)
Definition body_S4 : string :=
  "event: text" +:+ NL +:+ "data: " +:+ text_json "A" +:+ NL +:+ NL
  +:+ "event: replace_response" +:+ NL +:+ "data: " +:+ text_json "B" +:+ NL +:+ NL
  +:+ "event: done" +:+ NL +:+ "data: {}" +:+ NL +:+ NL.

(** The body of scenario S3. *)
Definition body_S3 : string :=
  "event: meta" +:+ NL +:+ "data: {" +:+ quoted "linkify" +:+ ":true,"
  +:+ quoted "suggested_replies" +:+ ":false," +:+ quoted "content_type" +:+ ":"
  +:+ quoted "text/plain" +:+ "}" +:+ NL +:+ NL
  +:+ "event: text" +:+ NL +:+ "data: " +:+ text_json "abc" +:+ NL +:+ NL
  +:+ "event: done" +:+ NL +:+ "data: {}" +:+ NL +:+ NL.

(** ** Streams of records *)

(** The last event id of the decoder after the event [e]. *)
Definition next_event_id (last : string) (e : SSE) : string :=
  default last (ServerSentEvent.id e).

Definition last_event_id_of (events : list SSE) : string :=
  fold_left next_event_id events EmptyString.

(** The record of [e] is dispatched by a decoder whose last event id is
    [last]. *)
Definition dispatches (last : string) (e : SSE) : bool :=
  carries_field e || negb (String.eqb (next_event_id last e) EmptyString).

Definition decoded_after (last : string) (e : SSE) : SSE :=
  ServerSentEvent.mk
    (Some (normalized_data e))
    (Some (default EmptyString (ServerSentEvent.event e)))
    (Some (next_event_id last e))
    (ServerSentEvent.retry e).

(** The events that a stream of events is read as, the decoder starting
    with the last event id [last]. *)
Fixpoint decoded_events (last : string) (events : list SSE) : list SSE :=
  match events with
  | [] => []
  | e :: rest =>
      (if dispatches last e then [decoded_after last e] else [])
      ++ decoded_events (next_event_id last e) rest
  end.

(** An event whose id and event name hold no line terminator and whose id
    holds no NUL. *)
Definition wire_safe (e : SSE) : bool :=
  match ServerSentEvent.id e with
  | Some i => negb (has_line_sep i) && negb (includes_char NUL i)
  | None => true
  end
  && match ServerSentEvent.event e with
     | Some ev => negb (has_line_sep ev)
     | None => true
     end.

(** The text written on a response by a sequence of calls of
    [encodeServerSentEvent], each with an event and a comment: the events
    of [streamResponse] have no comment, the heartbeat of [ping] is the
    event [{}] with a comment. *)
Definition records_body (records : list (SSE * string)) (sep : string) : string :=
  fold_left (fun body r => body +:+ encodeServerSentEvent (fst r) (snd r) sep)
    records EmptyString.

(** *** The loop of [iterSSE] *)

(** The loop [while ((firstNewline = buffer.indexOf('\n')) !== -1)] of
    [iterSSE]: the buffer and the decoder after it, and the events yielded;
    every turn shortens the buffer, so its length bounds the turns. *)
Fixpoint drain_buffer (fuel : nat) (buffer : string) (d : SSEDecoder.t)
  : string * SSEDecoder.t * list SSE :=
  match fuel with
  | O => (buffer, d, [])
  | S fuel' =>
      match indexOf LF buffer with
      | None => (buffer, d, [])
      | Some firstNewline =>
          let chunkLine := substring_to firstNewline buffer in
          let buffer := substring_from (firstNewline + 1) buffer in
          let '(d', r) := SSEDecoder.decode (trim chunkLine) d in
          let '(buffer', d'', evs) := drain_buffer fuel' buffer d' in
          (buffer', d'', match r with Some e => e :: evs | None => evs end)
      end
  end.

(** [iterSSE()] as it is written: every chunk is appended to the buffer,
    and the loop is run on the buffer. *)
Fixpoint iterSSE_loop (chunks : list string) (buffer : string) (d : SSEDecoder.t)
  : list SSE :=
  match chunks with
  | [] => []
  | chunk :: rest =>
      let buffer := buffer +:+ chunk in
      let '(buffer', d', evs) := drain_buffer (String.length buffer) buffer d in
      evs ++ iterSSE_loop rest buffer' d'
  end.

Definition iterSSE_events (chunks : list string) : list SSE :=
  iterSSE_loop chunks EmptyString SSEDecoder.fresh.

(** ** Names and objects (module [internal/utils]) *)

Definition is_lower (c : ascii) : bool :=
  let n := N_of_ascii c in (97 <=? n)%N && (n <=? 122)%N.

Definition to_upper_char (c : ascii) : ascii :=
  if is_lower c then ascii_of_N (N_of_ascii c - 32) else c.

(** The class [\w] of a regular expression. *)
Definition is_word_char (c : ascii) : bool :=
  is_lower c || is_upper c || is_digit c || Ascii.eqb c "_"%char.

(** [str.replace(/(_\w)/g, (m) => m[1].toUpperCase())]. *)
Fixpoint snakeToCamelCase (str : string) : string :=
  match str with
  | EmptyString => EmptyString
  | String c rest =>
      if Ascii.eqb c "_"%char then
        match rest with
        | String c' rest' =>
            if is_word_char c' then String (to_upper_char c') (snakeToCamelCase rest')
            else String c (snakeToCamelCase rest)
        | EmptyString => String c (snakeToCamelCase rest)
        end
      else String c (snakeToCamelCase rest)
  end.

Fixpoint parseObj (obj : JsonValue) : JsonValue :=
  match obj with
  | JArray items => JArray (map parseObj items)
  | JObject members =>
      JObject (fold_left
                 (fun result kv => obj_set (snakeToCamelCase (fst kv)) (parseObj (snd kv)) result)
                 members [])
  | _ => obj
  end.

(** A name in snake case: no upper-case letter, and a lower-case letter
    after every underscore. *)
Fixpoint is_snake (s : string) : bool :=
  match s with
  | EmptyString => true
  | String c rest =>
      negb (is_upper c)
      && (if Ascii.eqb c "_"%char
          then match rest with String c' _ => is_lower c' | EmptyString => false end
          else true)
      && is_snake rest
  end.

(** A value of the runtime: the keys of every object are distinct, and
    they all satisfy [P]. *)
Fixpoint keys_ok (P : string -> bool) (v : JsonValue) : bool :=
  match v with
  | JArray items => forallb (keys_ok P) items
  | JObject members =>
      bool_decide (NoDup (map fst members))
      && forallb (fun kv => P (fst kv) && keys_ok P (snd kv)) members
  | _ => true
  end.

Definition no_underscore (s : string) : bool := negb (includes_char "_"%char s).

(** ** The reader of the client and the lines of a body *)

(** A line that [trim] leaves as it is. *)
Definition trimmed (line : string) : bool := String.eqb (trim line) line.

(** ** Events on the wire *)

(** An event that crosses the wire as it is: it has a data and an event
    name, both without a line terminator and such that their lines have no
    white space at the end, and neither an id nor a retry. *)
Definition clean (e : SSE) : bool :=
  match ServerSentEvent.data e, ServerSentEvent.event e,
        ServerSentEvent.id e, ServerSentEvent.retry e with
  | Some d, Some ev, None, None =>
      negb (has_line_sep d) && negb (has_line_sep ev)
      && trimmed ("data: " +:+ d) && trimmed ("event: " +:+ ev)
  | _, _, _, _ => false
  end.

(** The event as the client reads it: the decoder gives every event an id. *)
Definition arrived (e : SSE) : SSE :=
  ServerSentEvent.mk (ServerSentEvent.data e) (ServerSentEvent.event e)
    (Some EmptyString) (ServerSentEvent.retry e).

(** A string, a boolean or null. *)
Definition flat (v : JsonValue) : bool :=
  match v with
  | JString _ | JBool _ | JNull => true
  | _ => false
  end.

(** The steps of a bot that yield an object with the property [event]. *)
Definition yields_raw_event (step : HandlerStep) : bool :=
  match step with
  | Yield item => isEventMessage item
  | _ => false
  end.

(** ** A bot and its client *)

(** A [PartialResponse] of the bot, with its text and the flags
    [isSuggestedReply] and [isReplaceResponse]. *)
Definition text_item (m : string * bool * bool) : Item.t :=
  let '(text, suggested, replace) := m in
  Item.mk None None None None (Some text) None None None None None None suggested replace.

(** The event that [handleQuery] yields for it. *)
Definition text_event (m : string * bool * bool) : SSE :=
  let '(text, suggested, replace) := m in
  if suggested then suggestedReplyEvent (Some text)
  else if replace then replaceResponseEvent (Some text)
  else textEvent (Some text).

(** The message that the client yields for it. *)
Definition received (m : string * bool * bool) : Response.t :=
  let '(text, suggested, replace) := m in
  text_response text suggested (replace && negb suggested).

(** A bot that yields the given responses, and then returns or throws. *)
Definition text_bot (messages : list (string * bool * bool)) (ending : HandlerEnd)
  : Handler :=
  mkHandler (map (fun m => Yield (text_item m)) messages) ending.

(** One call of [performQueryRequest] on the response of the server, the
    body arriving in the given chunks; [report] is what a [report_error]
    request does. *)
Definition query (report : string -> Result Thrown unit) (tools : bool)
    (chunks : list string) : Gen unit :=
  performQueryRequest JSON_parse report tools (mkBotReply (iterSSE_events chunks) None).

(** The data of the error event that [handleQuery] yields for a thrown
    value with the given message. *)
Definition caught_error (message : string) : string :=
  JSON_stringify (modelDump (error_data (Some message) (Some false) None)).

(** ** The application (module [express]) *)

(** The sites where an [InvalidParameterError] is thrown: by
    [verifyAccessKey] when no key is found and when the key has not 32
    characters; by [makeApp] when a key is given for a bot that has one
    (as [accessKey], as [apiKey]), when a key is given for several bots,
    when two bots have the same path, and when a bot has no key; by the
    constructor of [ExpressEventSourceResponse] for a separator that it
    does not know. *)
Inductive InvalidParameterError : Type :=
| NoAccessKey
| AccessKeyLength
| AccessKeyGivenTwice
| ApiKeyGivenTwice
| KeyForSeveralBots
| SamePath (path : string)
| MissingKey (path : string)
| UnknownSeparator (sep : string).

(** The environment variables [POE_ACCESS_KEY] and [POE_API_KEY]. *)
Record Environment : Type := mkEnvironment {
  POE_ACCESS_KEY : option string;
  POE_API_KEY : option string
}.

Definition findAccessKey (env : Environment) (accessKey apiKey : option string)
  : option string :=
  if truthy accessKey then accessKey
  else if truthy (POE_ACCESS_KEY env) then POE_ACCESS_KEY env
  else if truthy apiKey then apiKey
  else if truthy (POE_API_KEY env) then POE_API_KEY env
  else None.

Definition verifyAccessKey (env : Environment) (accessKey apiKey : option string)
    (allowWithoutKey : bool) : Result InvalidParameterError (option string) :=
  let resolvedAccessKey := findAccessKey env accessKey apiKey in
  if negb (truthy resolvedAccessKey) then
    if allowWithoutKey then Ok None else Throw NoAccessKey
  else if negb (Nat.eqb (String.length (default EmptyString resolvedAccessKey)) 32)
  then Throw AccessKeyLength
  else Ok resolvedAccessKey.

(** A bot as [makeApp] sees it: its path and its access key. *)
Module Bot.
Record t : Type := mk {
  path : string;
  accessKey : option string
}.
End Bot.

(** The loop that fills [pathToBots]: the first bot whose path is already
    in the map makes it throw. *)
Fixpoint unique_paths (bots : list Bot.t) (pathToBots : list string)
  : Result InvalidParameterError unit :=
  match bots with
  | [] => Ok tt
  | bot :: rest =>
      if bool_decide (Bot.path bot ∈ pathToBots) then Throw (SamePath (Bot.path bot))
      else unique_paths rest (pathToBots ++ [Bot.path bot])
  end.

Fixpoint keys_present (bots : list Bot.t) (allowWithoutKey : bool)
  : Result InvalidParameterError unit :=
  match bots with
  | [] => Ok tt
  | bot :: rest =>
      if negb (truthy (Bot.accessKey bot)) && negb allowWithoutKey
      then Throw (MissingKey (Bot.path bot))
      else keys_present rest allowWithoutKey
  end.

(** [makeApp(bot, accessKey, { apiKey, allowWithoutKey })], for one bot or
    an array of bots: the bots whose routes are added to the application,
    with their access keys. *)
Definition makeApp (env : Environment) (bot : Bot.t + list Bot.t) (accessKey apiKey : string)
    (allowWithoutKey : bool) : Result InvalidParameterError (list Bot.t) :=
  let chosen : Result InvalidParameterError (list Bot.t) :=
    match bot with
    | inl bot =>
        if negb (truthy (Bot.accessKey bot)) then
          match verifyAccessKey env (Some accessKey) (Some apiKey) allowWithoutKey with
          | Ok key => Ok [Bot.mk (Bot.path bot) key]
          | Throw e => Throw e
          end
        else if truthy (Some accessKey) then Throw AccessKeyGivenTwice
        else if truthy (Some apiKey) then Throw ApiKeyGivenTwice
        else Ok [bot]
    | inr bots =>
        if truthy (Some accessKey) || truthy (Some apiKey) then Throw KeyForSeveralBots
        else Ok bots
    end in
  match chosen with
  | Throw e => Throw e
  | Ok bots =>
      match unique_paths bots [] with
      | Throw e => Throw e
      | Ok _ =>
          match keys_present bots allowWithoutKey with
          | Throw e => Throw e
          | Ok _ => Ok bots
          end
      end
  end.

(** The separators that the constructor of [ExpressEventSourceResponse]
    knows: the texts of two and of four characters that start with a
    backslash. *)
Definition known_separators : list string := ["\r\n"; "\r"; "\n"].

(** The field [sep] that the constructor sets for the option [sep]. *)
Definition new_ExpressEventSourceResponse (sep : option string)
  : Result InvalidParameterError string :=
  if truthy sep && negb (bool_decide (default EmptyString sep ∈ known_separators))
  then Throw (UnknownSeparator (default EmptyString sep))
  else Ok (if truthy sep then default EmptyString sep else DEFAULT_SEPARATOR).

(** * Properties *)

(** ** Strings *)

#[local] Arguments String.append !s1 s2 : simpl nomatch.

Lemma append_empty_r (s : string) : s +:+ EmptyString = s.
Proof. induction s as [|c s IH]; simpl; [reflexivity | by rewrite IH]. Qed.

Lemma append_assoc (a b c : string) : (a +:+ b) +:+ c = a +:+ (b +:+ c).
Proof. induction a as [|x a IH]; simpl; [reflexivity | by rewrite IH]. Qed.

Lemma has_line_sep_cons (c : ascii) (s : string) :
  has_line_sep (String c s) = false →
  Ascii.eqb c CR = false ∧ Ascii.eqb c LF = false ∧ has_line_sep s = false.
Proof.
  unfold has_line_sep. simpl.
  destruct (Ascii.eqb c CR), (Ascii.eqb c LF); simpl; try discriminate;
    try (rewrite orb_true_r; discriminate); auto.
Qed.

Lemma has_line_sep_app (a b : string) :
  has_line_sep a = false → has_line_sep b = false → has_line_sep (a +:+ b) = false.
Proof.
  induction a as [|c a IH]; simpl; [auto|].
  intros Ha Hb. apply has_line_sep_cons in Ha as (H1 & H2 & H3).
  specialize (IH H3 Hb). unfold has_line_sep in *. simpl.
  rewrite H1, H2. simpl. exact IH.
Qed.

(** Without a terminator there is nothing to remove and nothing to split. *)
Lemma replace_line_sep_id (s : string) :
  has_line_sep s = false → replace_line_sep s = s.
Proof.
  induction s as [|c s IH]; simpl; [reflexivity|].
  intros H. apply has_line_sep_cons in H as (H1 & H2 & H3).
  rewrite H1, H2. by rewrite IH.
Qed.

Lemma split_line_sep_no_sep (s : string) :
  has_line_sep s = false → split_line_sep s = [s].
Proof.
  induction s as [|c s IH]; simpl; [reflexivity|].
  intros H. apply has_line_sep_cons in H as (H1 & H2 & H3).
  rewrite H1, H2. by rewrite IH.
Qed.

Lemma split_line_sep_not_nil (s : string) : split_line_sep s ≠ [].
Proof.
  induction s as [|c s IH]; simpl; [discriminate|].
  destruct (Ascii.eqb c CR).
  - destruct s as [|c' s']; [discriminate|]. destruct (Ascii.eqb c' LF); discriminate.
  - destruct (Ascii.eqb c LF); [discriminate|].
    destruct (split_line_sep s); discriminate.
Qed.

(** The fragments of a split contain no terminator. *)
Lemma split_line_sep_fragments (s : string) :
  Forall (λ chunk, has_line_sep chunk = false) (split_line_sep s).
Proof.
  assert (IH : ∀ (n : nat) (s : string), (String.length s < n)%nat →
            Forall (λ chunk, has_line_sep chunk = false) (split_line_sep s));
    [|apply (IH (S (String.length s))); lia].
  clear s. intros n. induction n as [|n IH]; intros s Hlen; [lia|].
  destruct s as [|c s]; [by repeat constructor|].
  cbn [String.length] in Hlen. cbn [split_line_sep].
  destruct (Ascii.eqb c CR) eqn:Hcr.
  - destruct s as [|c' s'].
    + by repeat constructor.
    + cbn [String.length] in Hlen.
      destruct (Ascii.eqb c' LF); (constructor; [reflexivity|]); apply IH;
        cbn [String.length]; lia.
  - destruct (Ascii.eqb c LF) eqn:Hlf.
    + constructor; [reflexivity|]. apply IH. lia.
    + assert (Hs : Forall (λ chunk, has_line_sep chunk = false) (split_line_sep s))
        by (apply IH; lia).
      destruct (split_line_sep s) as [|h t].
      { constructor; [|constructor].
        unfold has_line_sep. cbn [includes_char]. by rewrite Hcr, Hlf. }
      inversion Hs as [|? ? Hh Ht]; subst. constructor; [|exact Ht].
      unfold has_line_sep in *. cbn [includes_char]. rewrite Hcr, Hlf. exact Hh.
Qed.

(** Splitting on terminators and joining with [\n] is the identity on a
    string without [\r]. *)
Lemma join_split_no_CR (s : string) :
  includes_char CR s = false →
  join (String LF EmptyString) (split_line_sep s) = s.
Proof.
  unfold join. induction s as [|c s IH]; simpl; [reflexivity|].
  intros H. apply orb_false_iff in H as [Hc Hs]. rewrite Hc.
  specialize (IH Hs).
  destruct (Ascii.eqb c LF) eqn:Hlf.
  - apply Ascii.eqb_eq in Hlf. subst c.
    pose proof (split_line_sep_not_nil s) as Hn.
    destruct (split_line_sep s) as [|h t]; [done|].
    simpl in *. by rewrite IH.
  - pose proof (split_line_sep_not_nil s) as Hn.
    destruct (split_line_sep s) as [|h t]; [done|].
    destruct t as [|h' t']; simpl in *; by rewrite IH.
Qed.

(** ** Numbers as text *)

Lemma digit_val_digit_char (k : N) :
  (k < 10)%N → digit_val 10 (digit_char k) = Some k.
Proof.
  intros H.
  assert (Hk : k = 0%N ∨ k = 1%N ∨ k = 2%N ∨ k = 3%N ∨ k = 4%N ∨ k = 5%N
               ∨ k = 6%N ∨ k = 7%N ∨ k = 8%N ∨ k = 9%N) by lia.
  repeat (destruct Hk as [->|Hk]; [reflexivity|]). by subst.
Qed.

Lemma digit_char_props (k : N) :
  (k < 10)%N →
  is_white_space (digit_char k) = false
  ∧ Ascii.eqb (digit_char k) "-"%char = false
  ∧ Ascii.eqb (digit_char k) "+"%char = false
  ∧ Ascii.eqb (digit_char k) "x"%char = false
  ∧ Ascii.eqb (digit_char k) "X"%char = false
  ∧ Ascii.eqb (digit_char k) CR = false
  ∧ Ascii.eqb (digit_char k) LF = false.
Proof.
  intros H.
  assert (Hk : k = 0%N ∨ k = 1%N ∨ k = 2%N ∨ k = 3%N ∨ k = 4%N ∨ k = 5%N
               ∨ k = 6%N ∨ k = 7%N ∨ k = 8%N ∨ k = 9%N) by lia.
  repeat (destruct Hk as [->|Hk]; [by repeat split|]). subst. by repeat split.
Qed.

(** Reading back the digits of [n] continues from the value [n]. *)
Lemma parse_digits_N_digits (fuel : nat) :
  ∀ (n : N) (acc : string) (seen : bool),
    (n < 2 ^ N.of_nat fuel)%N →
    parse_digits 10 (N_digits fuel n acc) 0 seen = parse_digits 10 acc n true.
Proof.
  induction fuel as [|f IH]; intros n acc seen Hn.
  - assert (n = 0%N) by (simpl in Hn; lia). subst n. reflexivity.
  - cbn [N_digits].
    assert (Hmod : (n mod 10 < 10)%N) by (apply N.mod_lt; lia).
    assert (Hdiv : n = (n / 10 * 10 + n mod 10)%N).
    { rewrite N.mul_comm. apply N.div_mod. lia. }
    destruct (n / 10 =? 0)%N eqn:Hq.
    + apply N.eqb_eq in Hq. cbn [parse_digits].
      rewrite digit_val_digit_char by exact Hmod.
      f_equal. simpl. lia.
    + rewrite IH.
      * cbn [parse_digits]. rewrite digit_val_digit_char by exact Hmod.
        f_equal. lia.
      * rewrite Nat2N.inj_succ, N.pow_succ_r' in Hn.
        apply N.Div0.div_lt_upper_bound. lia.
Qed.

Lemma N_lt_pow2_size (n : N) : (n < 2 ^ N.of_nat (N.size_nat n))%N.
Proof.
  destruct n as [|p]; [reflexivity|].
  cbn [N.size_nat]. induction p as [p IH|p IH|].
  - cbn [Pos.size_nat]. rewrite Nat2N.inj_succ, N.pow_succ_r'. lia.
  - cbn [Pos.size_nat]. rewrite Nat2N.inj_succ, N.pow_succ_r'. lia.
  - reflexivity.
Qed.

Lemma parseInt_N_to_string_aux (n : N) (seen : bool) :
  parse_digits 10 (N_to_string n) 0 seen = Some n.
Proof.
  unfold N_to_string. rewrite parse_digits_N_digits by apply N_lt_pow2_size.
  reflexivity.
Qed.

(** The text of a natural number: a digit, then nothing or another digit. *)
Lemma N_digits_shape (fuel : nat) (n : N) (acc : string) :
  ∃ k rest, (k < 10)%N ∧ N_digits fuel n acc = String (digit_char k) rest
            ∧ (rest = acc ∨ ∃ k' rest', (k' < 10)%N ∧ rest = String (digit_char k') rest').
Proof.
  revert n acc. induction fuel as [|f IH]; intros n acc.
  - exists (n mod 10)%N, acc. split; [apply N.mod_lt; lia|]. split; [reflexivity|by left].
  - cbn [N_digits]. destruct (n / 10 =? 0)%N.
    + exists (n mod 10)%N, acc. split; [apply N.mod_lt; lia|]. split; [reflexivity|by left].
    + destruct (IH (n / 10)%N (String (digit_char (n mod 10)) acc))
        as (k & rest & Hk & Heq & Hrest).
      exists k, rest. split; [exact Hk|]. split; [exact Heq|]. right.
      destruct Hrest as [->|Hr]; [|exact Hr].
      exists (n mod 10)%N, acc. split; [apply N.mod_lt; lia|reflexivity].
Qed.

Lemma N_digits_no_line_sep (fuel : nat) (n : N) (acc : string) :
  has_line_sep acc = false → has_line_sep (N_digits fuel n acc) = false.
Proof.
  revert n acc. induction fuel as [|f IH]; intros n acc Hacc.
  - cbn [N_digits]. unfold has_line_sep in *. cbn [includes_char].
    destruct (digit_char_props (n mod 10)) as (_ & _ & _ & _ & _ & -> & ->);
      [apply N.mod_lt; lia|]. exact Hacc.
  - assert (Hd : has_line_sep (String (digit_char (n mod 10)) acc) = false).
    { unfold has_line_sep in *. cbn [includes_char].
      destruct (digit_char_props (n mod 10)) as (_ & _ & _ & _ & _ & -> & ->);
        [apply N.mod_lt; lia|]. exact Hacc. }
    cbn [N_digits]. destruct (n / 10 =? 0)%N; [exact Hd|]. by apply IH.
Qed.

Lemma number_to_string_no_line_sep (z : Z) :
  has_line_sep (number_to_string z) = false.
Proof.
  destruct z as [|p|p]; unfold number_to_string, N_to_string.
  - by apply N_digits_no_line_sep.
  - by apply N_digits_no_line_sep.
  - apply (has_line_sep_app (String "-"%char EmptyString)); [reflexivity|].
    by apply N_digits_no_line_sep.
Qed.

Lemma parseInt_N_to_string (n : N) : parseInt (N_to_string n) = Some (Z.of_N n).
Proof.
  unfold parseInt.
  destruct (N_digits_shape (N.size_nat n) n EmptyString) as (k & rest & Hk & Heq & Hrest).
  pose proof (parseInt_N_to_string_aux n false) as Hp.
  unfold N_to_string in *. rewrite Heq in *.
  destruct (digit_char_props k Hk) as (Hw & Hm & Hpl & _).
  cbn [trim_start]. rewrite Hw, Hm, Hpl.
  assert (Hx : strip_hex_prefix (String (digit_char k) rest) = None).
  { destruct Hrest as [->|(k' & rest' & Hk' & ->)]; [reflexivity|].
    cbn [strip_hex_prefix].
    destruct (digit_char_props k' Hk') as (_ & _ & _ & -> & -> & _).
    by rewrite andb_false_r. }
  rewrite Hx, Hp. reflexivity.
Qed.

(** Printing an integer and reading it back with [parseInt]. *)
Lemma parseInt_number_to_string (z : Z) : parseInt (number_to_string z) = Some z.
Proof.
  destruct z as [|p|p].
  - reflexivity.
  - unfold number_to_string. by rewrite parseInt_N_to_string.
  - unfold number_to_string.
    pose proof (parseInt_N_to_string (N.pos p)) as Hp.
    unfold parseInt in *.
    destruct (N_digits_shape (N.size_nat (N.pos p)) (N.pos p) EmptyString)
      as (k & rest & Hk & Heq & _).
    unfold N_to_string in *. rewrite Heq in *.
    destruct (digit_char_props k Hk) as (Hw & Hm & Hpl & _).
    cbn [trim_start] in *. rewrite Hw, Hm, Hpl in Hp.
    change (is_white_space "-"%char) with false. cbn match.
    change (Ascii.eqb "-" "-")%char with true. cbn match.
    destruct (match strip_hex_prefix (String (digit_char k) rest) with
              | Some rest0 => parse_digits 16 rest0 0 false
              | None => parse_digits 10 (String (digit_char k) rest) 0 false
              end) as [m|]; [|discriminate].
    cbn in Hp |- *. injection Hp as Hp. f_equal. lia.
Qed.

(** ** The SSE codec *)

Lemma concat_lines_app (sep : string) (a b : list string) :
  concat_lines sep (a ++ b) = concat_lines sep a +:+ concat_lines sep b.
Proof.
  induction a as [|l a IH]; [reflexivity|].
  cbn [concat_lines fold_right app] in *. fold (concat_lines sep (a ++ b)).
  fold (concat_lines sep a). by rewrite IH, !append_assoc.
Qed.

Lemma fold_left_lines (pre sep : string) (chunks : list string) (out : string) :
  fold_left (λ output chunk, output +:+ pre +:+ chunk +:+ sep) chunks out
  = out +:+ concat_lines sep (map (String.append pre) chunks).
Proof.
  revert out. induction chunks as [|c chunks IH]; intros out.
  - by rewrite append_empty_r.
  - cbn [fold_left map concat_lines fold_right].
    fold (concat_lines sep (map (String.append pre) chunks)).
    by rewrite IH, !append_assoc.
Qed.

(** The output of the encoder is its lines, each with the separator. *)
Lemma encodeServerSentEvent_lines (sse : SSE) (comment sep : string) :
  encodeServerSentEvent sse comment sep = concat_lines sep (encode_lines sse comment).
Proof.
  unfold encodeServerSentEvent, encode_lines.
  rewrite !concat_lines_app.
  destruct sse as [d e i r]. cbn [ServerSentEvent.data ServerSentEvent.event
    ServerSentEvent.id ServerSentEvent.retry].
  destruct (String.eqb comment EmptyString);
    destruct i, e, d, r;
    rewrite ?fold_left_lines; cbn [concat_lines fold_right];
    rewrite ?append_assoc, ?append_empty_r; reflexivity.
Qed.

Lemma split_line_sep_line (l sep rest : string) :
  has_line_sep l = false →
  sep ∈ line_separators →
  (sep = String CR EmptyString → startsWith LF rest = false) →
  split_line_sep (l +:+ sep +:+ rest) = l :: split_line_sep rest.
Proof.
  intros Hl Hsep Hrest. induction l as [|c l IH].
  - cbn [String.append].
    unfold line_separators in Hsep. rewrite !elem_of_cons in Hsep.
    destruct Hsep as [->|[->|[->|Hsep]]].
    + reflexivity.
    + specialize (Hrest eq_refl). destruct rest as [|c' rest']; [reflexivity|].
      cbn [startsWith] in Hrest. cbn. rewrite Hrest. reflexivity.
    + reflexivity.
    + by apply elem_of_nil in Hsep.
  - apply has_line_sep_cons in Hl as (H1 & H2 & H3).
    cbn [String.append split_line_sep]. rewrite H1, H2.
    change (String.append l (String.append sep rest)) with (l +:+ sep +:+ rest).
    by rewrite (IH H3).
Qed.

Lemma concat_lines_not_LF (lines : list string) :
  Forall (λ l, has_line_sep l = false) lines →
  startsWith LF (concat_lines (String CR EmptyString) lines) = false.
Proof.
  intros H. destruct H as [|l lines Hl _]; [reflexivity|].
  cbn [concat_lines fold_right]. destruct l as [|c l]; [reflexivity|].
  apply has_line_sep_cons in Hl as (_ & H2 & _). exact H2.
Qed.

(** Splitting the encoder's text on terminators gives back its lines. *)
Lemma split_concat_lines (sep : string) (lines : list string) :
  sep ∈ line_separators →
  Forall (λ l, has_line_sep l = false) lines →
  split_line_sep (concat_lines sep lines) = lines ++ [EmptyString].
Proof.
  intros Hsep H. induction H as [|l lines Hl Hlines IH]; [reflexivity|].
  cbn [concat_lines fold_right app]. fold (concat_lines sep lines).
  rewrite split_line_sep_line; [by rewrite IH|exact Hl|exact Hsep|].
  intros ->. by apply concat_lines_not_LF.
Qed.

Lemma stream_lines_concat_lines (sep : string) (lines : list string) :
  sep ∈ line_separators →
  Forall (λ l, has_line_sep l = false) lines →
  stream_lines (concat_lines sep lines) = lines.
Proof.
  intros Hsep H. unfold stream_lines. rewrite split_concat_lines by done.
  apply removelast_last.
Qed.

Lemma encode_lines_no_line_sep (sse : SSE) (comment : string) :
  (∀ i, ServerSentEvent.id sse = Some i → has_line_sep (replace_line_sep i) = false) →
  (∀ e, ServerSentEvent.event sse = Some e → has_line_sep (replace_line_sep e) = false) →
  Forall (λ l, has_line_sep l = false) (encode_lines sse comment).
Proof.
  intros Hi He. unfold encode_lines.
  assert (Hmap : ∀ pre s, has_line_sep pre = false →
            Forall (λ l, has_line_sep l = false) (map (String.append pre) (split_line_sep s))).
  { intros pre s Hpre. apply Forall_forall. intros l Hin.
    apply list_elem_of_In, in_map_iff in Hin as (chunk & <- & Hin).
    apply has_line_sep_app; [exact Hpre|].
    pose proof (split_line_sep_fragments s) as Hf.
    rewrite Forall_forall in Hf. apply Hf. by apply list_elem_of_In. }
  repeat apply Forall_app_2.
  - destruct (String.eqb comment EmptyString); [constructor|by apply Hmap].
  - destruct (ServerSentEvent.id sse) as [i|]; [|constructor].
    constructor; [|constructor]. apply has_line_sep_app; [reflexivity|by apply Hi].
  - destruct (ServerSentEvent.event sse) as [e|]; [|constructor].
    constructor; [|constructor]. apply has_line_sep_app; [reflexivity|by apply He].
  - destruct (ServerSentEvent.data sse) as [d|]; [by apply Hmap|constructor].
  - destruct (ServerSentEvent.retry sse) as [r|]; [|constructor].
    constructor; [|constructor].
    apply has_line_sep_app; [reflexivity|apply number_to_string_no_line_sep].
  - by repeat constructor.
Qed.

(** *** The decoder on the lines of the encoder *)

Lemma decode_lines_app (l1 l2 : list string) (d : SSEDecoder.t) :
  SSEDecoder.decode_lines (l1 ++ l2) d
  = let '(d1, evs1) := SSEDecoder.decode_lines l1 d in
    let '(d2, evs2) := SSEDecoder.decode_lines l2 d1 in
    (d2, evs1 ++ evs2).
Proof.
  revert d. induction l1 as [|l l1 IH]; intros d.
  - cbn. by destruct (SSEDecoder.decode_lines l2 d).
  - cbn [app SSEDecoder.decode_lines].
    destruct (SSEDecoder.decode l d) as [d' r]. rewrite IH.
    destruct (SSEDecoder.decode_lines l1 d') as [d1 evs1].
    destruct (SSEDecoder.decode_lines l2 d1) as [d2 evs2].
    by destruct r.
Qed.

Lemma decode_comment_lines (chunks : list string) (d : SSEDecoder.t) :
  SSEDecoder.decode_lines (map (String.append ": ") chunks) d = (d, []).
Proof.
  induction chunks as [|c chunks IH]; [reflexivity|].
  cbn [map SSEDecoder.decode_lines].
  change (SSEDecoder.decode (": " +:+ c) d) with (d, @None SSE).
  cbv beta iota. by rewrite IH.
Qed.

Lemma decode_data_lines (chunks : list string) (d : SSEDecoder.t) :
  SSEDecoder.decode_lines (map (String.append "data: ") chunks) d
  = (SSEDecoder.mk (SSEDecoder.event d) (SSEDecoder.data d ++ chunks)
       (SSEDecoder.lastEventId d) (SSEDecoder.retry d), []).
Proof.
  revert d. induction chunks as [|c chunks IH]; intros d.
  - cbn. rewrite app_nil_r. by destruct d.
  - cbn [map SSEDecoder.decode_lines].
    change (SSEDecoder.decode ("data: " +:+ c) d)
      with (SSEDecoder.mk (SSEDecoder.event d) (SSEDecoder.data d ++ [c])
              (SSEDecoder.lastEventId d) (SSEDecoder.retry d), @None SSE).
    cbv beta iota. rewrite IH. cbn. by rewrite <- app_assoc.
Qed.

Lemma decode_id_line (v : string) (d : SSEDecoder.t) :
  includes_char NUL v = false →
  SSEDecoder.decode ("id: " +:+ v) d
  = (SSEDecoder.mk (SSEDecoder.event d) (SSEDecoder.data d) v (SSEDecoder.retry d), None).
Proof. intros H. unfold SSEDecoder.decode. cbn. by rewrite H. Qed.

Lemma decode_event_line (v : string) (d : SSEDecoder.t) :
  SSEDecoder.decode ("event: " +:+ v) d
  = (SSEDecoder.mk v (SSEDecoder.data d) (SSEDecoder.lastEventId d) (SSEDecoder.retry d), None).
Proof. reflexivity. Qed.

Lemma decode_retry_line (r : Z) (d : SSEDecoder.t) :
  SSEDecoder.decode ("retry: " +:+ number_to_string r) d
  = (SSEDecoder.mk (SSEDecoder.event d) (SSEDecoder.data d) (SSEDecoder.lastEventId d) (Some r), None).
Proof.
  unfold SSEDecoder.decode. cbn. by rewrite parseInt_number_to_string.
Qed.

Lemma decode_blank_line (d : SSEDecoder.t) :
  SSEDecoder.decode EmptyString d
  = if String.eqb (SSEDecoder.event d) EmptyString
       && bool_decide (SSEDecoder.data d = [])
       && String.eqb (SSEDecoder.lastEventId d) EmptyString
       && bool_decide (SSEDecoder.retry d = None)
    then (d, None)
    else (SSEDecoder.mk EmptyString [] (SSEDecoder.lastEventId d) None,
          Some (ServerSentEvent.mk
                  (Some (join (String LF EmptyString) (SSEDecoder.data d)))
                  (Some (SSEDecoder.event d))
                  (Some (SSEDecoder.lastEventId d))
                  (SSEDecoder.retry d))).
Proof. reflexivity. Qed.

Ltac decode_field_lines :=
  repeat first
    [ rewrite decode_lines_app
    | rewrite decode_comment_lines
    | rewrite decode_data_lines
    | rewrite decode_event_line
    | rewrite decode_retry_line
    | rewrite decode_id_line by assumption
    | progress cbn [SSEDecoder.decode_lines app SSEDecoder.event SSEDecoder.data
                    SSEDecoder.lastEventId SSEDecoder.retry SSEDecoder.fresh]
    | progress cbv beta iota ].

(** What a fresh decoder makes of the text of an event whose id and event
    name hold no terminator and whose id holds no NUL. *)
Lemma decode_encode (e : SSE) (comment sep : string) :
  sep ∈ line_separators →
  (∀ i, ServerSentEvent.id e = Some i →
        has_line_sep i = false ∧ includes_char NUL i = false) →
  (∀ ev, ServerSentEvent.event e = Some ev → has_line_sep ev = false) →
  decode_stream (encodeServerSentEvent e comment sep)
  = if carries_field e then [decoded_event e] else [].
Proof.
  intros Hsep Hid Hev. unfold decode_stream.
  rewrite encodeServerSentEvent_lines.
  rewrite stream_lines_concat_lines; [|exact Hsep|].
  2:{ apply encode_lines_no_line_sep.
      - intros i Hi. destruct (Hid i Hi) as [H _]. by rewrite replace_line_sep_id.
      - intros ev Hv. rewrite replace_line_sep_id; by apply Hev. }
  unfold encode_lines, carries_field, decoded_event, normalized_data.
  destruct e as [d ev i r].
  cbn [ServerSentEvent.data ServerSentEvent.event ServerSentEvent.id
       ServerSentEvent.retry] in *.
  assert (Hi : ∀ v, i = Some v → replace_line_sep v = v ∧ includes_char NUL v = false).
  { intros v ->. destruct (Hid v eq_refl). split; [by apply replace_line_sep_id|done]. }
  assert (Hv : ∀ v, ev = Some v → replace_line_sep v = v).
  { intros v ->. apply replace_line_sep_id. by apply Hev. }
  clear Hid Hev.
  destruct i as [i|]; [destruct (Hi i eq_refl) as [-> Hnul]|];
  destruct ev as [ev|]; try rewrite (Hv ev eq_refl);
  destruct d as [d|]; destruct r as [r|];
  destruct (String.eqb comment EmptyString);
  decode_field_lines.
  all: rewrite decode_blank_line; cbn [SSEDecoder.event SSEDecoder.data
         SSEDecoder.lastEventId SSEDecoder.retry default from_option app].
  all: try (pose proof (split_line_sep_not_nil d);
            destruct (split_line_sep d) eqn:?; [done|]).
  all: rewrite ?(bool_decide_eq_false_2 (_ :: _ = [])) by done.
  all: rewrite ?(bool_decide_eq_false_2 (Some _ = None)) by done.
  all: rewrite ?(bool_decide_eq_true_2 (@nil string = [])) by done.
  all: rewrite ?(bool_decide_eq_true_2 (@None Z = None)) by done.
  all: rewrite ?(bool_decide_eq_true_2 (is_Some (Some _))) by done.
  all: rewrite ?(bool_decide_eq_false_2 (is_Some None)) by (by intros [? ?]).
  all: repeat match goal with
       | |- context [String.eqb ?s EmptyString] =>
           is_var s; destruct (String.eqb s EmptyString)
       end.
  all: cbn [andb orb negb]; cbv beta iota; cbn [snd app]; try reflexivity.
Qed.

(** When the only terminator of a value is removed none is left. *)
Lemma replace_line_sep_single (a t b : string) :
  has_line_sep a = false → has_line_sep b = false → t ∈ line_separators →
  replace_line_sep (a +:+ t +:+ b) = a +:+ b.
Proof.
  intros Ha Hb Ht. induction a as [|c a IH].
  - cbn [String.append]. unfold line_separators in Ht. rewrite !elem_of_cons in Ht.
    destruct Ht as [->|[->|[->|Ht]]]; [reflexivity| |reflexivity|by apply elem_of_nil in Ht].
    destruct b as [|c b]; [reflexivity|].
    apply has_line_sep_cons in Hb as (_ & H2 & _). cbn. by rewrite H2.
  - apply has_line_sep_cons in Ha as (H1 & H2 & H3).
    cbn [String.append replace_line_sep]. rewrite H1, H2.
    change (String.append a (String.append t b)) with (a +:+ t +:+ b).
    by rewrite (IH H3).
Qed.

(** C1 (as amended): for every event whose id and event name hold no line
    terminator, whose id holds no NUL and whose retry, when it has one, is
    a safe integer, the lines of its encoding, fed to a
    fresh decoder, give exactly one event when the event carries a field, and
    none when it carries no field; the data of the event returned is the
    original data with every terminator read as a line feed (so the data
    itself when it holds no carriage return, and the empty string when the
    event has none), its id and retry are the original ones (the empty string
    for an absent id), and its event name is the original one when the event
    has one. *)
Theorem codec_round_trip (e : SSE) (sep : string) :
  sep ∈ line_separators →
  (∀ i, ServerSentEvent.id e = Some i →
        has_line_sep i = false ∧ includes_char NUL i = false) →
  (∀ ev, ServerSentEvent.event e = Some ev → has_line_sep ev = false) →
  safe_retry e = true →
  (carries_field e = true →
   ∃ e', decode_stream (encodeServerSentEvent e EmptyString sep) = [e']
     ∧ ServerSentEvent.data e' = Some (normalized_data e)
     ∧ (∀ d, ServerSentEvent.data e = Some d → includes_char CR d = false →
             ServerSentEvent.data e' = Some d)
     ∧ (∀ ev, ServerSentEvent.event e = Some ev → ServerSentEvent.event e' = Some ev)
     ∧ ServerSentEvent.id e' = Some (default EmptyString (ServerSentEvent.id e))
     ∧ ServerSentEvent.retry e' = ServerSentEvent.retry e)
  ∧ (carries_field e = false →
     decode_stream (encodeServerSentEvent e EmptyString sep) = []).
Proof.
  intros Hsep Hid Hev _. rewrite decode_encode by done. split; intros Hc; rewrite Hc.
  - exists (decoded_event e). repeat split.
    + intros d Hd Hcr. cbn. unfold normalized_data. rewrite Hd.
      by rewrite join_split_no_CR.
    + intros ev Hv. cbn. by rewrite Hv.
  - reflexivity.
Qed.

(** The round trip of an event with all four fields, default separator. *)
Lemma codec_round_trip_witness :
  ∃ e', decode_stream
          (encodeServerSentEvent
             (ServerSentEvent.mk (Some "a b") (Some "text") (Some "7") (Some 1500))
             EmptyString DEFAULT_SEPARATOR) = [e']
    ∧ ServerSentEvent.data e' = Some "a b"
    ∧ ServerSentEvent.event e' = Some "text"
    ∧ ServerSentEvent.id e' = Some "7"
    ∧ ServerSentEvent.retry e' = Some 1500.
Proof.
  destruct (codec_round_trip
              (ServerSentEvent.mk (Some "a b") (Some "text") (Some "7") (Some 1500))
              DEFAULT_SEPARATOR) as [H _].
  - unfold line_separators, DEFAULT_SEPARATOR. apply elem_of_cons. by left.
  - intros i Hi. injection Hi as <-. split; reflexivity.
  - intros ev Hv. injection Hv as <-. reflexivity.
  - reflexivity.
  - destruct (H eq_refl) as (e' & H1 & _ & H2 & H3 & H4 & H5).
    exists e'. split; [exact H1|]. split; [by apply H2|]. split; [by apply H3|].
    split; [exact H4|exact H5].
Defined.

(** C1 (as stated) fails: the carriage return of the data ["a\rb"] comes back
    as a line feed, and the event with no field gives no event at all. *)
Lemma codec_round_trip_counterexample :
  decode_stream
    (encodeServerSentEvent
       (ServerSentEvent.mk (Some (String "a" (String CR "b"))) (Some "text") (Some "7") (Some 3))
       EmptyString DEFAULT_SEPARATOR)
  ≠ [roundtrip_expected
       (ServerSentEvent.mk (Some (String "a" (String CR "b"))) (Some "text") (Some "7") (Some 3))]
  ∧ decode_stream (encodeServerSentEvent empty_sse EmptyString DEFAULT_SEPARATOR) = []
  ∧ decode_stream (encodeServerSentEvent empty_sse EmptyString DEFAULT_SEPARATOR)
    ≠ [roundtrip_expected empty_sse].
Proof. split; [|split]; vm_compute; congruence. Qed.

(** C6: with two terminators in the id (or in the event name) the encoder
    removes the first one only; the second one stays in the field value. *)
Theorem encode_keeps_second_terminator :
  let v := String "a" (String LF (String "b" (String LF "c"))) in
  encodeServerSentEvent (ServerSentEvent.mk None None (Some v) None) EmptyString CRLF
    = "id: ab" +:+ String LF "c" +:+ CRLF +:+ CRLF
  ∧ encodeServerSentEvent (ServerSentEvent.mk None (Some v) None None) EmptyString CRLF
    = "event: ab" +:+ String LF "c" +:+ CRLF +:+ CRLF
  ∧ has_line_sep (replace_line_sep v) = true.
Proof. by vm_compute. Qed.

(** A blank line always leaves the accumulators clear and the last event id
    in place. *)
Lemma decode_blank_state (d : SSEDecoder.t) :
  let d' := fst (SSEDecoder.decode EmptyString d) in
  SSEDecoder.event d' = EmptyString ∧ SSEDecoder.data d' = []
  ∧ SSEDecoder.retry d' = None ∧ SSEDecoder.lastEventId d' = SSEDecoder.lastEventId d.
Proof.
  rewrite decode_blank_line.
  destruct (String.eqb (SSEDecoder.event d) EmptyString) eqn:He; [|by cbn].
  destruct (bool_decide (SSEDecoder.data d = [])) eqn:Hd; [|by cbn].
  destruct (String.eqb (SSEDecoder.lastEventId d) EmptyString); [|by cbn].
  destruct (bool_decide (SSEDecoder.retry d = None)) eqn:Hr; [|by cbn].
  cbn. apply String.eqb_eq in He. apply bool_decide_eq_true_1 in Hd, Hr. done.
Qed.

Lemma decode_lines_snoc_state (lines : list string) (line : string) (d : SSEDecoder.t) :
  fst (SSEDecoder.decode_lines (lines ++ [line]) d)
  = fst (SSEDecoder.decode line (fst (SSEDecoder.decode_lines lines d))).
Proof.
  rewrite decode_lines_app. destruct (SSEDecoder.decode_lines lines d) as [d1 evs1].
  cbn. by destruct (SSEDecoder.decode line d1).
Qed.

Lemma decode_comments (comments : list string) (d : SSEDecoder.t) :
  Forall (λ l, startsWith ":"%char l = true) comments →
  SSEDecoder.decode_lines comments d = (d, []).
Proof.
  intros H. induction H as [|l comments Hl _ IH]; [reflexivity|].
  cbn [SSEDecoder.decode_lines].
  assert (Hd : SSEDecoder.decode l d = (d, None)).
  { destruct l as [|c l]; [discriminate|]. unfold SSEDecoder.decode.
    cbn [String.eqb]. by rewrite Hl. }
  by rewrite Hd, IH.
Qed.

(** The last event id of the decoder is the id that the lines it has seen
    give. *)
Lemma decode_lastEventId (line : string) (d : SSEDecoder.t) :
  SSEDecoder.lastEventId (fst (SSEDecoder.decode line d))
  = id_after (SSEDecoder.lastEventId d) line.
Proof.
  unfold SSEDecoder.decode, id_after.
  destruct line as [|c line].
  { cbn. by destruct (_ && _). }
  cbn [String.eqb].
  destruct (startsWith ":"%char (String c line)) eqn:Hs.
  { cbn in Hs. apply Ascii.eqb_eq in Hs. subst c. reflexivity. }
  destruct (SSEDecoder.extractFieldAndValue (String c line)) as [fieldname value].
  destruct (String.eqb_spec fieldname "event") as [->|_]; [reflexivity|].
  destruct (String.eqb_spec fieldname "data") as [->|_]; [reflexivity|].
  destruct (String.eqb_spec fieldname "id") as [->|_].
  { cbn [andb]. by destruct (negb (includes_char NUL value)). }
  cbn [andb].
  destruct (String.eqb fieldname "retry"); [|reflexivity].
  by destruct (parseInt value).
Qed.

Lemma decode_lines_lastEventId (lines : list string) (d : SSEDecoder.t) :
  SSEDecoder.lastEventId (fst (SSEDecoder.decode_lines lines d))
  = fold_left id_after lines (SSEDecoder.lastEventId d).
Proof.
  revert d. induction lines as [|line lines IH]; intros d; [reflexivity|].
  cbn [SSEDecoder.decode_lines fold_left].
  rewrite <- decode_lastEventId, <- IH.
  destruct (SSEDecoder.decode line d) as [d' r]. cbn [fst].
  by destruct (SSEDecoder.decode_lines lines d').
Qed.

(** C7 (as amended): a blank line fed to a fresh decoder produces no event;
    the last event id of the decoder is the value of the most recent [id]
    line that it has seen (one without NUL), and the empty string when it
    has seen none; after any lines, a blank line and then comment lines
    only, the next blank line produces no event exactly when no such id is
    in force, and otherwise dispatches an event that carries that id, with
    empty data and an empty event name, and leaves the decoder as it was;
    and a blank line that dispatches resets the event name, the data buffer
    and the retry of the decoder and keeps its last event id, which is the
    id of the event returned. *)
Theorem decoder_blank_line :
  SSEDecoder.decode EmptyString SSEDecoder.fresh = (SSEDecoder.fresh, None)
  ∧ (∀ lines : list string,
       SSEDecoder.lastEventId (fst (SSEDecoder.decode_lines lines SSEDecoder.fresh))
       = seen_id lines)
  ∧ (∀ (prev comments : list string),
     Forall (λ l, startsWith ":"%char l = true) comments →
     let d := fst (SSEDecoder.decode_lines (prev ++ [EmptyString] ++ comments)
                     SSEDecoder.fresh) in
     SSEDecoder.decode EmptyString d
     = (d, if String.eqb (seen_id prev) EmptyString then None
           else Some (ServerSentEvent.mk (Some EmptyString) (Some EmptyString)
                        (Some (seen_id prev)) None)))
  ∧ (∀ (d d' : SSEDecoder.t) (e : SSE),
       SSEDecoder.decode EmptyString d = (d', Some e) →
       SSEDecoder.event d' = EmptyString ∧ SSEDecoder.data d' = []
       ∧ SSEDecoder.retry d' = None
       ∧ SSEDecoder.lastEventId d' = SSEDecoder.lastEventId d
       ∧ ServerSentEvent.id e = Some (SSEDecoder.lastEventId d)).
Proof.
  split; [reflexivity|]. split; [|split].
  - intros lines. apply decode_lines_lastEventId.
  - intros prev comments Hc d.
    assert (Hd : d = fst (SSEDecoder.decode EmptyString
                            (fst (SSEDecoder.decode_lines prev SSEDecoder.fresh)))).
    { subst d. rewrite app_assoc, decode_lines_app.
      rewrite <- decode_lines_snoc_state.
      destruct (SSEDecoder.decode_lines (prev ++ [EmptyString]) SSEDecoder.fresh) as [d1 evs1].
      by rewrite (decode_comments comments d1 Hc). }
    destruct (decode_blank_state (fst (SSEDecoder.decode_lines prev SSEDecoder.fresh)))
      as (He & Hdt & Hr & Hid).
    rewrite <- Hd in He, Hdt, Hr, Hid.
    rewrite (decode_lines_lastEventId prev SSEDecoder.fresh) in Hid.
    change (fold_left id_after prev (SSEDecoder.lastEventId SSEDecoder.fresh))
      with (seen_id prev) in Hid.
    clearbody d. destruct d as [ev dt last rt]. cbn in He, Hdt, Hr, Hid. subst.
    rewrite decode_blank_line. cbn.
    by destruct (String.eqb (seen_id prev) EmptyString).
  - intros d d' e H. rewrite decode_blank_line in H.
    destruct (_ && _) in H; [discriminate|]. injection H as <- <-. by repeat split.
Qed.

(** After a record with an id, a heartbeat comment and a blank line. *)
Lemma decoder_blank_line_witness :
  let d := fst (SSEDecoder.decode_lines
                  (["data: x"; "id: 7"] ++ [EmptyString] ++ [": keep-alive"])
                  SSEDecoder.fresh) in
  SSEDecoder.decode EmptyString d
  = (d, Some (ServerSentEvent.mk (Some EmptyString) (Some EmptyString) (Some "7") None)).
Proof.
  apply (proj1 (proj2 (proj2 decoder_blank_line)) ["data: x"; "id: 7"] [": keep-alive"]).
  repeat constructor.
Defined.

(** C7 (as stated) fails: after the record [id: 1] has been dispatched, a
    second blank line with no field line before it dispatches an event
    again. *)
Lemma decoder_blank_line_counterexample :
  let d := fst (SSEDecoder.decode_lines ["id: 1"; EmptyString] SSEDecoder.fresh) in
  snd (SSEDecoder.decode EmptyString d)
  = Some (ServerSentEvent.mk (Some EmptyString) (Some EmptyString) (Some "1") None).
Proof. reflexivity. Qed.

(** ** Authorization *)

Lemma to_lower_char_space (c : ascii) :
  to_lower_char c = " "%char → c = " "%char.
Proof.
  unfold to_lower_char. destruct (is_upper c) eqn:Hu; [|done].
  intros H. exfalso. unfold is_upper in Hu.
  apply andb_true_iff in Hu as [H1 H2].
  apply N.leb_le in H1, H2.
  apply (f_equal N_of_ascii) in H. rewrite N_ascii_embedding in H by lia.
  cbn in H. lia.
Qed.

Lemma toLowerCase_no_space (s t : string) :
  toLowerCase s = t → includes_char " "%char t = false → includes_char " "%char s = false.
Proof.
  revert t. induction s as [|c s IH]; intros t Ht Hn; [reflexivity|].
  cbn in Ht. subst t. cbn in Hn. apply orb_false_iff in Hn as [Hc Hs].
  cbn. apply orb_false_iff. split; [|by eapply IH].
  apply Ascii.eqb_neq. intros ->. by rewrite Ascii.eqb_refl in Hc.
Qed.

Lemma split_space_no_space (s : string) :
  includes_char " "%char s = false → split_space s = [s].
Proof.
  induction s as [|c s IH]; [reflexivity|]. cbn.
  intros H. apply orb_false_iff in H as [Hc Hs]. rewrite Hc, IH; done.
Qed.

Lemma split_space_app (a b : string) :
  includes_char " "%char a = false →
  split_space (a +:+ " " +:+ b) = a :: split_space b.
Proof.
  induction a as [|c a IH]; [reflexivity|]. cbn.
  intros H. apply orb_false_iff in H as [Hc Hs]. rewrite Hc.
  change (String.append a (String " " b)) with (a +:+ " " +:+ b).
  by rewrite IH.
Qed.

(** What the first POST handler throws: [HTTPException] 403 without an
    Authorization header, and 401 with the header [WWW-Authenticate] for a
    bearer token (the scheme [bearer] in any case, one space, a non-empty
    token without a space) that is not the access key. *)
Lemma authorizePost_rejects (key : string) :
  key ≠ EmptyString →
  authorizePost (Some key) None
    = Throw (mkHTTPException 403 "Not authenticated" None [])
  ∧ (∀ sch token : string,
       toLowerCase sch = "bearer" →
       token ≠ EmptyString →
       includes_char " "%char token = false →
       token ≠ key →
       authorizePost (Some key) (Some (sch +:+ " " +:+ token))
         = Throw (mkHTTPException 401 "Invalid access key" None
                    [("WWW-Authenticate", "Bearer")])).
Proof.
  intros Hkey.
  assert (Hk : truthy (Some key) = true).
  { cbn. apply negb_true_iff. by apply String.eqb_neq. }
  split.
  - unfold authorizePost. rewrite Hk. reflexivity.
  - intros sch token Hsch Htok Hsp Hne.
    unfold authorizePost. rewrite Hk. cbn [negb].
    assert (Hs : includes_char " "%char sch = false)
      by (eapply toLowerCase_no_space; [exact Hsch|reflexivity]).
    assert (Hsn : sch ≠ EmptyString) by (intros ->; discriminate).
    unfold extractAuthorization.
    assert (Ha : String.eqb (sch +:+ " " +:+ token) EmptyString = false).
    { apply String.eqb_neq. destruct sch; [done|discriminate]. }
    rewrite Ha, split_space_app, split_space_no_space by done.
    cbn [lookup list_lookup truthy].
    rewrite Ha. cbn [negb orb].
    assert (H1 : String.eqb sch EmptyString = false) by (by apply String.eqb_neq).
    assert (H2 : String.eqb token EmptyString = false) by (by apply String.eqb_neq).
    rewrite H1, H2. cbn [negb orb default from_option]. unfold id. rewrite Hsch.
    change (String.eqb "bearer" "bearer") with true. cbn [negb scheme credentials].
    rewrite (bool_decide_eq_false_2 (Some token = Some key)) by congruence.
    cbn [negb]. by rewrite orb_true_r.
Qed.

(** C8: for a bot with an access key, the first POST handler throws the
    exception that the claim describes ([HTTPException] 403 "Not
    authenticated" without an Authorization header, 401 "Invalid access
    key" with the header [WWW-Authenticate: Bearer] for a bearer token that
    is not the key), but the request is not rejected with that status: the
    handler is an async function, its promise is rejected and the request
    stays without a response; and the error handler of [makeApp], were it
    called, would send the status and the message without the header. *)
Theorem rejected_post_unanswered (key : string) :
  key ≠ EmptyString →
  servePost (Some key) None
    = Unanswered (mkHTTPException 403 "Not authenticated" None [])
  ∧ (∀ sch token : string,
       toLowerCase sch = "bearer" →
       token ≠ EmptyString →
       includes_char " "%char token = false →
       token ≠ key →
       servePost (Some key) (Some (sch +:+ " " +:+ token))
         = Unanswered (mkHTTPException 401 "Invalid access key" None
                         [("WWW-Authenticate", "Bearer")]))
  ∧ errorMiddleware (mkHTTPException 401 "Invalid access key" None
                       [("WWW-Authenticate", "Bearer")])
    = mkHTTPResponse 401 "Invalid access key" [].
Proof.
  intros Hkey. destruct (authorizePost_rejects key Hkey) as [H1 H2].
  split; [|split].
  - unfold servePost. by rewrite H1.
  - intros sch token Hsch Htok Hsp Hne. unfold servePost.
    by rewrite (H2 sch token Hsch Htok Hsp Hne).
  - reflexivity.
Qed.

(** A bot with a key of 32 characters. *)
Lemma rejected_post_unanswered_witness :
  servePost (Some "0123456789abcdef0123456789abcdef") None
    = Unanswered (mkHTTPException 403 "Not authenticated" None [])
  ∧ servePost (Some "0123456789abcdef0123456789abcdef")
      (Some ("Bearer" +:+ " " +:+ "ffffffffffffffffffffffffffffffff"))
    = Unanswered (mkHTTPException 401 "Invalid access key" None
                    [("WWW-Authenticate", "Bearer")]).
Proof.
  destruct (rejected_post_unanswered "0123456789abcdef0123456789abcdef") as (H1 & H2 & _);
    [discriminate|].
  split; [exact H1|]. apply H2; [reflexivity|discriminate|reflexivity|discriminate].
Defined.

(** ** The bot server *)

(** The events of [handleQuery] when its generator returns: those of the
    bot, the error of the bot, the error of the uploads, and [done]. *)
Lemma handleQuery_events (messageId : string) (handler : Handler) (bot : PoeBot) :
  completes handler = true →
  ∃ evs drained,
    snd (handleQuery messageId handler bot)
    = evs
      ++ match ending handler with
         | Throws m => [errorEvent (Some m) (Some false) None]
         | _ => []
         end
      ++ drained ++ [doneEvent].
Proof.
  unfold handleQuery, completes.
  destruct (run_steps (steps handler) bot) as [bot1 evs].
  destruct (processPendingAttachmentRequests messageId bot1) as [bot2 r].
  destruct (ending handler); [by eexists _, _..|discriminate].
Qed.




(** *** Pending uploads *)

(** The drain removes the entry of the message exactly when no task of the
    entry was rejected. *)
Lemma processPendingAttachmentRequests_entry (messageId : string) (bot : PoeBot)
    (tasks : list Task) :
  pendingFileAttachmentTasks bot !! messageId = Some tasks →
  pendingFileAttachmentTasks (fst (processPendingAttachmentRequests messageId bot)) !! messageId
  = match promise_all tasks with
    | Ok _ => None
    | Throw _ => Some tasks
    end.
Proof.
  intros H. unfold processPendingAttachmentRequests. rewrite H.
  destruct (promise_all tasks); cbn; [apply lookup_delete_eq|exact H].
Qed.

(** C10: a bot that starts one upload for the message of the request, the
    upload failing, leaves the entry of the message in the table after the
    stream of [handleQuery] has ended with [done]. *)
Theorem pending_entry_survives_failed_upload :
  let task := mkTask 1 (Rejected "upload failed") in
  let handler :=
    mkHandler [PostMessageAttachment "m1" task; TaskSettled 1] (Throws "upload failed") in
  let result := handleQuery "m1" handler new_bot in
  pendingFileAttachmentTasks (fst result) !! "m1" = Some [task]
  ∧ last (snd result) = Some doneEvent.
Proof. by vm_compute. Qed.

(** When every upload succeeds the entry is gone at the end of the stream. *)
Lemma pending_entry_removed_on_success :
  let handler :=
    mkHandler [PostMessageAttachment "m1" (mkTask 1 Fulfilled);
               PostMessageAttachment "m1" (mkTask 2 Fulfilled);
               TaskSettled 2; Yield (partial_response "done uploading"); TaskSettled 1]
      Returns in
  pendingFileAttachmentTasks (fst (handleQuery "m1" handler new_bot)) !! "m1" = None.
Proof. by vm_compute. Qed.

(** ** The bot client *)

Lemma gen_bind_ret_l {A B : Type} (a : A) (f : A → Gen B) :
  gen_bind (gen_ret a) f = f a.
Proof. unfold gen_bind, gen_ret. by destruct (f a). Qed.

Lemma js_get_is_object (key : string) (v w : JsonValue) :
  js_get key v = Some w → is_object v = true.
Proof. destruct v; cbn; done. Qed.

Lemma loadJsonDict_ok (parse : string → option JsonValue)
    (report : string → Result Thrown unit) (data : option string)
    (context : string) (v : JsonValue) :
  parse_data parse data = Some v → is_object v = true →
  loadJsonDict parse report data context = gen_ret v.
Proof. intros Hp Ho. unfold loadJsonDict. by rewrite Hp, Ho. Qed.

Lemma getSingleJsonField_ok (parse : string → option JsonValue)
    (report : string → Result Thrown unit) (data : option string)
    (context : string) (v : JsonValue) (text : string) :
  parse_data parse data = Some v → js_get "text" v = Some (JString text) →
  getSingleJsonField parse report data context "text" = gen_ret text.
Proof.
  intros Hp Ht. unfold getSingleJsonField.
  rewrite (loadJsonDict_ok parse report data context v Hp (js_get_is_object _ _ _ Ht)).
  by rewrite gen_bind_ret_l, Ht.
Qed.

Lemma handle_text (parse : string → option JsonValue)
    (report : string → Result Thrown unit) (tools : bool) (data : option string)
    (st : QueryState) (v : JsonValue) (text : string) :
  parse_data parse data = Some v → js_get "text" v = Some (JString text) →
  handle_event parse report tools (sse_event "text" data) st
  = ([Yielded (text_response text false false)],
     Ok (Continue (mkQueryState (chunks st ++ [text]) (S (eventCount st)) (errorReported st)))).
Proof.
  intros Hp Ht. unfold handle_event. cbn [ServerSentEvent.event ServerSentEvent.data sse_event].
  rewrite (bool_decide_eq_false_2 (Some "text" = Some "done")) by discriminate.
  rewrite (bool_decide_eq_true_2 (Some "text" = Some "text")) by reflexivity.
  by rewrite (getSingleJsonField_ok parse report data "text" v text Hp Ht).
Qed.

Lemma handle_replace_response (parse : string → option JsonValue)
    (report : string → Result Thrown unit) (tools : bool)
    (sse : SSE) (st : QueryState) (v : JsonValue) (text : string) :
  ServerSentEvent.event sse = Some "replace_response" →
  parse_data parse (ServerSentEvent.data sse) = Some v →
  js_get "text" v = Some (JString text) →
  handle_event parse report tools sse st
  = ([Yielded (text_response text false true)],
     Ok (Continue (mkQueryState [text] (S (eventCount st)) (errorReported st)))).
Proof.
  intros He Hp Ht. unfold handle_event. rewrite He.
  rewrite (bool_decide_eq_false_2 (Some "replace_response" = Some "done")) by discriminate.
  rewrite (bool_decide_eq_false_2 (Some "replace_response" = Some "text")) by discriminate.
  rewrite (bool_decide_eq_true_2 (Some "replace_response" = Some "replace_response"))
    by reflexivity.
  by rewrite (getSingleJsonField_ok parse report _ "replace_response" v text Hp Ht).
Qed.

Lemma handle_done (parse : string → option JsonValue)
    (report : string → Result Thrown unit) (tools : bool) (data : option string)
    (st : QueryState) :
  chunks st ≠ [] →
  handle_event parse report tools (sse_event "done" data) st = ([], Ok Return).
Proof.
  intros Hc. unfold handle_event. cbn [ServerSentEvent.event ServerSentEvent.data sse_event].
  rewrite (bool_decide_eq_true_2 (Some "done" = Some "done")) by reflexivity.
  cbn [chunks]. by rewrite (bool_decide_eq_false_2 (chunks st = [])) by done.
Qed.

Lemma handle_later_meta (parse : string → option JsonValue)
    (report : string → Result Thrown unit) (tools : bool) (sse : SSE)
    (st : QueryState) :
  ServerSentEvent.event sse = Some "meta" → eventCount st ≠ 0%nat →
  handle_event parse report tools sse st
  = ([], Ok (Continue (mkQueryState (chunks st) (S (eventCount st)) (errorReported st)))).
Proof.
  intros He Hn. unfold handle_event. rewrite He.
  repeat (rewrite bool_decide_eq_false_2 by discriminate).
  rewrite (bool_decide_eq_true_2 (Some "meta" = Some "meta")) by reflexivity.
  destruct (eventCount st) as [|n]; [done|]. reflexivity.
Qed.

Lemma handle_first_meta (parse : string → option JsonValue)
    (report : string → Result Thrown unit) (tools : bool)
    (data : option string) (members : list (string * JsonValue))
    (linkify suggestedReplies : bool) (contentType : string) :
  parse_data parse data = Some (JObject members) →
  obj_get "linkify" members = Some (JBool linkify) →
  obj_get "suggested_replies" members = Some (JBool suggestedReplies) →
  obj_get "content_type" members = Some (JString contentType) →
  handle_event parse report tools (sse_event "meta" data) (mkQueryState [] 0 false)
  = ([Yielded (meta_response linkify suggestedReplies contentType)],
     Ok (Continue (mkQueryState [] 1 false))).
Proof.
  intros Hp Hl Hs Hc. unfold handle_event.
  cbn [ServerSentEvent.event ServerSentEvent.data sse_event].
  repeat (rewrite bool_decide_eq_false_2 by discriminate).
  rewrite (bool_decide_eq_true_2 (Some "meta" = Some "meta")) by reflexivity.
  cbn [eventCount Nat.eqb negb].
  rewrite (loadJsonDict_ok parse report data "meta" (JObject members) Hp eq_refl).
  rewrite gen_bind_ret_l. cbn [js_get]. rewrite Hl, Hs, Hc. reflexivity.
Qed.

(** C9: whatever the client has accumulated, after a [replace_response]
    event whose data carries the text X its chunks are exactly [X]; and for
    the stream [text "A", replace_response "B", done], [getFinalResponse]
    returns "B". *)
Theorem replace_semantics (parse : string → option JsonValue)
    (report : string → Result Thrown unit) :
  (∀ (tools : bool) (sse : SSE) (st : QueryState) (v : JsonValue) (X : string),
     ServerSentEvent.event sse = Some "replace_response" →
     parse_data parse (ServerSentEvent.data sse) = Some v →
     js_get "text" v = Some (JString X) →
     ∃ st', handle_event parse report tools sse st
              = ([Yielded (text_response X false true)], Ok (Continue st'))
            ∧ chunks st' = [X])
  ∧ (∀ (botName : string) (numTries : nat) (dA dB : string) (dD : option string)
       (vA vB : JsonValue),
       parse dA = Some vA → js_get "text" vA = Some (JString "A") →
       parse dB = Some vB → js_get "text" vB = Some (JString "B") →
       getFinalResponse botName (S numTries)
         (λ _, performQueryRequest parse report false
                 (mkBotReply [sse_event "text" (Some dA);
                              sse_event "replace_response" (Some dB);
                              sse_event "done" dD] None))
       = Ok "B").
Proof.
  split.
  - intros tools sse st v X He Hp Ht. eexists. split.
    + by apply (handle_replace_response parse report tools sse st v X).
    + reflexivity.
  - intros botName numTries dA dB dD vA vB HA HtA HB HtB.
    unfold getFinalResponse, streamRequestBase, performQueryRequest.
    cbn [retry_loop reply_events reply_failure consume].
    rewrite (handle_text parse report false (Some dA) _ vA "A" HA HtA).
    cbn [gen_bind chunks eventCount errorReported app].
    rewrite (handle_replace_response parse report false
               (sse_event "replace_response" (Some dB)) _ vB "B" eq_refl HB HtB).
    cbn [gen_bind app].
    rewrite handle_done by discriminate.
    reflexivity.
Qed.

(** With the reference JSON reader and the texts of scenario S4. *)
Lemma replace_semantics_witness :
  (∃ st', handle_event JSON_parse accepted false
            (sse_event "replace_response" (Some (text_json "X")))
            (mkQueryState ["old"; "chunks"] 7 false)
          = ([Yielded (text_response "X" false true)], Ok (Continue st'))
          ∧ chunks st' = ["X"])
  ∧ getFinalResponse "echo" 2
      (λ _, performQueryRequest JSON_parse accepted false
              (mkBotReply [sse_event "text" (Some (text_json "A"));
                           sse_event "replace_response" (Some (text_json "B"));
                           sse_event "done" (Some "{}")] None))
    = Ok "B".
Proof.
  destruct (replace_semantics JSON_parse accepted) as [H1 H2]. split.
  - apply (H1 false _ _ (JObject [("text", JString "X")]) "X"); reflexivity.
  - apply (H2 "echo" 1%nat (text_json "A") (text_json "B") (Some "{}")
             (JObject [("text", JString "A")]) (JObject [("text", JString "B")]));
      reflexivity.
Defined.

(** Every event that does not end the call is counted. *)
Lemma handle_event_counts (parse : string → option JsonValue)
    (report : string → Result Thrown unit) (tools : bool) (sse : SSE)
    (st st' : QueryState) (out : list Output) :
  handle_event parse report tools sse st = (out, Ok (Continue st')) →
  eventCount st' = S (eventCount st).
Proof.
  unfold handle_event, getSingleJsonField, loadJsonDict, reportError,
    gen_bind, gen_ret, gen_throw, gen_yield.
  cbn [chunks eventCount errorReported].
  repeat (case_match; try discriminate); intros ?; simplify_eq; reflexivity.
Qed.

(** After the first event, the count of events plays no part. *)
Lemma handle_event_later (parse : string → option JsonValue)
    (report : string → Result Thrown unit) (tools : bool) (sse : SSE)
    (st st' : QueryState) :
  chunks st = chunks st' → errorReported st = errorReported st' →
  eventCount st ≠ 0%nat → eventCount st' ≠ 0%nat →
  match handle_event parse report tools sse st, handle_event parse report tools sse st' with
  | (out, r), (out', r') =>
      out = out'
      ∧ match r, r' with
        | Ok (Continue st1), Ok (Continue st1') =>
            chunks st1 = chunks st1' ∧ errorReported st1 = errorReported st1'
        | Ok Return, Ok Return => True
        | Throw e, Throw e' => e = e'
        | _, _ => False
        end
  end.
Proof.
  destruct st as [c [|n] e], st' as [c' [|n'] e']; cbn; intros -> -> Hn Hn'; try done.
  unfold handle_event, getSingleJsonField, loadJsonDict, reportError,
    gen_bind, gen_ret, gen_throw, gen_yield.
  cbn [chunks eventCount errorReported Nat.eqb negb].
  repeat (case_match; simplify_eq; try done).
Qed.

Lemma consume_later (parse : string → option JsonValue)
    (report : string → Result Thrown unit) (tools : bool) (events : list SSE)
    (failure : option Thrown) :
  ∀ st st',
    chunks st = chunks st' → errorReported st = errorReported st' →
    eventCount st ≠ 0%nat → eventCount st' ≠ 0%nat →
    consume parse report tools events failure st
    = consume parse report tools events failure st'.
Proof.
  induction events as [|sse events IH]; intros st st' Hc He Hn Hn'; [reflexivity|].
  cbn [consume].
  pose proof (handle_event_later parse report tools sse st st' Hc He Hn Hn') as H.
  destruct (handle_event parse report tools sse st) as [out [[st1|]|e]] eqn:H1;
    destruct (handle_event parse report tools sse st') as [out' [[st1'|]|e']] eqn:H1';
    destruct H as [<- H]; try done.
  - destruct H as [Hc1 He1]. unfold gen_bind.
    rewrite (IH st1 st1' Hc1 He1); [reflexivity| |].
    + by rewrite (handle_event_counts _ _ _ _ _ _ _ H1).
    + by rewrite (handle_event_counts _ _ _ _ _ _ _ H1').
  - by subst.
Qed.

(** A [meta] event after the first event of the stream can be left out. *)
Lemma consume_later_meta (parse : string → option JsonValue)
    (report : string → Result Thrown unit) (tools : bool) (meta : SSE)
    (after : list SSE) (failure : option Thrown) :
  ServerSentEvent.event meta = Some "meta" →
  ∀ before st,
    before ≠ [] ∨ eventCount st ≠ 0%nat →
    consume parse report tools (before ++ meta :: after) failure st
    = consume parse report tools (before ++ after) failure st.
Proof.
  intros Hmeta. induction before as [|sse before IH]; intros st Hst.
  - destruct Hst as [?|Hn]; [done|]. cbn [app consume].
    rewrite handle_later_meta by done. unfold gen_bind.
    rewrite (consume_later parse report tools after failure st
               (mkQueryState (chunks st) (S (eventCount st)) (errorReported st)))
      by done.
    by destruct (consume parse report tools after failure
                   (mkQueryState (chunks st) (S (eventCount st)) (errorReported st))).
  - cbn [app consume].
    destruct (handle_event parse report tools sse st) as [out [[st1|]|e]] eqn:H1;
      [|reflexivity..].
    unfold gen_bind. rewrite IH; [reflexivity|]. right.
    by rewrite (handle_event_counts _ _ _ _ _ _ _ H1).
Qed.

(** C5: a [meta] event that comes after at least one event of the stream
    can be left out of the stream without any change to what the call
    yields, reports and returns: it is silently ignored, whatever its data
    and whatever the events before and after it; a valid [meta] event that
    is the first event of the stream is yielded as a [MetaResponse] before
    anything else; and for the stream [meta1, text, meta2] with a valid
    [meta1], the call yields the [MetaResponse] of [meta1] and the text,
    and nothing for [meta2], whatever its data, and then reports that the
    stream has ended without [done]. *)
Theorem meta_first_rule (parse : string → option JsonValue)
    (report : string → Result Thrown unit) :
  (∀ (tools : bool) (before after : list SSE) (meta : SSE) (failure : option Thrown),
     before ≠ [] → ServerSentEvent.event meta = Some "meta" →
     performQueryRequest parse report tools (mkBotReply (before ++ meta :: after) failure)
     = performQueryRequest parse report tools (mkBotReply (before ++ after) failure))
  ∧ (∀ (tools : bool) (meta1 : option string) (rest : list SSE) (failure : option Thrown)
       (members : list (string * JsonValue)) (linkify suggestedReplies : bool)
       (contentType : string),
       parse_data parse meta1 = Some (JObject members) →
       obj_get "linkify" members = Some (JBool linkify) →
       obj_get "suggested_replies" members = Some (JBool suggestedReplies) →
       obj_get "content_type" members = Some (JString contentType) →
       ∃ out r,
         performQueryRequest parse report tools
           (mkBotReply (sse_event "meta" meta1 :: rest) failure)
         = (Yielded (meta_response linkify suggestedReplies contentType) :: out, r))
  ∧ (∀ (tools : bool) (meta1 text meta2 : option string)
       (members : list (string * JsonValue)) (linkify suggestedReplies : bool)
       (contentType : string) (v : JsonValue) (X : string),
       parse_data parse meta1 = Some (JObject members) →
       obj_get "linkify" members = Some (JBool linkify) →
       obj_get "suggested_replies" members = Some (JBool suggestedReplies) →
       obj_get "content_type" members = Some (JString contentType) →
       parse_data parse text = Some v → js_get "text" v = Some (JString X) →
       performQueryRequest parse report tools
         (mkBotReply [sse_event "meta" meta1; sse_event "text" text; sse_event "meta" meta2]
            None)
       = ([Yielded (meta_response linkify suggestedReplies contentType);
           Yielded (text_response X false false);
           Reported "Bot exited without sending 'done' event"],
          report "Bot exited without sending 'done' event")).
Proof.
  split; [|split].
  - intros tools before after meta failure Hne Hmeta. unfold performQueryRequest.
    cbn [reply_events reply_failure]. apply consume_later_meta; [exact Hmeta|by left].
  - intros tools meta1 rest failure members l s c Hp Hl Hs Hc.
    unfold performQueryRequest. cbn [reply_events reply_failure consume].
    rewrite (handle_first_meta parse report tools meta1 members l s c Hp Hl Hs Hc).
    unfold gen_bind.
    destruct (consume parse report tools rest failure (mkQueryState [] 1 false)) as [out r].
    by exists out, r.
  - intros tools meta1 text meta2 members l s c v X Hp Hl Hs Hc Hv Ht.
    unfold performQueryRequest. cbn [reply_events reply_failure consume].
    rewrite (handle_first_meta parse report tools meta1 members l s c Hp Hl Hs Hc).
    cbn [gen_bind].
    rewrite (handle_text parse report tools text _ v X Hv Ht).
    cbn [gen_bind chunks eventCount errorReported app].
    rewrite handle_later_meta by done.
    reflexivity.
Qed.

(** With the reference JSON reader: a text, then a valid meta event, which
    is ignored all the same. *)
Lemma meta_first_rule_witness :
  performQueryRequest JSON_parse accepted false
    (mkBotReply
       ([sse_event "text" (Some (text_json "abc"))]
        ++ sse_event "meta"
             (Some ("{" +:+ quoted "linkify" +:+ ":true," +:+ quoted "suggested_replies"
                    +:+ ":false," +:+ quoted "content_type" +:+ ":" +:+ quoted "text/plain"
                    +:+ "}"))
           :: [sse_event "done" (Some "{}")])
       None)
  = performQueryRequest JSON_parse accepted false
      (mkBotReply ([sse_event "text" (Some (text_json "abc"))]
                   ++ [sse_event "done" (Some "{}")]) None).
Proof.
  apply (proj1 (meta_first_rule JSON_parse accepted) false
           [sse_event "text" (Some (text_json "abc"))] [sse_event "done" (Some "{}")]).
  - discriminate.
  - reflexivity.
Defined.

(** *** The retry loop *)

Lemma transient_inv (e : Thrown) :
  transient e = true → isError e = true ∧ isBotErrorNoRetry e = false.
Proof.
  unfold transient. intros H. apply andb_true_iff in H as [H1 H2].
  by apply negb_true_iff in H2.
Qed.

Lemma retry_loop_calls_le (botName : string) (attempt : nat → Gen unit)
    (remaining i : nat) (gotResponse : bool) :
  (calls (retry_loop botName attempt remaining i gotResponse) ≤ remaining)%nat.
Proof.
  revert i gotResponse. induction remaining as [|r IH]; intros i g; [reflexivity|].
  cbn [retry_loop]. destruct (attempt i) as [out [[]|e]]; [cbn; lia|].
  destruct (isBotErrorNoRetry e); [cbn; lia|].
  destruct (isError e).
  - destruct (_ || _); [cbn; lia|]. cbn [calls].
    specialize (IH (S i) (g || has_yield out)). lia.
  - cbn [calls]. specialize (IH (S i) (g || has_yield out)). lia.
Qed.

(** A stream that fails rethrows a [BotErrorNoRetry] of a call, or throws
    the error "Error communicating with bot <name>". *)
Lemma retry_loop_failure (botName : string) (attempt : nat → Gen unit)
    (remaining i : nat) (gotResponse : bool) (e : Thrown) :
  result (retry_loop botName attempt remaining i gotResponse) = Throw e →
  (isBotErrorNoRetry e = true ∧ ∃ j out, attempt j = (out, Throw e))
  ∨ e = BotError ("Error communicating with bot " +:+ botName).
Proof.
  revert i gotResponse. induction remaining as [|r IH]; intros i g; [discriminate|].
  cbn [retry_loop]. destruct (attempt i) as [out [[]|e']] eqn:Ha; [discriminate|].
  destruct (isBotErrorNoRetry e') eqn:Hn.
  - cbn. intros [= ->]. left. split; [exact Hn|by exists i, out].
  - destruct (isError e').
    + destruct (_ || _).
      * cbn. intros [= <-]. by right.
      * cbn [result]. apply IH.
    + cbn [result]. apply IH.
Qed.

(** Calls that all fail with a transient error and yield nothing use up
    every try. *)
Lemma retry_loop_transient_before_yield (botName : string) (attempt : nat → Gen unit)
    (remaining i : nat) :
  (∀ j, ∃ out e, attempt j = (out, Throw e) ∧ transient e = true ∧ has_yield out = false) →
  calls (retry_loop botName attempt (S remaining) i false) = S remaining
  ∧ sleeps (retry_loop botName attempt (S remaining) i false) = remaining
  ∧ result (retry_loop botName attempt (S remaining) i false)
    = Throw (BotError ("Error communicating with bot " +:+ botName)).
Proof.
  intros H. revert i. induction remaining as [|r IH]; intros i.
  - destruct (H i) as (out & e & Ha & Ht & Hy). apply transient_inv in Ht as [He Hn].
    cbn [retry_loop]. rewrite Ha, Hn, He, Hy. by cbn.
  - destruct (H i) as (out & e & Ha & Ht & Hy). apply transient_inv in Ht as [He Hn].
    destruct (IH (S i)) as (H1 & H2 & H3).
    remember (S r) as r' eqn:Hr. cbn [retry_loop]. rewrite Ha, Hn, He, Hy.
    assert (Hz : (r' =? 0)%nat = false) by (by subst r').
    rewrite Hz. cbn [orb andb calls sleeps result].
    rewrite H1, H2, H3. by subst r'.
Qed.

(** Calls that all fail with an aborted connection use up every try,
    whether or not they have yielded. *)
Lemma retry_loop_connection_aborted (botName : string) (attempt : nat → Gen unit)
    (remaining i : nat) (gotResponse : bool) :
  (∀ j, ∃ out e, attempt j = (out, Throw e) ∧ transient e = true
                 ∧ connection_aborted e = true) →
  calls (retry_loop botName attempt (S remaining) i gotResponse) = S remaining
  ∧ result (retry_loop botName attempt (S remaining) i gotResponse)
    = Throw (BotError ("Error communicating with bot " +:+ botName)).
Proof.
  intros H. revert i gotResponse. induction remaining as [|r IH]; intros i g.
  - destruct (H i) as (out & e & Ha & Ht & Hc). apply transient_inv in Ht as [He Hn].
    cbn [retry_loop]. rewrite Ha, Hn, He. unfold connection_aborted in Hc. rewrite Hc.
    cbn. by rewrite orb_true_r.
  - destruct (H i) as (out & e & Ha & Ht & Hc). apply transient_inv in Ht as [He Hn].
    destruct (IH (S i) (g || has_yield out)) as (H1 & H2).
    remember (S r) as r' eqn:Hr. cbn [retry_loop]. rewrite Ha, Hn, He.
    unfold connection_aborted in Hc. rewrite Hc.
    assert (Hz : (r' =? 0)%nat = false) by (by subst r').
    rewrite Hz. cbn [negb]. rewrite andb_false_r. cbn [orb calls result].
    by rewrite H1, H2.
Qed.

Lemma existsb_seq_snoc (f : nat → bool) (i : nat) :
  existsb f (seq 0 (S i)) = existsb f (seq 0 i) || f i.
Proof. by rewrite seq_S, existsb_app; cbn; rewrite orb_false_r. Qed.

(** The calls of the loop, one by one: every call but the last one allows
    a retry, and the last one decides how the stream ends. *)
Lemma retry_loop_last_call (botName : string) (attempt : nat → Gen unit) (remaining : nat) :
  ∀ i : nat,
    let stream :=
      retry_loop botName attempt remaining i
        (existsb (λ j, has_yield (fst (attempt j))) (seq 0 i)) in
    (∀ j, (i ≤ j)%nat → (S j < i + calls stream)%nat →
          last_call (i + remaining) attempt j = false)
    ∧ ((0 < remaining)%nat →
       (0 < calls stream)%nat
       ∧ ((calls stream < remaining)%nat →
          last_call (i + remaining) attempt (i + calls stream - 1) = true)
       ∧ result stream
         = match snd (attempt (i + calls stream - 1)%nat) with
           | Ok _ => Ok tt
           | Throw e =>
               if isBotErrorNoRetry e then Throw e
               else if isError e
                    then Throw (BotError ("Error communicating with bot " +:+ botName))
                    else Ok tt
           end).
Proof.
  induction remaining as [|r IH]; intros i; cbv zeta.
  { cbn [retry_loop calls]. split; [intros j ? ?; lia|intros ?; lia]. }
  cbn [retry_loop]. destruct (attempt i) as [out res] eqn:Hi.
  assert (Hidx : (i + 1 - 1)%nat = i) by lia.
  assert (Hgot : existsb (λ j, has_yield (fst (attempt j))) (seq 0 i) || has_yield out
                 = gotResponse_at attempt i).
  { unfold gotResponse_at. by rewrite existsb_seq_snoc, Hi. }
  assert (Hlast : Nat.eqb (S i) (i + S r) = Nat.eqb r 0).
  { destruct (Nat.eqb_spec (S i) (i + S r)), (Nat.eqb_spec r 0); try reflexivity; lia. }
  destruct res as [[]|e].
  { cbn [calls result]. split; [intros j ? ?; lia|]. intros _.
    split; [lia|]. rewrite Hidx. unfold last_call. rewrite Hi. by cbn. }
  destruct (isBotErrorNoRetry e) eqn:Hn.
  { cbn [calls result]. split; [intros j ? ?; lia|]. intros _.
    split; [lia|]. rewrite Hidx. unfold last_call. rewrite Hi. cbn [snd]. by rewrite Hn. }
  rewrite Hgot.
  specialize (IH (S i)). cbv zeta in IH.
  rewrite existsb_seq_snoc, Hi in IH. cbn [fst] in IH. rewrite Hgot in IH.
  replace (S i + r)%nat with (i + S r)%nat in IH by lia.
  set (next := retry_loop botName attempt r (S i) (gotResponse_at attempt i)) in *.
  destruct IH as [IH1 IH2].
  assert (Hcont : last_call (i + S r) attempt i = false →
            (r = 0%nat → calls next = 0%nat ∧ result next = Ok tt) →
            (r = 0%nat → isError e = false) →
            (∀ j, (i ≤ j)%nat → (S j < i + S (calls next))%nat →
                  last_call (i + S r) attempt j = false)
            ∧ ((0 < S r)%nat →
               (0 < S (calls next))%nat
               ∧ ((S (calls next) < S r)%nat →
                  last_call (i + S r) attempt (i + S (calls next) - 1) = true)
               ∧ result next
                 = match snd (attempt (i + S (calls next) - 1)%nat) with
                   | Ok _ => Ok tt
                   | Throw e =>
                       if isBotErrorNoRetry e then Throw e
                       else if isError e
                            then Throw (BotError ("Error communicating with bot " +:+ botName))
                            else Ok tt
                   end)).
  { intros Hthis Hzero Hnoerr. split.
    - intros j Hij Hj. destruct (Nat.eq_dec j i) as [->|Hne]; [exact Hthis|].
      apply IH1; lia.
    - intros _. split; [lia|]. destruct (Nat.eq_dec r 0%nat) as [Hr|Hr].
      + destruct (Hzero Hr) as [Hc Hres]. rewrite Hc, Hres.
        split; [lia|]. rewrite Hidx, Hi.
        cbn [snd]. by rewrite Hn, (Hnoerr Hr).
      + destruct IH2 as (Hpos & Hstop & Hres); [lia|].
        replace (i + S (calls next) - 1)%nat with (S i + calls next - 1)%nat by lia.
        split; [|exact Hres]. intros Hlt. apply Hstop. lia. }
  destruct (isError e) eqn:He.
  - destruct (Nat.eqb_spec r 0%nat) as [Hr|Hr].
    + rewrite orb_true_r. cbn [calls result].
      split; [intros j ? ?; lia|]. intros _. split; [lia|]. rewrite Hidx.
      unfold last_call, transient. rewrite Hi. cbn [snd]. rewrite Hn, He, Hlast.
      split; [intros _; cbn; by rewrite orb_true_r|reflexivity].
    + rewrite orb_false_r.
      destruct (gotResponse_at attempt i
                && negb (isAxiosError e && bool_decide (code e = Some "ECONNABORTED")))
        eqn:Hstop.
      * cbn [calls result]. split; [intros j ? ?; lia|]. intros _. split; [lia|].
        rewrite Hidx. unfold last_call, transient, connection_aborted.
        rewrite Hi. cbn [snd]. rewrite Hn, He, Hstop. by cbn.
      * cbn [calls result]. apply Hcont; [|done|done].
        unfold last_call, transient, connection_aborted.
        rewrite Hi. cbn [snd]. by rewrite Hn, He, Hstop, Hlast.
  - cbn [calls result]. apply Hcont.
    + unfold last_call, transient. rewrite Hi. cbn [snd]. by rewrite Hn, He.
    + intros ->. by subst next.
    + done.
Qed.

(** C3 (as amended): the retry boundaries of [streamRequestBase] with
    [numTries] tries ([numTries = 3] in particular). A first call that
    throws [BotErrorNoRetry] is the only call, and its error is rethrown.
    Calls that throw a transient error before any message is yielded use
    all the tries. A first call that throws a transient error after a
    message was yielded is the only call, unless the error is an aborted
    connection; calls that fail with an aborted connection use all the
    tries. There are never more than [numTries] calls, and a stream that
    stops on a transient error throws "Error communicating with bot
    <name>". In general the stream makes at least one call; every call but
    the last one has thrown a value that allows a retry; a call that is not
    the last try ends the stream exactly when it returns, throws
    [BotErrorNoRetry], or throws a transient error other than an aborted
    connection after a message was yielded by this call or by any earlier
    call of the stream; and the stream ends as its last call does: it
    returns, rethrows [BotErrorNoRetry], throws the final [BotError] for a
    transient error, or returns after a thrown value that is not an
    [Error]. *)
Theorem retry_boundaries (botName : string) (attempt : nat → Gen unit) (n : nat) :
  let numTries := S n in
  let stream := streamRequestBase botName numTries attempt in
  let final := Throw (BotError ("Error communicating with bot " +:+ botName)) in
  (∀ out e, attempt 0%nat = (out, Throw e) → isBotErrorNoRetry e = true →
            calls stream = 1%nat ∧ result stream = Throw e)
  ∧ ((∀ j, ∃ out e, attempt j = (out, Throw e) ∧ transient e = true
                    ∧ has_yield out = false) →
     calls stream = numTries ∧ result stream = final)
  ∧ (∀ out e, attempt 0%nat = (out, Throw e) → transient e = true →
              has_yield out = true → connection_aborted e = false →
              calls stream = 1%nat ∧ result stream = final)
  ∧ ((∀ j, ∃ out e, attempt j = (out, Throw e) ∧ transient e = true
                    ∧ connection_aborted e = true) →
     calls stream = numTries ∧ result stream = final)
  ∧ (calls stream ≤ numTries)%nat
  ∧ (∀ e, result stream = Throw e →
          isBotErrorNoRetry e = true ∨ result stream = final)
  ∧ (0 < calls stream)%nat
  ∧ (∀ j, (S j < calls stream)%nat → last_call numTries attempt j = false)
  ∧ ((calls stream < numTries)%nat →
     last_call numTries attempt (calls stream - 1) = true)
  ∧ result stream
    = match snd (attempt (calls stream - 1)%nat) with
      | Ok _ => Ok tt
      | Throw e =>
          if isBotErrorNoRetry e then Throw e
          else if isError e then final else Ok tt
      end.
Proof.
  cbv zeta. unfold streamRequestBase.
  destruct (retry_loop_last_call botName attempt (S n) 0) as [Hbefore Hlast].
  cbn [seq existsb Nat.add] in Hbefore, Hlast.
  destruct Hlast as (Hpos & Hstop & Hres); [lia|].
  split; [|split; [|split; [|split; [|split; [|split; [|split; [|split; [|split]]]]]]]].
  - intros out e Ha Hn. cbn [retry_loop]. by rewrite Ha, Hn.
  - intros H. by destruct (retry_loop_transient_before_yield botName attempt n 0 H)
      as (H1 & _ & H3).
  - intros out e Ha Ht Hy Hc. cbn [retry_loop]. rewrite Ha.
    apply transient_inv in Ht as [He Hn].
    unfold connection_aborted in Hc. by rewrite Hn, He, Hy, Hc.
  - intros H. by apply retry_loop_connection_aborted.
  - apply retry_loop_calls_le.
  - intros e He. destruct (retry_loop_failure _ _ _ _ _ _ He) as [[Hn _]| ->];
      [by left|right; exact He].
  - exact Hpos.
  - intros j Hj. apply Hbefore; lia.
  - exact Hstop.
  - exact Hres.
Qed.

(** C3 (as stated) fails: the claim looks at the messages yielded on the
    call that throws, the code at those of all the calls so far. When the
    first call yields a message and fails with an aborted connection, and
    the second call fails with another transient error before any message,
    the claim allows a third call; the stream makes two calls and throws
    the final error. *)
Lemma retry_boundaries_counterexample :
  let stream := streamRequestBase "echo" 3 mixed_run in
  has_yield (fst (mixed_run 1)) = false
  ∧ claimed_last_call 3 mixed_run 1 = false
  ∧ last_call 3 mixed_run 1 = true
  ∧ calls stream = 2%nat
  ∧ result stream = Throw (BotError "Error communicating with bot echo").
Proof. by vm_compute. Qed.

(** Three tries against calls that always fail in the same way. *)
Lemma retry_boundaries_witness :
  let message := text_response "partial" false false in
  let aborted := mkThrown true "AxiosError" "timeout exceeded" true (Some "ECONNABORTED") in
  let final := Throw (BotError "Error communicating with bot echo") in
  let run (attempt : nat → Gen unit) := streamRequestBase "echo" 3 attempt in
  (calls (run (λ _, ([], Throw (BotErrorNoRetry "fatal")))) = 1%nat
   ∧ result (run (λ _, ([], Throw (BotErrorNoRetry "fatal")))) = Throw (BotErrorNoRetry "fatal"))
  ∧ (calls (run (λ _, ([], Throw (BotError "busy")))) = 3%nat
     ∧ result (run (λ _, ([], Throw (BotError "busy")))) = final)
  ∧ (calls (run (λ _, ([Yielded message], Throw (BotError "busy")))) = 1%nat
     ∧ result (run (λ _, ([Yielded message], Throw (BotError "busy")))) = final)
  ∧ (calls (run (λ _, ([Yielded message], Throw aborted))) = 3%nat
     ∧ result (run (λ _, ([Yielded message], Throw aborted))) = final).
Proof.
  cbv zeta. split; [|split; [|split]].
  - apply (proj1 (retry_boundaries "echo" (λ _, ([], Throw (BotErrorNoRetry "fatal"))) 2)
             [] (BotErrorNoRetry "fatal")); reflexivity.
  - apply (proj1 (proj2 (retry_boundaries "echo" (λ _, ([], Throw (BotError "busy"))) 2))).
    intros j. by exists [], (BotError "busy").
  - apply (proj1 (proj2 (proj2 (retry_boundaries "echo"
             (λ _, ([Yielded (text_response "partial" false false)],
                    Throw (BotError "busy"))) 2)))
             [Yielded (text_response "partial" false false)] (BotError "busy"));
      reflexivity.
  - apply (proj1 (proj2 (proj2 (proj2 (retry_boundaries "echo"
             (λ _, ([Yielded (text_response "partial" false false)],
                    Throw (mkThrown true "AxiosError" "timeout exceeded" true
                             (Some "ECONNABORTED")))) 2))))).
    intros j. by eexists _, _.
Defined.

(** *** Tool calls *)

Lemma join_empty_snoc (l : list string) (s : string) :
  join EmptyString (l ++ [s]) = join EmptyString l +:+ s.
Proof.
  unfold join. induction l as [|a l IH]; [reflexivity|].
  destruct l as [|b l].
  - cbn. reflexivity.
  - change (String.concat EmptyString ((a :: b :: l) ++ [s]))
      with (a +:+ EmptyString +:+ String.concat EmptyString ((b :: l) ++ [s])).
    rewrite IH. cbn [String.concat]. cbn [String.append].
    by rewrite append_assoc.
Qed.

Lemma aggregate_snoc (messages : list (option ChatCompletionChunk))
    (data : option ChatCompletionChunk) :
  aggregate (messages ++ [data]) = aggregate_delta (aggregate messages) data.
Proof. unfold aggregate. by rewrite fold_left_app. Qed.

Lemma with_index_snoc (i : Z) (deltas : list ToolCall.t) (d : ToolCall.t) :
  with_index i (deltas ++ [d])
  = with_index i deltas ++ (if decide (ToolCall.index d = i) then [d] else []).
Proof.
  unfold with_index. by rewrite filter_app.
Qed.

Lemma aggregate_delta_message (dict : gmap Z ToolCall.t) (d : ToolCall.t) :
  aggregate_delta dict (delta_message d)
  = match dict !! ToolCall.index d with
    | None => <[ToolCall.index d := d]> dict
    | Some inDict =>
        match ToolCall.function inDict, ToolCall.function d with
        | Some f, Some g =>
            <[ToolCall.index d :=
                ToolCall.mk (ToolCall.index inDict) (ToolCall.id inDict) (ToolCall.type inDict)
                  (Some (ToolCall.mkFunction (ToolCall.name f)
                           (js_plus (ToolCall.arguments f) (ToolCall.arguments g))))]> dict
        | _, _ => dict
        end
    end.
Proof. reflexivity. Qed.

(** The table of [getToolCalls] after a stream of deltas: at every index,
    the merged call object of that index. *)
Lemma aggregate_lookup (deltas : list ToolCall.t) (i : Z) :
  Forall (λ d, has_arguments d = true) deltas →
  aggregate (delta_message <$> deltas) !! i = merged i deltas.
Proof.
  induction deltas as [|d deltas IH] using rev_ind; intros Hwf.
  - reflexivity.
  - apply Forall_app in Hwf as [Hwf Hd]. specialize (IH Hwf).
    inversion Hd as [|? ? Hd' _]; subst. clear Hd.
    rewrite fmap_app. cbn [fmap list_fmap]. rewrite aggregate_snoc.
    unfold merged in *. rewrite with_index_snoc.
    destruct d as [di did dty [[dname dargs]|]]; [|discriminate].
    destruct dargs as [|s|]; try discriminate.
    rewrite aggregate_delta_message.
    cbn [ToolCall.index ToolCall.function ToolCall.arguments ToolCall.name ToolCall.id
         ToolCall.type].
    destruct (decide (di = i)) as [->|Hne].
    + rewrite IH. destruct (with_index i deltas) as [|first rest].
      * cbn [app]. rewrite lookup_insert_eq. reflexivity.
      * cbn [app ToolCall.function ToolCall.arguments ToolCall.name ToolCall.index
             ToolCall.id ToolCall.type js_plus].
        rewrite lookup_insert_eq. do 4 f_equal.
        change (first :: rest ++ [ToolCall.mk i did dty
                  (Some (ToolCall.mkFunction dname (ArgString s)))])
          with ((first :: rest) ++ [ToolCall.mk i did dty
                  (Some (ToolCall.mkFunction dname (ArgString s)))]).
        rewrite fmap_app.
        change (arguments_text <$> [ToolCall.mk i did dty
                  (Some (ToolCall.mkFunction dname (ArgString s)))]) with [s].
        by rewrite join_empty_snoc.
    + rewrite app_nil_r, <- IH.
      destruct (aggregate (delta_message <$> deltas) !! di) as [inDict|] eqn:Hin.
      * destruct (ToolCall.function inDict); [|reflexivity].
        by rewrite lookup_insert_ne.
      * by rewrite lookup_insert_ne.
Qed.

#[local] Instance index_le_trans : Transitive index_le.
Proof. intros a b c. unfold index_le. lia. Qed.

#[local] Instance index_le_total : Total index_le.
Proof. intros a b. unfold index_le. lia. Qed.

Lemma merged_index (i : Z) (deltas : list ToolCall.t) (tc : ToolCall.t) :
  merged i deltas = Some tc → ToolCall.index tc = i.
Proof.
  unfold merged. destruct (with_index i deltas) as [|first rest] eqn:Hw; [discriminate|].
  intros [= <-]. cbn.
  assert (Hin : first ∈ with_index i deltas) by (rewrite Hw; left).
  unfold with_index in Hin. by apply list_elem_of_filter in Hin as [Hi _].
Qed.

Lemma merged_is_Some (d : ToolCall.t) (deltas : list ToolCall.t) :
  d ∈ deltas → is_Some (merged (ToolCall.index d) deltas).
Proof.
  intros Hin. unfold merged.
  assert (Hd : d ∈ with_index (ToolCall.index d) deltas).
  { unfold with_index. by apply list_elem_of_filter. }
  destruct (with_index (ToolCall.index d) deltas); [by apply elem_of_nil in Hd|by eexists].
Qed.

Lemma strictly_sorted (l : list ToolCall.t) :
  StronglySorted index_le l → NoDup (ToolCall.index <$> l) →
  StronglySorted Z.lt (ToolCall.index <$> l).
Proof.
  induction 1 as [|x l Hs IH Hx]; intros Hnd; [constructor|].
  rewrite fmap_cons in *. apply NoDup_cons in Hnd as [Hnot Hnd].
  constructor; [by apply IH|].
  apply Forall_forall. intros j Hj.
  apply list_elem_of_fmap in Hj as (y & -> & Hy).
  rewrite Forall_forall in Hx. specialize (Hx y Hy). unfold index_le in Hx.
  assert (ToolCall.index x ≠ ToolCall.index y).
  { intros Heq. apply Hnot. rewrite Heq. by apply list_elem_of_fmap_2. }
  lia.
Qed.

(** The sorted call objects are the values of the table, by ascending and
    distinct index. *)
Lemma sortedToolCallObjects_spec (dict : gmap Z ToolCall.t) :
  (∀ k tc, dict !! k = Some tc → ToolCall.index tc = k) →
  StronglySorted Z.lt (ToolCall.index <$> sortedToolCallObjects dict)
  ∧ (∀ tc, tc ∈ sortedToolCallObjects dict ↔ dict !! ToolCall.index tc = Some tc).
Proof.
  intros Hkey. unfold sortedToolCallObjects.
  pose proof (merge_sort_Permutation index_le (snd <$> map_to_list dict)) as Hperm.
  assert (Hidx : ToolCall.index <$> (snd <$> map_to_list dict) = fst <$> map_to_list dict).
  { rewrite <- list_fmap_compose. apply list_fmap_ext.
    intros n [k tc] Hl. cbn. apply Hkey.
    apply elem_of_map_to_list. by eapply list_elem_of_lookup_2. }
  split.
  - apply strictly_sorted; [apply StronglySorted_merge_sort; apply _|].
    rewrite Hperm, Hidx. apply NoDup_fst_map_to_list.
  - intros tc. rewrite Hperm. rewrite list_elem_of_fmap. split.
    + intros ([k tc'] & -> & Hin). cbn.
      apply elem_of_map_to_list in Hin. by rewrite (Hkey _ _ Hin).
    + intros Hl. exists (ToolCall.index tc, tc). split; [reflexivity|].
      by apply elem_of_map_to_list.
Qed.

(** The call objects of a stream of deltas with string arguments. *)
Lemma sorted_calls_spec (deltas : list ToolCall.t) :
  Forall (λ d, has_arguments d = true) deltas →
  let sorted := sortedToolCallObjects (aggregate (delta_message <$> deltas)) in
  StronglySorted Z.lt (ToolCall.index <$> sorted)
  ∧ (∀ tc, tc ∈ sorted ↔ merged (ToolCall.index tc) deltas = Some tc)
  ∧ (∀ d, d ∈ deltas → ToolCall.index d ∈ ToolCall.index <$> sorted)
  ∧ getToolCalls (delta_message <$> deltas) = definition_of <$> sorted.
Proof.
  intros Hwf sorted.
  assert (Hkey : ∀ k tc, aggregate (delta_message <$> deltas) !! k = Some tc →
                         ToolCall.index tc = k).
  { intros k tc. rewrite aggregate_lookup by done. apply merged_index. }
  destruct (sortedToolCallObjects_spec _ Hkey) as [Hsorted Hmem].
  assert (Hmem' : ∀ tc, tc ∈ sorted ↔ merged (ToolCall.index tc) deltas = Some tc).
  { intros tc. unfold sorted. rewrite Hmem. by rewrite aggregate_lookup. }
  split; [exact Hsorted|]. split; [exact Hmem'|]. split.
  - intros d Hd. destruct (merged_is_Some d deltas Hd) as [tc Htc].
    pose proof (merged_index _ _ _ Htc) as Hi.
    apply list_elem_of_fmap. exists tc. split; [done|].
    apply Hmem'. by rewrite Hi.
  - unfold getToolCalls. fold sorted.
    assert (Hfun : Forall (λ tc, is_Some (ToolCall.function tc)) sorted).
    { apply Forall_forall. intros tc Htc. apply Hmem' in Htc.
      unfold merged in Htc. destruct (with_index _ _); [discriminate|].
      injection Htc as <-. by eexists. }
    clearbody sorted. clear -Hfun.
    induction Hfun as [|tc l [f Hf] _ IH]; [reflexivity|].
    cbn [omap list_omap fmap list_fmap]. rewrite Hf. cbn.
    unfold definition_of at 1. rewrite Hf. cbn. f_equal; [by destruct f|exact IH].
Qed.

Lemma aggregate_delta_first (dict : gmap Z ToolCall.t) (data : option ChatCompletionChunk) :
  aggregate_delta dict data
  = match first_tool_call data with
    | Some d => aggregate_delta dict (delta_message d)
    | None => dict
    end.
Proof.
  destruct data as [[cs]|]; [|reflexivity].
  destruct cs as [|[[tcs] fr] cs]; [reflexivity|].
  unfold aggregate_delta, first_tool_call. cbn [choices finish_reason delta tool_calls].
  destruct (truthy fr); [reflexivity|].
  destruct tcs as [[|d tcs]|]; reflexivity.
Qed.

(** The table only depends on the tool calls that the loop reads. *)
Lemma aggregate_messages (messages : list (option ChatCompletionChunk)) :
  aggregate messages = aggregate (delta_message <$> omap first_tool_call messages).
Proof.
  unfold aggregate. generalize (∅ : gmap Z ToolCall.t).
  induction messages as [|m messages IH]; intros dict; [reflexivity|].
  cbn [fold_left omap list_omap]. rewrite aggregate_delta_first.
  destruct (first_tool_call m) as [d|]; [|apply IH].
  rewrite fmap_cons. cbn [fold_left]. apply IH.
Qed.

(** C4: in any stream of the first round, let the deltas be the tool calls
    that [getToolCalls] reads in its messages, each with a string of
    arguments. The call objects that [getToolCalls] builds are in strictly
    ascending order of index; there is one for every index of the stream,
    and it is the first delta of that index with the arguments of all the
    deltas of that index appended in arrival order; the list returned gives
    their id, type and function in that order. In particular the deltas
    with indices [1, 0, 1] and arguments ["b", "a", "c"] give the calls of
    index 0 with arguments "a" and of index 1 with arguments "bc". *)
Theorem tool_call_aggregation :
  (∀ messages : list (option ChatCompletionChunk),
     let deltas := omap first_tool_call messages in
     Forall (λ d, has_arguments d = true) deltas →
     let sorted := sortedToolCallObjects (aggregate messages) in
     StronglySorted Z.lt (ToolCall.index <$> sorted)
     ∧ (∀ tc, tc ∈ sorted ↔ merged (ToolCall.index tc) deltas = Some tc)
     ∧ (∀ d, d ∈ deltas → ToolCall.index d ∈ ToolCall.index <$> sorted)
     ∧ getToolCalls messages = definition_of <$> sorted)
  ∧ (∀ id1 type1 name1 id0 type0 name0 id2 type2 name2 : option string,
       let deltas := [delta_of 1 id1 type1 name1 "b"; delta_of 0 id0 type0 name0 "a";
                      delta_of 1 id2 type2 name2 "c"] in
       ToolCall.index <$> sortedToolCallObjects (aggregate (delta_message <$> deltas))
       = [0; 1]
       ∧ getToolCalls (delta_message <$> deltas)
         = [ToolCallDefinition.mk id0 type0 (ToolCall.mkFunction name0 (ArgString "a"));
            ToolCallDefinition.mk id1 type1 (ToolCall.mkFunction name1 (ArgString "bc"))]).
Proof.
  split.
  - intros messages deltas Hwf. unfold getToolCalls.
    rewrite aggregate_messages. fold deltas.
    exact (sorted_calls_spec deltas Hwf).
  - intros. split; reflexivity.
Qed.

(** A stream with a message without data, four deltas and a final chunk. *)
Lemma tool_call_aggregation_witness :
  let messages :=
    [None;
     delta_message (delta_of 4 (Some "call_4") (Some "function") (Some "mul") "{");
     delta_message (delta_of 2 (Some "call_2") (Some "function") (Some "add") "[1,");
     delta_message (delta_of 4 None None None "}");
     delta_message (delta_of 2 None None None "2]");
     Some (mkChunk [mkChoice (mkDelta None) (Some "tool_calls")])] in
  getToolCalls messages
  = [ToolCallDefinition.mk (Some "call_2") (Some "function")
       (ToolCall.mkFunction (Some "add") (ArgString "[1,2]"));
     ToolCallDefinition.mk (Some "call_4") (Some "function")
       (ToolCall.mkFunction (Some "mul") (ArgString "{}"))]
  ∧ StronglySorted Z.lt (ToolCall.index <$> sortedToolCallObjects (aggregate messages)).
Proof.
  cbv zeta.
  destruct (proj1 tool_call_aggregation
              [None;
               delta_message (delta_of 4 (Some "call_4") (Some "function") (Some "mul") "{");
               delta_message (delta_of 2 (Some "call_2") (Some "function") (Some "add") "[1,");
               delta_message (delta_of 4 None None None "}");
               delta_message (delta_of 2 None None None "2]");
               Some (mkChunk [mkChoice (mkDelta None) (Some "tool_calls")])])
    as (Hs & _ & _ & H).
  - repeat constructor.
  - split; [rewrite H; by vm_compute|exact Hs].
Defined.

(** ** The scenarios of the specification *)

(** S1: a bot that yields the text "hi" and returns. *)
Lemma scenario_S1 :
  response_body (snd (handleQuery "m1" (mkHandler [Yield (partial_response "hi")] Returns)
                        new_bot)) CRLF
  = "event: text" +:+ CRLF +:+ "data: " +:+ text_json "hi" +:+ CRLF +:+ CRLF
    +:+ "event: done" +:+ CRLF +:+ "data: {}" +:+ CRLF +:+ CRLF.
Proof. by vm_compute. Qed.

(** S3: a meta event, a text and [done]: one [MetaResponse], one text, and
    no report to the bot. *)
Lemma scenario_S3 :
  performQueryRequest JSON_parse accepted false (mkBotReply (iterSSE [body_S3]) None)
  = ([Yielded (meta_response true false "text/plain");
      Yielded (text_response "abc" false false)], Ok tt).
Proof. by vm_compute. Qed.

(** S4: the text "A" replaced by "B", the body arriving in two chunks. *)
Lemma scenario_S4 :
  getFinalResponse "echo" 2
    (λ _, performQueryRequest JSON_parse accepted false (mkBotReply (iterSSE [body_S4]) None))
  = Ok "B"
  ∧ iterSSE [substring_to 20 body_S4; substring_from 20 body_S4] = iterSSE [body_S4].
Proof. by vm_compute. Qed.

(** * Further properties *)

(** ** Streams of records *)

Lemma records_body_lines (records : list (SSE * string)) (sep : string) :
  records_body records sep
  = concat_lines sep (concat (map (λ r, encode_lines (fst r) (snd r)) records)).
Proof.
  unfold records_body.
  assert (H : ∀ body,
    fold_left (λ body r, body +:+ encodeServerSentEvent (fst r) (snd r) sep) records body
    = body +:+ concat_lines sep (concat (map (λ r, encode_lines (fst r) (snd r)) records))).
  { induction records as [|r records IH]; intros body.
    - by rewrite append_empty_r.
    - cbn [fold_left map concat]. rewrite IH, encodeServerSentEvent_lines.
      by rewrite concat_lines_app, append_assoc. }
  by rewrite H.
Qed.

Lemma wire_safe_inv (e : SSE) :
  wire_safe e = true →
  (∀ i, ServerSentEvent.id e = Some i →
        has_line_sep i = false ∧ includes_char NUL i = false)
  ∧ (∀ ev, ServerSentEvent.event e = Some ev → has_line_sep ev = false).
Proof.
  unfold wire_safe. intros H. apply andb_true_iff in H as [Hi He]. split.
  - intros i Hid. rewrite Hid in Hi. apply andb_true_iff in Hi as [H1 H2].
    by apply negb_true_iff in H1, H2.
  - intros ev Hev. rewrite Hev in He. by apply negb_true_iff in He.
Qed.

(** A record read by a decoder between two records. *)
Lemma decode_lines_encode_lines (e : SSE) (comment last : string) :
  wire_safe e = true →
  SSEDecoder.decode_lines (encode_lines e comment)
    (SSEDecoder.mk EmptyString [] last None)
  = (SSEDecoder.mk EmptyString [] (next_event_id last e) None,
     if dispatches last e then [decoded_after last e] else []).
Proof.
  intros Hsafe. apply wire_safe_inv in Hsafe as [Hid Hev].
  unfold encode_lines, dispatches, carries_field, decoded_after, normalized_data,
    next_event_id.
  destruct e as [d ev i r].
  cbn [ServerSentEvent.data ServerSentEvent.event ServerSentEvent.id
       ServerSentEvent.retry] in *.
  assert (Hi : ∀ v, i = Some v → replace_line_sep v = v ∧ includes_char NUL v = false).
  { intros v ->. destruct (Hid v eq_refl). split; [by apply replace_line_sep_id|done]. }
  assert (Hv : ∀ v, ev = Some v → replace_line_sep v = v).
  { intros v ->. apply replace_line_sep_id. by apply Hev. }
  clear Hid Hev.
  destruct i as [i|]; [destruct (Hi i eq_refl) as [-> Hnul]|];
  destruct ev as [ev|]; try rewrite (Hv ev eq_refl);
  destruct d as [d|]; destruct r as [r|];
  destruct (String.eqb comment EmptyString);
  decode_field_lines.
  all: rewrite decode_blank_line; cbn [SSEDecoder.event SSEDecoder.data
         SSEDecoder.lastEventId SSEDecoder.retry default from_option app].
  all: try (pose proof (split_line_sep_not_nil d);
            destruct (split_line_sep d) eqn:?; [done|]).
  all: rewrite ?(bool_decide_eq_false_2 (_ :: _ = [])) by done.
  all: rewrite ?(bool_decide_eq_false_2 (Some _ = None)) by done.
  all: rewrite ?(bool_decide_eq_true_2 (@nil string = [])) by done.
  all: rewrite ?(bool_decide_eq_true_2 (@None Z = None)) by done.
  all: rewrite ?(bool_decide_eq_true_2 (is_Some (Some _))) by done.
  all: rewrite ?(bool_decide_eq_false_2 (is_Some None)) by (by intros [? ?]).
  all: unfold id.
  all: repeat match goal with
       | |- context [String.eqb ?s EmptyString] =>
           is_var s; destruct (String.eqb_spec s EmptyString) as [->|?]
       end.
  all: cbn [andb orb negb]; cbv beta iota; cbn [snd app]; try reflexivity.
Qed.

Lemma decode_records (records : list (SSE * string)) (last : string) :
  Forall (λ r, wire_safe (fst r) = true) records →
  SSEDecoder.decode_lines (concat (map (λ r, encode_lines (fst r) (snd r)) records))
    (SSEDecoder.mk EmptyString [] last None)
  = (SSEDecoder.mk EmptyString [] (fold_left next_event_id (map fst records) last) None,
     decoded_events last (map fst records)).
Proof.
  intros H. revert last. induction H as [|r records Hr _ IH]; intros last; [reflexivity|].
  cbn [map concat fold_left decoded_events]. rewrite decode_lines_app.
  rewrite (decode_lines_encode_lines _ _ _ Hr). by rewrite IH.
Qed.

Lemma decode_stream_records (records : list (SSE * string)) (sep : string) :
  sep ∈ line_separators →
  Forall (λ r, wire_safe (fst r) = true) records →
  decode_stream (records_body records sep) = decoded_events EmptyString (map fst records).
Proof.
  intros Hsep H. unfold decode_stream. rewrite records_body_lines.
  rewrite stream_lines_concat_lines; [|exact Hsep|].
  - change SSEDecoder.fresh with (SSEDecoder.mk EmptyString [] EmptyString None).
    by rewrite (decode_records records EmptyString H).
  - apply Forall_concat, Forall_forall. intros lines Hin.
    apply list_elem_of_In, in_map_iff in Hin as (r & <- & Hin).
    rewrite Forall_forall in H. apply list_elem_of_In in Hin. specialize (H r Hin).
    apply wire_safe_inv in H as [Hid Hev].
    apply encode_lines_no_line_sep.
    + intros i Hi. destruct (Hid i Hi) as [H1 _]. by rewrite replace_line_sep_id.
    + intros ev Hv. rewrite replace_line_sep_id; by apply Hev.
Qed.

Lemma decoded_events_app (last : string) (a b : list SSE) :
  decoded_events last (a ++ b)
  = decoded_events last a ++ decoded_events (fold_left next_event_id a last) b.
Proof.
  revert last. induction a as [|e a IH]; intros last; [reflexivity|].
  cbn [app decoded_events fold_left]. by rewrite IH, app_assoc.
Qed.

(** X1: the records written on a response one after another, with any
    comments, are read back by a fresh decoder as one event for every record
    that carries a field or comes after a non-empty id; the event has the
    data of the record with its terminators read as line feeds, its event
    name and retry, and the id of the most recent record with an id. The
    ids and event names hold no line terminator, the ids no NUL, and the
    retries are safe integers. *)
Theorem stream_decoding (records : list (SSE * string)) (sep : string) :
  sep ∈ line_separators →
  Forall (λ r, wire_safe (fst r) = true) records →
  Forall (λ r, safe_retry (fst r) = true) records →
  decode_stream (records_body records sep) = decoded_events EmptyString (map fst records).
Proof. intros Hsep Hwire _. by apply decode_stream_records. Qed.

(** Two events and a heartbeat between them; the second event has no id of
    its own. *)
Lemma stream_decoding_witness :
  decode_stream
    (records_body
       [(ServerSentEvent.mk (Some "one") (Some "text") (Some "41") None, EmptyString);
        (empty_sse, "ping - 2024-05-01T10:00:00.000Z");
        (ServerSentEvent.mk (Some "two") None None (Some 3000), EmptyString)]
       CRLF)
  = [ServerSentEvent.mk (Some "one") (Some "text") (Some "41") None;
     ServerSentEvent.mk (Some EmptyString) (Some EmptyString) (Some "41") None;
     ServerSentEvent.mk (Some "two") (Some EmptyString) (Some "41") (Some 3000)].
Proof.
  rewrite stream_decoding.
  - reflexivity.
  - unfold line_separators. apply elem_of_cons. by left.
  - repeat constructor.
  - repeat constructor.
Defined.

(** X2: a heartbeat, the event without fields written with a comment, is
    invisible to the reader as long as no record before it had a non-empty
    id; after such a record it is read as an event of its own that carries
    that id and empty data. *)
Theorem heartbeat_framing (before after : list (SSE * string)) (comment sep : string) :
  sep ∈ line_separators →
  Forall (λ r, wire_safe (fst r) = true) (before ++ after) →
  let last := last_event_id_of (map fst before) in
  (last = EmptyString →
   decode_stream (records_body (before ++ (empty_sse, comment) :: after) sep)
   = decode_stream (records_body (before ++ after) sep))
  ∧ (last ≠ EmptyString →
     decode_stream (records_body (before ++ [(empty_sse, comment)]) sep)
     = decode_stream (records_body before sep)
       ++ [ServerSentEvent.mk (Some EmptyString) (Some EmptyString) (Some last) None]).
Proof.
  intros Hsep Hall last.
  apply Forall_app in Hall as [Hb Ha].
  assert (Hping : wire_safe empty_sse = true) by reflexivity.
  split; intros Hlast.
  - rewrite !decode_stream_records; try done.
    + rewrite !map_app, !decoded_events_app. f_equal.
      cbn [map decoded_events fst]. fold (last_event_id_of (map fst before)). fold last.
      rewrite Hlast. reflexivity.
    + by apply Forall_app.
    + apply Forall_app. split; [done|]. by constructor.
  - rewrite !decode_stream_records; try done.
    + rewrite map_app, decoded_events_app. f_equal.
      cbn [map decoded_events fst]. fold (last_event_id_of (map fst before)). fold last.
      unfold dispatches, next_event_id, decoded_after. cbn.
      destruct (String.eqb_spec last EmptyString); [done|reflexivity].
    + apply Forall_app. split; [done|]. by repeat constructor.
Qed.

Lemma heartbeat_framing_witness :
  decode_stream
    (records_body
       ([(textEvent (Some "hi"), EmptyString)]
        ++ (empty_sse, "ping - 2024-05-01T10:00:00.000Z") :: [(doneEvent, EmptyString)])
       CRLF)
  = decode_stream
      (records_body ([(textEvent (Some "hi"), EmptyString)] ++ [(doneEvent, EmptyString)])
         CRLF).
Proof.
  assert (Hsep : CRLF ∈ line_separators).
  { unfold line_separators. apply elem_of_cons. by left. }
  assert (Hall : Forall (λ r : SSE * string, wire_safe (fst r) = true)
                   ([(textEvent (Some "hi"), EmptyString)] ++ [(doneEvent, EmptyString)])).
  { repeat constructor. }
  exact (proj1 (heartbeat_framing [(textEvent (Some "hi"), EmptyString)]
                  [(doneEvent, EmptyString)] "ping - 2024-05-01T10:00:00.000Z" CRLF
                  Hsep Hall) eq_refl).
Defined.

(** *** Chunks *)

Lemma indexOf_None (c : ascii) (s : string) :
  includes_char c s = false → indexOf c s = None.
Proof.
  induction s as [|c' s IH]; [reflexivity|]. cbn.
  intros H. apply orb_false_iff in H as [Hc Hs]. by rewrite Hc, IH.
Qed.

Lemma indexOf_app (c : ascii) (a b : string) :
  includes_char c a = false →
  indexOf c (a +:+ String c b) = Some (String.length a).
Proof.
  induction a as [|c' a IH]; cbn.
  - by rewrite Ascii.eqb_refl.
  - intros H. apply orb_false_iff in H as [Hc Hs]. by rewrite Hc, IH.
Qed.

Lemma substring_to_app (a b : string) : substring_to (String.length a) (a +:+ b) = a.
Proof.
  induction a as [|c a IH]; cbn; [by destruct b|by rewrite IH].
Qed.

Lemma substring_from_app (a b : string) : substring_from (String.length a) (a +:+ b) = b.
Proof. induction a as [|c a IH]; cbn; [by destruct b|exact IH]. Qed.

Lemma length_append (a b : string) :
  String.length (a +:+ b) = (String.length a + String.length b)%nat.
Proof. induction a as [|c a IH]; cbn; [reflexivity|by rewrite IH]. Qed.

Lemma includes_char_app (c : ascii) (a b : string) :
  includes_char c (a +:+ b) = includes_char c a || includes_char c b.
Proof. induction a as [|c' a IH]; cbn; [reflexivity|by rewrite IH, orb_assoc]. Qed.

(** The loop on the buffer, read from the left. *)
Lemma drain_buffer_feed_chunk (chunk : string) :
  ∀ (partial : string) (d : SSEDecoder.t) (fuel : nat),
    includes_char LF partial = false →
    (String.length (partial +:+ chunk) ≤ fuel)%nat →
    drain_buffer fuel (partial +:+ chunk) d = feed_chunk chunk partial d.
Proof.
  induction chunk as [|c rest IH]; intros partial d fuel Hp Hlen.
  - rewrite append_empty_r. destruct fuel; [reflexivity|].
    cbn [drain_buffer feed_chunk]. by rewrite indexOf_None.
  - cbn [feed_chunk]. destruct (Ascii.eqb c LF) eqn:Hc.
    + apply Ascii.eqb_eq in Hc. subst c.
      rewrite length_append in Hlen. cbn [String.length] in Hlen.
      destruct fuel as [|fuel]; [lia|].
      cbn [drain_buffer]. rewrite indexOf_app by done.
      rewrite substring_to_app.
      replace (String.length partial + 1)%nat with (String.length (partial +:+ String LF EmptyString))
        by (rewrite length_append; reflexivity).
      replace (partial +:+ String LF rest) with ((partial +:+ String LF EmptyString) +:+ rest)
        by (by rewrite append_assoc).
      rewrite substring_from_app.
      destruct (SSEDecoder.decode (trim partial) d) as [d' r].
      rewrite <- (IH EmptyString d' fuel); [reflexivity|reflexivity|].
      cbn [String.append]. lia.
    + replace (partial +:+ String c rest)
        with ((partial +:+ String c EmptyString) +:+ rest) in *
        by (by rewrite append_assoc).
      apply IH; [|exact Hlen].
      rewrite includes_char_app, Hp. cbn. by rewrite Hc.
Qed.

Lemma feed_chunk_buffer (chunk : string) :
  ∀ (partial : string) (d : SSEDecoder.t),
    includes_char LF partial = false →
    includes_char LF (feed_chunk chunk partial d).1.1 = false.
Proof.
  induction chunk as [|c rest IH]; intros partial d Hp; [exact Hp|].
  cbn [feed_chunk]. destruct (Ascii.eqb c LF) eqn:Hc.
  - destruct (SSEDecoder.decode (trim partial) d) as [d' r].
    specialize (IH EmptyString d' eq_refl).
    by destruct (feed_chunk rest EmptyString d') as [[b d''] evs].
  - apply IH. rewrite includes_char_app, Hp. cbn. by rewrite Hc.
Qed.

Lemma feed_chunk_app (c1 c2 : string) :
  ∀ (partial : string) (d : SSEDecoder.t),
    feed_chunk (c1 +:+ c2) partial d
    = let '(b1, d1, e1) := feed_chunk c1 partial d in
      let '(b2, d2, e2) := feed_chunk c2 b1 d1 in
      (b2, d2, e1 ++ e2).
Proof.
  induction c1 as [|c c1 IH]; intros partial d.
  - cbn. by destruct (feed_chunk c2 partial d) as [[b2 d2] e2].
  - cbn [String.append feed_chunk]. destruct (Ascii.eqb c LF).
    + destruct (SSEDecoder.decode (trim partial) d) as [d' r]. rewrite IH.
      destruct (feed_chunk c1 EmptyString d') as [[b1 d1] e1].
      destruct (feed_chunk c2 b1 d1) as [[b2 d2] e2]. by destruct r.
    + apply IH.
Qed.

Lemma iterSSE_loop_feed (chunks : list string) :
  ∀ (buffer : string) (d : SSEDecoder.t),
    includes_char LF buffer = false →
    iterSSE_loop chunks buffer d
    = (feed_chunk (join EmptyString chunks) buffer d).2.
Proof.
  induction chunks as [|chunk chunks IH]; intros buffer d Hb; [reflexivity|].
  cbn [iterSSE_loop].
  rewrite drain_buffer_feed_chunk by done.
  assert (Hj : join EmptyString (chunk :: chunks) = chunk +:+ join EmptyString chunks).
  { unfold join. destruct chunks; cbn; [by rewrite append_empty_r|reflexivity]. }
  rewrite Hj, feed_chunk_app.
  pose proof (feed_chunk_buffer chunk buffer d Hb) as Hb'.
  destruct (feed_chunk chunk buffer d) as [[b1 d1] e1]. cbn in Hb'.
  rewrite (IH b1 d1 Hb').
  by destruct (feed_chunk (join EmptyString chunks) b1 d1) as [[b2 d2] e2].
Qed.

(** X3: the events that [iterSSE] yields do not depend on how the body of
    the response is cut into chunks; and a body without a line feed, such
    as one written with the separator [\r], yields no event at all. *)
Theorem iterSSE_chunking (chunks : list string) :
  iterSSE_events chunks = iterSSE_events [join EmptyString chunks]
  ∧ (includes_char LF (join EmptyString chunks) = false → iterSSE_events chunks = []).
Proof.
  unfold iterSSE_events. rewrite !iterSSE_loop_feed by reflexivity. split.
  - reflexivity.
  - intros H. generalize dependent (join EmptyString chunks). intros body Hb.
    assert (Hf : ∀ partial d, (feed_chunk body partial d).2 = []).
    { induction body as [|c body IH]; intros partial d; [reflexivity|].
      cbn in Hb. apply orb_false_iff in Hb as [Hc Hb].
      cbn [feed_chunk]. rewrite Hc. by apply IH. }
    apply Hf.
Qed.

Lemma iterSSE_chunking_witness :
  iterSSE_events [String "d" (String CR EmptyString); "ata: x"] = [].
Proof.
  apply (proj2 (iterSSE_chunking [String "d" (String CR EmptyString); "ata: x"])).
  reflexivity.
Defined.

(** ** Names and objects *)

Lemma upper_char_facts (c : ascii) :
  is_upper c = true →
  to_upper_char (to_lower_char c) = c
  ∧ is_word_char (to_lower_char c) = true
  ∧ is_upper (to_lower_char c) = false.
Proof. destruct c as [[] [] [] [] [] [] [] []]; vm_compute; intuition congruence. Qed.

Lemma lower_char_facts (c : ascii) :
  is_lower c = true →
  to_lower_char (to_upper_char c) = c
  ∧ is_word_char c = true
  ∧ is_upper (to_upper_char c) = true
  ∧ Ascii.eqb c "_"%char = false.
Proof. destruct c as [[] [] [] [] [] [] [] []]; vm_compute; intuition congruence. Qed.

Lemma underscore_not_upper : is_upper "_"%char = false.
Proof. reflexivity. Qed.

Lemma snakeToCamelCase_camelToSnakeCase (s : string) :
  no_underscore s = true → snakeToCamelCase (camelToSnakeCase s) = s.
Proof.
  unfold no_underscore. induction s as [|c s IH]; [reflexivity|].
  cbn [includes_char]. intros H. apply negb_true_iff, orb_false_iff in H as [Hc Hs].
  specialize (IH (proj2 (negb_true_iff _) Hs)).
  cbn [camelToSnakeCase]. destruct (is_upper c) eqn:Hu.
  - destruct (upper_char_facts c Hu) as (H1 & H2 & _).
    cbn [snakeToCamelCase]. change (Ascii.eqb "_" "_") with true. cbn match.
    by rewrite H2, H1, IH.
  - cbn [snakeToCamelCase]. by rewrite Hc, IH.
Qed.

Lemma camelToSnakeCase_snakeToCamelCase (s : string) :
  is_snake s = true → camelToSnakeCase (snakeToCamelCase s) = s.
Proof.
  assert (H : ∀ (n : nat) (s : string), (String.length s < n)%nat →
            is_snake s = true → camelToSnakeCase (snakeToCamelCase s) = s);
    [|apply (H (S (String.length s))); lia].
  clear s. intros n. induction n as [|n IH]; intros s Hlen Hs; [lia|].
  destruct s as [|c rest]; [reflexivity|].
  cbn [String.length] in Hlen. cbn [is_snake] in Hs.
  apply andb_true_iff in Hs as [Hs Hrest]. apply andb_true_iff in Hs as [Hu Hnext].
  apply negb_true_iff in Hu.
  cbn [snakeToCamelCase]. destruct (Ascii.eqb c "_"%char) eqn:Hc.
  - apply Ascii.eqb_eq in Hc. subst c.
    destruct rest as [|c' rest']; [discriminate|].
    destruct (lower_char_facts c' Hnext) as (H1 & H2 & H3 & H4).
    rewrite H2. cbn [camelToSnakeCase]. rewrite H3, H1.
    cbn [is_snake] in Hrest. rewrite H4 in Hrest.
    apply andb_true_iff in Hrest as [_ Hrest'].
    cbn [String.length] in Hlen. rewrite (IH rest'); [reflexivity|lia|exact Hrest'].
  - cbn [camelToSnakeCase]. rewrite Hu. rewrite (IH rest); [reflexivity|lia|exact Hrest].
Qed.

Lemma camelToSnakeCase_is_lower (s : string) :
  ∀ c, includes_char c (camelToSnakeCase s) = true → is_upper c = false.
Proof.
  induction s as [|c' s IH]; intros c; [discriminate|].
  cbn [camelToSnakeCase]. destruct (is_upper c') eqn:Hu; cbn [includes_char].
  - destruct (upper_char_facts c' Hu) as (_ & _ & H3).
    intros H. apply orb_true_iff in H as [H|H].
    + apply Ascii.eqb_eq in H. by subst c.
    + apply orb_true_iff in H as [H|H]; [|by apply IH].
      apply Ascii.eqb_eq in H. by subst c.
  - intros H. apply orb_true_iff in H as [H|H]; [|by apply IH].
    apply Ascii.eqb_eq in H. by subst c.
Qed.

(** X4: the two conversions of names are inverse of each other where the
    dispatcher relies on it: a name without an underscore comes back from
    snake case unchanged, and a name in snake case (no upper-case letter, a
    lower-case letter after every underscore) comes back from camel case
    unchanged; the snake case of a name never holds an upper-case letter. *)
Theorem name_conversion (s : string) :
  (no_underscore s = true → snakeToCamelCase (camelToSnakeCase s) = s)
  ∧ (is_snake s = true → camelToSnakeCase (snakeToCamelCase s) = s)
  ∧ (∀ c, includes_char c (camelToSnakeCase s) = true → is_upper c = false).
Proof.
  split; [apply snakeToCamelCase_camelToSnakeCase|].
  split; [apply camelToSnakeCase_snakeToCamelCase|apply camelToSnakeCase_is_lower].
Qed.

Lemma name_conversion_witness :
  snakeToCamelCase (camelToSnakeCase "enableImageComprehension") = "enableImageComprehension"
  ∧ camelToSnakeCase (snakeToCamelCase "server_bot_dependencies") = "server_bot_dependencies".
Proof.
  split.
  - apply (proj1 (name_conversion "enableImageComprehension")). reflexivity.
  - apply (proj1 (proj2 (name_conversion "server_bot_dependencies"))). reflexivity.
Defined.

(** *** [safeEllipsis] *)

Lemma length_substring_to (n : nat) (s : string) :
  String.length (substring_to n s) = Nat.min n (String.length s).
Proof.
  revert s. induction n as [|n IH]; intros s; [by destruct s|].
  destruct s as [|c s]; [reflexivity|]. cbn. by rewrite IH.
Qed.

(** X5: for a limit of at least three characters, [safeEllipsis] returns a
    text of at most [limit] characters: the value itself when it is short
    enough, and otherwise its first [limit - 3] characters followed by three
    dots. *)
Theorem safeEllipsis_bound (value : string) (limit : nat) :
  (3 ≤ limit)%nat →
  String.length (safeEllipsis value limit) = Nat.min (String.length value) limit
  ∧ ((String.length value ≤ limit)%nat → safeEllipsis value limit = value)
  ∧ ((limit < String.length value)%nat →
     safeEllipsis value limit = substring_to (limit - 3) value +:+ "...").
Proof.
  intros Hl. unfold safeEllipsis.
  rewrite (proj2 (Nat.leb_le 3 limit) Hl).
  destruct (limit <? String.length value)%nat eqn:Hlt.
  - apply Nat.ltb_lt in Hlt. split; [|split; [lia|done]].
    rewrite length_append, length_substring_to. cbn. lia.
  - apply Nat.ltb_ge in Hlt. split; [lia|]. split; [done|lia].
Qed.

Lemma safeEllipsis_bound_witness :
  String.length (safeEllipsis "an-event-name-that-is-too-long" 10) = 10%nat.
Proof.
  destruct (safeEllipsis_bound "an-event-name-that-is-too-long" 10) as [H _]; [lia|].
  exact H.
Defined.

(** *** Objects *)

(** Induction on a JSON value, with the hypothesis for every item of an
    array and every member of an object. *)
Section JsonValue_induction.
Variable P : JsonValue → Prop.
Hypothesis P_null : P JNull.
Hypothesis P_bool : ∀ b, P (JBool b).
Hypothesis P_number : ∀ literal, P (JNumber literal).
Hypothesis P_string : ∀ s, P (JString s).
Hypothesis P_array : ∀ items, Forall P items → P (JArray items).
Hypothesis P_object : ∀ members, Forall (λ kv, P (snd kv)) members → P (JObject members).

Lemma JsonValue_nested_ind (v : JsonValue) : P v.
Proof.
  revert v. fix IH 1. intros [| | | |items|members].
  - exact P_null.
  - apply P_bool.
  - apply P_number.
  - apply P_string.
  - apply P_array. induction items as [|x items IHitems]; constructor.
    + apply IH.
    + exact IHitems.
  - apply P_object. induction members as [|kv members IHmembers]; constructor.
    + apply IH.
    + exact IHmembers.
Qed.
End JsonValue_induction.

Lemma obj_set_fresh (key : string) (v : JsonValue) (members : list (string * JsonValue)) :
  key ∉ map fst members → obj_set key v members = members ++ [(key, v)].
Proof.
  induction members as [|[k v'] members IH]; [reflexivity|].
  cbn [map fst obj_set]. intros Hn. apply not_elem_of_cons in Hn as [Hk Hn].
  rewrite (proj2 (String.eqb_neq k key)) by congruence. by rewrite IH.
Qed.

Lemma fold_obj_set (f : string → string) (g : JsonValue → JsonValue)
    (members acc : list (string * JsonValue)) :
  NoDup (map fst acc ++ map (λ kv, f (fst kv)) members) →
  fold_left (λ result kv, obj_set (f (fst kv)) (g (snd kv)) result) members acc
  = acc ++ map (λ kv, (f (fst kv), g (snd kv))) members.
Proof.
  revert acc. induction members as [|[k v] members IH]; intros acc Hnd.
  - by rewrite app_nil_r.
  - cbn [fold_left map fst snd] in *.
    apply NoDup_app in Hnd as (Ha & Hdisj & Hm).
    apply NoDup_cons in Hm as [Hk Hm].
    rewrite obj_set_fresh.
    2:{ intros Hin. apply (Hdisj _ Hin). left. }
    rewrite IH.
    + by rewrite <- app_assoc.
    + rewrite map_app. cbn [map fst]. rewrite <- app_assoc. cbn [app].
      apply NoDup_app. split; [exact Ha|]. split.
      * intros x Hx Hin. apply (Hdisj x Hx). exact Hin.
      * by apply NoDup_cons.
Qed.

(** Two conversions of the keys of a value, the second undoing the first on
    the keys that satisfy [ok]. *)
Section Conversions.
Variables (f g : string → string) (ok : string → bool).
Variables (dump parse : JsonValue → JsonValue).
Hypothesis g_f : ∀ s, ok s = true → g (f s) = s.
Hypothesis dump_object : ∀ members,
  dump (JObject members)
  = JObject (fold_left (λ result kv, obj_set (f (fst kv)) (dump (snd kv)) result) members []).
Hypothesis dump_array : ∀ items, dump (JArray items) = JArray (map dump items).
Hypothesis dump_other : ∀ v,
  (∀ items, v ≠ JArray items) → (∀ members, v ≠ JObject members) → dump v = v.
Hypothesis parse_object : ∀ members,
  parse (JObject members)
  = JObject (fold_left (λ result kv, obj_set (g (fst kv)) (parse (snd kv)) result) members []).
Hypothesis parse_array : ∀ items, parse (JArray items) = JArray (map parse items).
Hypothesis parse_other : ∀ v,
  (∀ items, v ≠ JArray items) → (∀ members, v ≠ JObject members) → parse v = v.

Lemma conversion_round_trip (v : JsonValue) :
  keys_ok ok v = true → parse (dump v) = v.
Proof.
  induction v as [| | | |items IH|members IH] using JsonValue_nested_ind; intros Hok;
    try (rewrite dump_other by done; by rewrite parse_other by done).
  - rewrite dump_array, parse_array. f_equal.
    cbn [keys_ok] in Hok. rewrite forallb_forall in Hok.
    rewrite map_map. rewrite <- (map_id items) at 2. apply map_ext_in.
    intros x Hx. rewrite Forall_forall in IH. apply IH; [by apply list_elem_of_In|].
    by apply Hok.
  - cbn [keys_ok] in Hok. apply andb_true_iff in Hok as [Hnd Hok].
    apply bool_decide_eq_true_1 in Hnd. rewrite forallb_forall in Hok.
    assert (Hkeys : map (λ kv, g (f (fst kv))) members = map fst members).
    { apply map_ext_in. intros kv Hin. apply g_f.
      specialize (Hok kv Hin). by apply andb_true_iff in Hok as [Hk _]. }
    assert (Hnd_f : NoDup (map (λ kv, f (fst kv)) members)).
    { apply (NoDup_fmap_1 g). change (NoDup (map g (map (λ kv, f (fst kv)) members))).
      rewrite map_map, Hkeys. exact Hnd. }
    rewrite dump_object, (fold_obj_set f dump members []) by exact Hnd_f.
    cbn [app]. rewrite parse_object. rewrite fold_obj_set.
    + cbn [app]. f_equal. rewrite map_map. cbn [fst snd].
      rewrite <- (map_id members) at 2. apply map_ext_in.
      intros [k x] Hin. cbn [fst snd]. specialize (Hok _ Hin). cbn [fst snd] in Hok.
      apply andb_true_iff in Hok as [Hk Hx]. rewrite g_f by done.
      f_equal. rewrite Forall_forall in IH.
      apply (IH (k, x)); [by apply list_elem_of_In|exact Hx].
    + cbn [map app]. rewrite map_map. cbn [fst]. by rewrite Hkeys.
Qed.
End Conversions.

(** X6: [parseObj] undoes [modelDump] on every value whose keys are distinct
    in each object and hold no underscore, and [modelDump] undoes [parseObj]
    on every value whose keys are distinct and in snake case: a request body
    and a response body survive the conversion of the dispatcher. *)
Theorem parseObj_modelDump (v : JsonValue) :
  (keys_ok no_underscore v = true → parseObj (modelDump v) = v)
  ∧ (keys_ok is_snake v = true → modelDump (parseObj v) = v).
Proof.
  split.
  - apply (conversion_round_trip camelToSnakeCase snakeToCamelCase no_underscore
             modelDump parseObj); try reflexivity.
    + apply snakeToCamelCase_camelToSnakeCase.
    + intros [] H1 H2; try reflexivity; [by destruct (H1 items)|by destruct (H2 members)].
    + intros [] H1 H2; try reflexivity; [by destruct (H1 items)|by destruct (H2 members)].
  - apply (conversion_round_trip snakeToCamelCase camelToSnakeCase is_snake
             parseObj modelDump); try reflexivity.
    + apply camelToSnakeCase_snakeToCamelCase.
    + intros [] H1 H2; try reflexivity; [by destruct (H1 items)|by destruct (H2 members)].
    + intros [] H1 H2; try reflexivity; [by destruct (H1 items)|by destruct (H2 members)].
Qed.

Lemma parseObj_modelDump_witness :
  let settings :=
    JObject [("serverBotDependencies", JObject [("GPT-3.5-Turbo", JNumber "2")]);
             ("allowAttachments", JBool true);
             ("introductionMessage", JString "hello")] in
  parseObj (modelDump settings) = settings.
Proof.
  cbv zeta. apply (proj1 (parseObj_modelDump _)). by vm_compute.
Defined.

(** ** The reader of the client *)

Lemma length_trim_start (s : string) : (String.length (trim_start s) ≤ String.length s)%nat.
Proof.
  induction s as [|c s IH]; [reflexivity|]. cbn [trim_start].
  destruct (is_white_space c); cbn [String.length]; lia.
Qed.

Lemma length_trim_end (s : string) : (String.length (trim_end s) ≤ String.length s)%nat.
Proof.
  induction s as [|c s IH]; [reflexivity|]. cbn [trim_end].
  destruct (trim_end s) as [|c' s'].
  - destruct (is_white_space c); cbn [String.length]; lia.
  - cbn [String.length] in *. lia.
Qed.

Lemma trim_end_snoc (s : string) (c : ascii) :
  is_white_space c = true → trim_end (s +:+ String c EmptyString) = trim_end s.
Proof.
  intros Hc. induction s as [|c' s IH].
  - cbn. by rewrite Hc.
  - cbn [String.append trim_end]. by rewrite IH.
Qed.

Lemma trimmed_first (c : ascii) (s : string) :
  trim (String c s) = String c s → is_white_space c = false.
Proof.
  intros H. destruct (is_white_space c) eqn:Hc; [|reflexivity].
  unfold trim in H. cbn [trim_start] in H. rewrite Hc in H.
  pose proof (length_trim_end (trim_start s)) as H1.
  pose proof (length_trim_start s) as H2.
  rewrite H in H1. cbn [String.length] in H1. lia.
Qed.

Lemma trim_snoc_CR (line : string) :
  trim line = line → trim (line +:+ String CR EmptyString) = line.
Proof.
  intros H. destruct line as [|c s]; [reflexivity|].
  pose proof (trimmed_first c s H) as Hc.
  unfold trim in *. cbn [String.append trim_start] in *. rewrite Hc in *.
  change (String c (s +:+ String CR EmptyString))
    with (String c s +:+ String CR EmptyString).
  by rewrite trim_end_snoc.
Qed.

Lemma feed_chunk_line (line : string) :
  ∀ (partial rest : string) (d : SSEDecoder.t),
    includes_char LF line = false →
    feed_chunk (line +:+ String LF rest) partial d
    = let '(d', r) := SSEDecoder.decode (trim (partial +:+ line)) d in
      let '(buffer, d'', evs) := feed_chunk rest EmptyString d' in
      (buffer, d'', match r with Some e => e :: evs | None => evs end).
Proof.
  induction line as [|c line IH]; intros partial rest d Hl.
  - cbn [String.append feed_chunk]. rewrite append_empty_r.
    by change (Ascii.eqb LF LF) with true.
  - cbn in Hl. apply orb_false_iff in Hl as [Hc Hl].
    cbn [String.append feed_chunk]. rewrite Hc, IH by done.
    by rewrite append_assoc.
Qed.

Lemma feed_chunk_lines (sep : string) (lines : list string) :
  sep = CRLF ∨ sep = String LF EmptyString →
  Forall (λ l, has_line_sep l = false ∧ trimmed l = true) lines →
  ∀ d, feed_chunk (concat_lines sep lines) EmptyString d
       = (EmptyString, (SSEDecoder.decode_lines lines d).1,
          (SSEDecoder.decode_lines lines d).2).
Proof.
  intros Hsep Hall. induction Hall as [|l lines [Hl Ht] _ IH]; intros d; [reflexivity|].
  apply String.eqb_eq in Ht.
  apply orb_false_iff in Hl as [Hcr Hlf].
  cbn [concat_lines fold_right SSEDecoder.decode_lines].
  fold (concat_lines sep lines).
  assert (Hfeed : feed_chunk (l +:+ sep +:+ concat_lines sep lines) EmptyString d
                  = let '(d', r) := SSEDecoder.decode l d in
                    let '(buffer, d'', evs) := feed_chunk (concat_lines sep lines) EmptyString d' in
                    (buffer, d'', match r with Some e => e :: evs | None => evs end)).
  { destruct Hsep as [->| ->].
    - change (l +:+ CRLF +:+ concat_lines CRLF lines)
        with (l +:+ String CR (String LF (concat_lines CRLF lines))).
      replace (l +:+ String CR (String LF (concat_lines CRLF lines)))
        with ((l +:+ String CR EmptyString) +:+ String LF (concat_lines CRLF lines))
        by (by rewrite append_assoc).
      rewrite feed_chunk_line.
      + cbn [String.append]. by rewrite trim_snoc_CR.
      + rewrite includes_char_app, Hlf. reflexivity.
    - change (l +:+ String LF EmptyString +:+ concat_lines (String LF EmptyString) lines)
        with (l +:+ String LF (concat_lines (String LF EmptyString) lines)).
      rewrite feed_chunk_line by done. cbn [String.append]. by rewrite Ht. }
  rewrite Hfeed. destruct (SSEDecoder.decode l d) as [d' r]. rewrite IH.
  by destruct (SSEDecoder.decode_lines lines d') as [d'' evs].
Qed.

Lemma iterSSE_events_lines (sep : string) (lines chunks : list string) :
  sep = CRLF ∨ sep = String LF EmptyString →
  Forall (λ l, has_line_sep l = false ∧ trimmed l = true) lines →
  join EmptyString chunks = concat_lines sep lines →
  iterSSE_events chunks = (SSEDecoder.decode_lines lines SSEDecoder.fresh).2.
Proof.
  intros Hsep Hall Hbody.
  unfold iterSSE_events. rewrite iterSSE_loop_feed by reflexivity.
  by rewrite Hbody, feed_chunk_lines.
Qed.

Lemma line_separators_LF (sep : string) :
  sep = CRLF ∨ sep = String LF EmptyString → sep ∈ line_separators.
Proof.
  unfold line_separators. intros [->| ->].
  - apply elem_of_cons. by left.
  - apply elem_of_cons. right. apply elem_of_cons. right. apply elem_of_cons. by left.
Qed.

(** X7: when the body of a response is made of lines ended by [\r\n] or by
    [\n], and no line has white space at either end, [iterSSE] yields the
    events that the decoder returns on these lines, however the body is cut
    into chunks; these are the events of [decode_stream]. *)
Theorem iterSSE_lines (sep : string) (lines chunks : list string) :
  sep = CRLF ∨ sep = String LF EmptyString →
  Forall (λ l, has_line_sep l = false ∧ trimmed l = true) lines →
  join EmptyString chunks = concat_lines sep lines →
  iterSSE_events chunks = (SSEDecoder.decode_lines lines SSEDecoder.fresh).2
  ∧ iterSSE_events chunks = decode_stream (join EmptyString chunks).
Proof.
  intros Hsep Hall Hbody.
  pose proof (iterSSE_events_lines sep lines chunks Hsep Hall Hbody) as H.
  split; [exact H|]. rewrite H, Hbody. unfold decode_stream.
  rewrite stream_lines_concat_lines; [reflexivity|by apply line_separators_LF|].
  eapply Forall_impl; [exact Hall|]. by intros l [Hl _].
Qed.

Lemma iterSSE_lines_witness :
  iterSSE_events ["event: te"; "xt" +:+ CRLF +:+ "data: {}" +:+ CRLF; CRLF]
  = [ServerSentEvent.mk (Some "{}") (Some "text") (Some EmptyString) None].
Proof.
  rewrite (proj1 (iterSSE_lines CRLF ["event: text"; "data: {}"; EmptyString]
                    ["event: te"; "xt" +:+ CRLF +:+ "data: {}" +:+ CRLF; CRLF]
                    (or_introl eq_refl)
                    ltac:(repeat constructor) eq_refl)).
  reflexivity.
Defined.

(** ** Events on the wire *)

Lemma response_body_records (events : list SSE) (sep : string) :
  response_body events sep = records_body (map (λ e, (e, EmptyString)) events) sep.
Proof.
  unfold response_body, records_body. generalize EmptyString at 2 4.
  induction events as [|e events IH]; intros body; [reflexivity|].
  cbn [map fold_left fst snd]. apply IH.
Qed.

Lemma clean_inv (e : SSE) :
  clean e = true →
  ∃ d ev, e = ServerSentEvent.mk (Some d) (Some ev) None None
          ∧ has_line_sep d = false ∧ has_line_sep ev = false
          ∧ trim ("data: " +:+ d) = "data: " +:+ d
          ∧ trim ("event: " +:+ ev) = "event: " +:+ ev.
Proof.
  destruct e as [[d|] [ev|] [i|] [r|]]; try discriminate. unfold clean. cbn.
  intros H. apply andb_true_iff in H as [H H4]. apply andb_true_iff in H as [H H3].
  apply andb_true_iff in H as [H1 H2].
  apply negb_true_iff in H1, H2. apply String.eqb_eq in H3, H4.
  by exists d, ev.
Qed.

Lemma clean_lines (e : SSE) :
  clean e = true →
  wire_safe e = true
  ∧ Forall (λ l, has_line_sep l = false ∧ trimmed l = true) (encode_lines e EmptyString)
  ∧ (∀ last, next_event_id last e = last)
  ∧ (∀ last, dispatches last e = true)
  ∧ decoded_after EmptyString e = arrived e.
Proof.
  intros H. apply clean_inv in H as (d & ev & -> & Hd & Hev & Htd & Hte).
  split; [|split; [|split; [|split]]].
  - unfold wire_safe. cbn. by rewrite Hev.
  - unfold encode_lines. cbn [ServerSentEvent.id ServerSentEvent.event ServerSentEvent.data
      ServerSentEvent.retry]. change (String.eqb EmptyString EmptyString) with true.
    cbv iota. rewrite (replace_line_sep_id ev Hev), (split_line_sep_no_sep d Hd).
    cbn [map app]. unfold trimmed.
    repeat constructor; rewrite ?Htd, ?Hte, ?String.eqb_refl; try reflexivity.
    + by apply has_line_sep_app.
    + by apply has_line_sep_app.
  - reflexivity.
  - intros last. unfold dispatches, carries_field. cbn.
    by destruct (String.eqb ev EmptyString).
  - unfold decoded_after, arrived, normalized_data, next_event_id. cbn.
    by rewrite (split_line_sep_no_sep d Hd).
Qed.

Lemma decoded_events_clean (events : list SSE) :
  Forall (λ e, clean e = true) events →
  decoded_events EmptyString events = map arrived events.
Proof.
  induction 1 as [|e events He _ IH]; [reflexivity|].
  destruct (clean_lines e He) as (_ & _ & Hn & Hd & Ha).
  cbn [decoded_events map]. by rewrite Hd, Hn, Ha, IH.
Qed.

Lemma iterSSE_events_clean (sep : string) (events : list SSE) (chunks : list string) :
  sep = CRLF ∨ sep = String LF EmptyString →
  Forall (λ e, clean e = true) events →
  join EmptyString chunks = response_body events sep →
  iterSSE_events chunks = map arrived events.
Proof.
  intros Hsep Hall Hbody.
  rewrite response_body_records, records_body_lines in Hbody.
  assert (Hlines : Forall (λ l, has_line_sep l = false ∧ trimmed l = true)
                     (concat (map (λ r : SSE * string, encode_lines (fst r) (snd r))
                                (map (λ e, (e, EmptyString)) events)))).
  { clear Hbody. induction Hall as [|e events He _ IH]; [constructor|].
    cbn [map concat fst snd]. apply Forall_app. split; [|exact IH].
    by destruct (clean_lines e He) as (_ & H & _). }
  rewrite (iterSSE_events_lines sep _ chunks Hsep Hlines Hbody).
  change SSEDecoder.fresh with (SSEDecoder.mk EmptyString [] EmptyString None).
  rewrite decode_records.
  - cbn [snd]. rewrite map_map. cbn [fst]. rewrite map_id.
    by apply decoded_events_clean.
  - apply Forall_fmap. eapply Forall_impl; [exact Hall|].
    intros e He. cbn. by destruct (clean_lines e He) as (H & _).
Qed.

(** X8: events with a data and an event name, without line terminators, id
    or retry, and without white space at the end of the data and of the
    name, written on a response with the separator [\r\n] or [\n], are the
    events that [iterSSE] yields from the body, in the same order, each with
    the empty id, however the body is cut into chunks. *)
Theorem clean_events_arrive (sep : string) (events : list SSE) (chunks : list string) :
  sep = CRLF ∨ sep = String LF EmptyString →
  Forall (λ e, clean e = true) events →
  join EmptyString chunks = response_body events sep →
  iterSSE_events chunks = map arrived events.
Proof. apply iterSSE_events_clean. Qed.

Lemma clean_events_arrive_witness :
  iterSSE_events ["event: text" +:+ CRLF +:+ "data: "; "{}" +:+ CRLF +:+ CRLF +:+ "event: done";
                  CRLF +:+ "data: {}" +:+ CRLF +:+ CRLF]
  = [ServerSentEvent.mk (Some "{}") (Some "text") (Some EmptyString) None;
     ServerSentEvent.mk (Some "{}") (Some "done") (Some EmptyString) None].
Proof.
  apply (clean_events_arrive CRLF [textEvent None; doneEvent]).
  - by left.
  - repeat constructor.
  - reflexivity.
Defined.

(** *** The events of the server *)

Lemma escape_char_no_line_sep (c : ascii) : has_line_sep (escape_char c) = false.
Proof. destruct c as [[] [] [] [] [] [] [] []]; reflexivity. Qed.

Lemma escape_string_no_line_sep (s : string) : has_line_sep (escape_string s) = false.
Proof.
  induction s as [|c s IH]; [reflexivity|]. cbn [escape_string].
  apply has_line_sep_app; [apply escape_char_no_line_sep|exact IH].
Qed.

Lemma quote_no_line_sep (s : string) : has_line_sep (quote s) = false.
Proof.
  unfold quote. change (String DQ (escape_string s +:+ String DQ EmptyString))
    with (String DQ EmptyString +:+ escape_string s +:+ String DQ EmptyString).
  apply has_line_sep_app; [reflexivity|].
  apply has_line_sep_app; [apply escape_string_no_line_sep|reflexivity].
Qed.

Lemma flat_no_line_sep (v : JsonValue) :
  flat v = true → has_line_sep (JSON_stringify v) = false.
Proof.
  destruct v as [|[]| | | |]; try discriminate; intros _; try reflexivity.
  apply quote_no_line_sep.
Qed.

Lemma join_no_line_sep (sep : string) (l : list string) :
  has_line_sep sep = false → Forall (λ s, has_line_sep s = false) l →
  has_line_sep (join sep l) = false.
Proof.
  intros Hsep. induction 1 as [|s l Hs Hl IH]; [reflexivity|].
  unfold join in *. cbn [String.concat]. destruct l as [|s' l]; [exact Hs|].
  apply has_line_sep_app; [exact Hs|]. apply has_line_sep_app; [exact Hsep|exact IH].
Qed.

Lemma object_no_line_sep (members : list (string * JsonValue)) :
  Forall (λ kv, flat (snd kv) = true) members →
  has_line_sep (JSON_stringify (JObject members)) = false.
Proof.
  intros Hflat. cbn [JSON_stringify].
  apply has_line_sep_app; [reflexivity|]. apply has_line_sep_app; [|reflexivity].
  apply join_no_line_sep; [reflexivity|].
  apply Forall_fmap. eapply Forall_impl; [exact Hflat|].
  intros [k v] Hv. cbn in *. apply has_line_sep_app; [apply quote_no_line_sep|].
  change (String ":" (JSON_stringify v)) with (":" +:+ JSON_stringify v).
  apply has_line_sep_app; [reflexivity|by apply flat_no_line_sep].
Qed.

Lemma trim_end_snoc_keep (s : string) (c : ascii) :
  is_white_space c = false →
  trim_end (s +:+ String c EmptyString) = s +:+ String c EmptyString.
Proof.
  intros Hc. induction s as [|c' s IH].
  - cbn. by rewrite Hc.
  - cbn [String.append trim_end]. rewrite IH. by destruct s.
Qed.

Lemma object_trimmed (members : list (string * JsonValue)) :
  trimmed ("data: " +:+ JSON_stringify (JObject members)) = true.
Proof.
  cbn [JSON_stringify].
  set (inner := join "," (map _ members)).
  change ("data: " +:+ "{" +:+ inner +:+ "}")
    with (String "d" (("ata: {" +:+ inner) +:+ String "}" EmptyString)).
  unfold trimmed, trim. cbn [trim_start].
  change (is_white_space "d") with false. cbv iota.
  change (String "d" (("ata: {" +:+ inner) +:+ String "}" EmptyString))
    with ((String "d" ("ata: {" +:+ inner)) +:+ String "}" EmptyString).
  rewrite trim_end_snoc_keep by reflexivity. apply String.eqb_refl.
Qed.

Lemma object_event_clean (name : string) (members : list (string * JsonValue)) :
  Forall (λ kv, flat (snd kv) = true) members →
  has_line_sep name = false →
  trimmed ("event: " +:+ name) = true →
  clean (ServerSentEvent.mk (Some (JSON_stringify (JObject members))) (Some name) None None)
  = true.
Proof.
  intros Hflat Hname Htrim. unfold clean.
  cbn [ServerSentEvent.data ServerSentEvent.event ServerSentEvent.id ServerSentEvent.retry].
  by rewrite (object_no_line_sep members Hflat), Hname, object_trimmed, Htrim.
Qed.

Lemma text_object_flat (text : option string) :
  ∃ members, text_object text = JObject members
             ∧ Forall (λ kv, flat (snd kv) = true) members.
Proof. destruct text; eexists; (split; [reflexivity|]); repeat constructor. Qed.

Lemma error_data_flat (text : option string) (allowRetry : option bool)
    (errorType : option string) :
  ∃ members, modelDump (error_data text allowRetry errorType) = JObject members
             ∧ Forall (λ kv, flat (snd kv) = true) members.
Proof.
  unfold error_data.
  destruct (truthy text), (truthy errorType); eexists; (split; [reflexivity|]);
    repeat constructor.
Qed.

Lemma errorEvent_clean (text : option string) (allowRetry : option bool)
    (errorType : option string) :
  clean (errorEvent text allowRetry errorType) = true.
Proof.
  unfold errorEvent.
  destruct (error_data_flat text allowRetry errorType) as (members & -> & Hflat).
  by apply object_event_clean.
Qed.

Lemma translate_clean (item : Item.t) :
  isEventMessage item = false → Forall (λ e, clean e = true) (translate item).
Proof.
  intros Hraw. unfold translate. rewrite Hraw.
  destruct (isErrorMessage item); [repeat constructor; apply errorEvent_clean|].
  destruct (isMetaMessage item).
  { repeat constructor. unfold metaEvent. apply object_event_clean; [|reflexivity..].
    repeat constructor. }
  destruct (isPartialMessage item); [|constructor].
  destruct (text_object_flat (Item.text item)) as (members & Hm & Hflat).
  destruct (Item.isSuggestedReply item); [|destruct (Item.isReplaceResponse item)];
    repeat constructor;
    unfold suggestedReplyEvent, replaceResponseEvent, textEvent; rewrite Hm;
    by apply object_event_clean.
Qed.

Lemma run_steps_clean (steps : list HandlerStep) :
  forallb (λ step, negb (yields_raw_event step)) steps = true →
  ∀ bot, Forall (λ e, clean e = true) (run_steps steps bot).2.
Proof.
  induction steps as [|step steps IH]; intros Hall bot; [constructor|].
  cbn [forallb] in Hall. apply andb_true_iff in Hall as [Hstep Hall].
  apply negb_true_iff in Hstep.
  cbn [run_steps].
  destruct step as [item|m task|tid].
  - specialize (IH Hall bot). destruct (run_steps steps bot) as [bot2 evs'].
    cbn [snd] in *. apply Forall_app. split; [by apply translate_clean|exact IH].
  - specialize (IH Hall (postMessageAttachment_start m task bot)).
    by destruct (run_steps steps _) as [bot2 evs'].
  - specialize (IH Hall (postMessageAttachment_finally tid bot)).
    by destruct (run_steps steps _) as [bot2 evs'].
Qed.

Lemma handleQuery_clean (messageId : string) (handler : Handler) (bot : PoeBot) :
  forallb (λ step, negb (yields_raw_event step)) (steps handler) = true →
  Forall (λ e, clean e = true) (handleQuery messageId handler bot).2.
Proof.
  intros Hall. unfold handleQuery.
  pose proof (run_steps_clean (steps handler) Hall bot) as Hevs.
  destruct (run_steps (steps handler) bot) as [bot1 evs].
  destruct (processPendingAttachmentRequests messageId bot1) as [bot2 r].
  destruct (ending handler); cbn [snd] in *; [| |exact Hevs].
  - repeat apply Forall_app_2; try done; [|by repeat constructor].
    destruct r; repeat constructor. apply errorEvent_clean.
  - repeat apply Forall_app_2; try done; [| |by repeat constructor].
    + repeat constructor. apply errorEvent_clean.
    + destruct r; repeat constructor. apply errorEvent_clean.
Qed.

(** X9: the events of [handleQuery], for a bot that yields no object with
    the property [event], reach the client as they were yielded: written on
    the response with the separator [\r\n] or [\n], they are the events
    that [iterSSE] yields, in order, each with the empty id; when the
    generator of [handleQuery] completes, that is unless the bot throws
    [null] or [undefined], the last one is the [done] event. *)
Theorem handleQuery_on_the_wire (messageId : string) (handler : Handler) (bot : PoeBot)
    (sep : string) (chunks : list string) :
  forallb (λ step, negb (yields_raw_event step)) (steps handler) = true →
  sep = CRLF ∨ sep = String LF EmptyString →
  join EmptyString chunks = response_body (handleQuery messageId handler bot).2 sep →
  iterSSE_events chunks = map arrived (handleQuery messageId handler bot).2
  ∧ (completes handler = true →
     last (iterSSE_events chunks) = Some (arrived doneEvent)).
Proof.
  intros Hall Hsep Hbody.
  assert (H : iterSSE_events chunks = map arrived (handleQuery messageId handler bot).2).
  { apply (iterSSE_events_clean sep); [exact Hsep| |exact Hbody].
    by apply handleQuery_clean. }
  split; [exact H|]. intros Hc. rewrite H.
  destruct (handleQuery_events messageId handler bot Hc) as (evs & drained & ->).
  rewrite !map_app. cbn [map]. by rewrite !app_assoc, last_snoc.
Qed.

Lemma handleQuery_on_the_wire_witness :
  let handler := mkHandler [Yield (partial_response "hi")] (Throws "boom") in
  iterSSE_events [response_body (handleQuery "m1" handler new_bot).2 CRLF]
  = map arrived (handleQuery "m1" handler new_bot).2.
Proof.
  cbv zeta.
  apply (handleQuery_on_the_wire "m1"
           (mkHandler [Yield (partial_response "hi")] (Throws "boom")) new_bot CRLF).
  - reflexivity.
  - by left.
  - reflexivity.
Defined.

(** ** The texts of the server read by the client *)

Lemma parse_escape_char (c : ascii) (rest : string) :
  parse_string_body (escape_char c +:+ rest)
  = (λ r, (String c (fst r), snd r)) <$> parse_string_body rest.
Proof. destruct c as [[] [] [] [] [] [] [] []]; reflexivity. Qed.

Lemma parse_string_body_escape (s rest : string) :
  parse_string_body (escape_string s +:+ String DQ rest) = Some (s, rest).
Proof.
  induction s as [|c s IH]; [reflexivity|].
  cbn [escape_string]. rewrite append_assoc, parse_escape_char, IH. reflexivity.
Qed.

Lemma quote_append (s rest : string) :
  quote s +:+ rest = String DQ (escape_string s +:+ String DQ rest).
Proof. unfold quote. cbn [String.append]. by rewrite append_assoc. Qed.

Lemma parse_value_flat (v : JsonValue) (fuel : nat) (rest : string) :
  flat v = true →
  parse_value (S fuel) (JSON_stringify v +:+ rest) = Some (v, rest).
Proof.
  destruct v as [|[]| |s| |]; try discriminate; intros _; try reflexivity.
  cbn [JSON_stringify]. rewrite quote_append.
  cbn [parse_value skip_ws]. change (is_json_ws DQ) with false. cbv iota.
  change (Ascii.eqb DQ "{") with false. change (Ascii.eqb DQ "[") with false.
  change (Ascii.eqb DQ DQ) with true. cbv iota.
  by rewrite parse_string_body_escape.
Qed.

Lemma parse_members_flat (members : list (string * JsonValue)) :
  members ≠ [] →
  Forall (λ kv, flat (snd kv) = true) members →
  ∀ (acc : list (string * JsonValue)) (fuel fuel' : nat) (rest : string),
    (length members ≤ fuel)%nat →
    parse_members fuel (parse_value (S fuel'))
      (join "," (map (λ kv, quote (fst kv) +:+ ":" +:+ JSON_stringify (snd kv)) members)
       +:+ String "}" rest) acc
    = Some (fold_left (λ result kv, obj_set (fst kv) (snd kv) result) members acc, rest).
Proof.
  intros Hne Hflat. induction Hflat as [|[k v] members Hv Hflat IH]; [done|].
  intros acc fuel fuel' rest Hlen. cbn [length] in Hlen.
  destruct fuel as [|fuel]; [lia|].
  cbn [fst snd] in Hv.
  destruct members as [|m members].
  - cbn [map join String.concat fold_left fst snd].
    rewrite append_assoc, quote_append.
    cbn [parse_members skip_ws]. change (is_json_ws DQ) with false. cbv iota.
    change (Ascii.eqb DQ DQ) with true. cbv iota.
    rewrite parse_string_body_escape.
    cbn [String.append skip_ws]. change (is_json_ws ":") with false. cbv iota.
    change (Ascii.eqb ":" ":") with true. cbv iota.
    rewrite ?append_assoc, parse_value_flat by done.
    reflexivity.
  - assert (Hj : join "," (map (λ kv, quote (fst kv) +:+ ":" +:+ JSON_stringify (snd kv))
                             ((k, v) :: m :: members))
                 = quote k +:+ ":" +:+ JSON_stringify v +:+ ","
                   +:+ join "," (map (λ kv, quote (fst kv) +:+ ":" +:+ JSON_stringify (snd kv))
                                   (m :: members))).
    { unfold join. cbn [map String.concat fst snd]. by rewrite !append_assoc. }
    rewrite Hj. clear Hj.
    rewrite !append_assoc, quote_append.
    cbn [parse_members skip_ws]. change (is_json_ws DQ) with false. cbv iota.
    change (Ascii.eqb DQ DQ) with true. cbv iota.
    rewrite parse_string_body_escape.
    cbn [String.append skip_ws]. change (is_json_ws ":") with false. cbv iota.
    change (Ascii.eqb ":" ":") with true. cbv iota.
    rewrite parse_value_flat by done.
    cbn [skip_ws]. change (is_json_ws ",") with false. cbv iota.
    change (Ascii.eqb "," ",") with true. cbv iota.
    cbn [fold_left fst snd]. apply IH; [done|]. cbn [length] in *. lia.
Qed.

Lemma join_cons (sep x y : string) (l : list string) :
  join sep (x :: y :: l) = x +:+ sep +:+ join sep (y :: l).
Proof. reflexivity. Qed.

Lemma length_join_members (members : list (string * JsonValue)) :
  (length members
   ≤ String.length
       (join "," (map (λ kv, quote (fst kv) +:+ ":" +:+ JSON_stringify (snd kv)) members)))%nat.
Proof.
  induction members as [|[k v] members IH]; [reflexivity|].
  destruct members as [|m members].
  - cbn [map join String.concat fst snd]. rewrite quote_append.
    cbn [String.length length]. lia.
  - cbn [map fst snd] in IH |- *. rewrite join_cons.
    rewrite !length_append. cbn [String.length length] in *. lia.
Qed.

Lemma JSON_parse_flat_object (members : list (string * JsonValue)) :
  NoDup (map fst members) →
  Forall (λ kv, flat (snd kv) = true) members →
  JSON_parse (JSON_stringify (JObject members)) = Some (JObject members).
Proof.
  intros Hnd Hflat. destruct members as [|m members]; [reflexivity|].
  set (ms := m :: members) in *.
  cbn [JSON_stringify].
  set (inner := join "," (map _ ms)).
  unfold JSON_parse.
  change ("{" +:+ inner +:+ "}") with (String "{" (inner +:+ String "}" EmptyString)).
  assert (Hstart : ∃ tail, inner +:+ String "}" EmptyString = String DQ tail).
  { subst inner ms. destruct m as [k v]. destruct members as [|m' members].
    - cbn [map join String.concat fst snd]. rewrite ?append_assoc, quote_append. by eexists.
    - cbn [map fst snd]. rewrite join_cons, ?append_assoc, quote_append. by eexists. }
  destruct Hstart as (tail & Htail).
  assert (Hlen : (length ms < String.length (String "{" (inner +:+ String "}" EmptyString)))%nat).
  { cbn [String.length]. rewrite length_append.
    pose proof (length_join_members ms). subst inner. lia. }
  remember (String.length (String "{" (inner +:+ String "}" EmptyString))) as fuel eqn:Hfuel.
  clear Hfuel.
  cbn [parse_value skip_ws].
  change (is_json_ws "{") with false. cbv iota.
  change (Ascii.eqb "{" "{") with true. cbv iota.
  rewrite Htail at 1. cbn [skip_ws]. change (is_json_ws DQ) with false. cbv iota.
  change (Ascii.eqb DQ "}") with false. cbv iota.
  destruct fuel as [|fuel']; [lia|].
  subst inner. rewrite parse_members_flat; [|done|exact Hflat|lia].
  pose proof (fold_obj_set id id ms [] Hnd) as Hfold. unfold id in Hfold.
  assert (Hid : map (λ kv : string * JsonValue, (fst kv, snd kv)) ms = ms).
  { rewrite <- (map_id ms) at 2. apply map_ext. by intros []. }
  cbn [fmap option_fmap option_map fst snd skip_ws]. by rewrite Hfold, Hid.
Qed.

Lemma translate_text_item (m : string * bool * bool) :
  translate (text_item m) = [text_event m].
Proof. by destruct m as [[text []] []]. Qed.

Lemma run_steps_text_bot (messages : list (string * bool * bool)) (bot : PoeBot) :
  run_steps (map (λ m, Yield (text_item m)) messages) bot = (bot, map text_event messages).
Proof.
  induction messages as [|m messages IH]; [reflexivity|].
  cbn [map run_steps]. by rewrite IH, translate_text_item.
Qed.

Lemma handleQuery_text_bot (messageId : string) (messages : list (string * bool * bool))
    (stop : HandlerEnd) (bot : PoeBot) :
  pendingFileAttachmentTasks bot !! messageId = None →
  inherited messageId = false →
  (handleQuery messageId (text_bot messages stop) bot).2
  = map text_event messages
    ++ match stop with
       | Returns => [doneEvent]
       | Throws m => [errorEvent (Some m) (Some false) None; doneEvent]
       | ThrowsNullish => []
       end.
Proof.
  intros Hnone Hown. unfold handleQuery, text_bot. cbn [steps ending].
  rewrite run_steps_text_bot. unfold processPendingAttachmentRequests.
  rewrite Hnone, Hown. destruct stop; cbn [snd app]; [reflexivity..|by rewrite app_nil_r].
Qed.

Lemma JSON_parse_text_object (text : string) :
  JSON_parse (JSON_stringify (text_object (Some text))) = Some (JObject [("text", JString text)]).
Proof.
  apply JSON_parse_flat_object; [|by repeat constructor].
  cbn. apply NoDup_singleton.
Qed.

Lemma handle_suggested_reply (parse : string → option JsonValue)
    (report : string → Result Thrown unit) (tools : bool)
    (data : option string) (st : QueryState) (v : JsonValue) (text : string) :
  parse_data parse data = Some v → js_get "text" v = Some (JString text) →
  handle_event parse report tools (sse_event "suggested_reply" data) st
  = ([Yielded (text_response text true false)],
     Ok (Continue (mkQueryState (chunks st) (S (eventCount st)) (errorReported st)))).
Proof.
  intros Hp Ht. unfold handle_event. cbn [ServerSentEvent.event ServerSentEvent.data sse_event].
  repeat (rewrite bool_decide_eq_false_2 by discriminate).
  rewrite (bool_decide_eq_true_2 (Some "suggested_reply" = Some "suggested_reply"))
    by reflexivity.
  by rewrite (getSingleJsonField_ok parse report data "suggested_reply" v text Hp Ht).
Qed.

Lemma handle_done_event (parse : string → option JsonValue)
    (report : string → Result Thrown unit) (tools : bool)
    (data : option string) (st : QueryState) :
  handle_event parse report tools (sse_event "done" data) st
  = if bool_decide (chunks st = []) && negb (errorReported st) && negb tools
    then ([Reported "Bot returned no text in response"],
          match report "Bot returned no text in response" with
          | Ok _ => Ok Return
          | Throw e => Throw e
          end)
    else ([], Ok Return).
Proof.
  unfold handle_event. cbn [ServerSentEvent.event ServerSentEvent.data sse_event].
  rewrite (bool_decide_eq_true_2 (Some "done" = Some "done")) by reflexivity.
  cbn [chunks errorReported].
  destruct (bool_decide (chunks st = []) && negb (errorReported st) && negb tools);
    [|reflexivity].
  unfold reportError, gen_bind, gen_ret.
  by destruct (report "Bot returned no text in response").
Qed.

Lemma handle_error_event (report : string → Result Thrown unit) (tools : bool)
    (text : option string) (allowRetry : option bool)
    (errorType : option string) (st : QueryState) :
  let data := JSON_stringify (modelDump (error_data text allowRetry errorType)) in
  handle_event JSON_parse report tools (arrived (errorEvent text allowRetry errorType)) st
  = ([], Throw (if default true allowRetry then BotError data else BotErrorNoRetry data)).
Proof.
  cbv zeta. unfold handle_event, arrived, errorEvent.
  cbn [ServerSentEvent.event ServerSentEvent.data].
  repeat (rewrite bool_decide_eq_false_2 by discriminate).
  rewrite (bool_decide_eq_true_2 (Some "error" = Some "error")) by reflexivity.
  assert (Hparse : ∃ members,
             modelDump (error_data text allowRetry errorType) = JObject members
             ∧ JSON_parse (JSON_stringify (JObject members)) = Some (JObject members)
             ∧ obj_get "allow_retry" members = Some (JBool (default true allowRetry))).
  { unfold error_data.
    set (a := ("allow_retry", JBool (default true allowRetry))).
    set (t := ("text", JString (default EmptyString text))).
    set (e := ("error_type", JString (default EmptyString errorType))).
    destruct (truthy text), (truthy errorType);
      [exists [a; t; e]|exists [a; t]|exists [a; e]|exists [a]];
      (split; [by vm_compute|]); (split; [|reflexivity]);
      (apply JSON_parse_flat_object;
       [apply (bool_decide_unpack _); by vm_compute|subst a t e; repeat constructor]). }
  destruct Hparse as (members & Hm & Hp & Hget). rewrite Hm.
  rewrite (loadJsonDict_ok JSON_parse report (Some (JSON_stringify (JObject members))) "error"
             (JObject members) Hp eq_refl).
  rewrite gen_bind_ret_l. cbn [js_get]. rewrite Hget.
  destruct (default true allowRetry); reflexivity.
Qed.

(** The loop of the client over the texts of the bot. *)
Lemma consume_texts (report : string → Result Thrown unit) (tools : bool)
    (messages : list (string * bool * bool)) :
  ∀ (rest : list SSE) (failure : option Thrown) (st : QueryState),
    consume JSON_parse report tools (map arrived (map text_event messages) ++ rest) failure st
    = let '(out, r) :=
        consume JSON_parse report tools rest failure
          (mkQueryState
             (fold_left
                (λ chunks message,
                   if isMetaResponse message then chunks
                   else if Response.isSuggestedReply message then chunks
                   else (if Response.isReplaceResponse message then [] else chunks)
                        ++ [Response.text message])
                (map received messages) (chunks st))
             (eventCount st + length messages) (errorReported st)) in
      (map (λ m, Yielded (received m)) messages ++ out, r).
Proof.
  induction messages as [|[[text suggested] replace] messages IH]; intros rest failure st.
  - cbn [map app fold_left length]. rewrite Nat.add_0_r.
    destruct st. cbn [chunks eventCount errorReported].
    by destruct (consume JSON_parse report tools rest failure _).
  - cbn [map app consume fold_left length].
    assert (Hp : parse_data JSON_parse (Some (JSON_stringify (text_object (Some text))))
                 = Some (JObject [("text", JString text)])).
    { apply JSON_parse_text_object. }
    assert (Hstep : handle_event JSON_parse report tools (arrived (text_event (text, suggested, replace))) st
                    = ([Yielded (received (text, suggested, replace))],
                       Ok (Continue
                             (mkQueryState
                                (if suggested then chunks st
                                 else (if replace then [] else chunks st) ++ [text])
                                (S (eventCount st)) (errorReported st))))).
    { unfold text_event, received. destruct suggested, replace.
      - apply (handle_suggested_reply JSON_parse report tools _ st _ text Hp eq_refl).
      - apply (handle_suggested_reply JSON_parse report tools _ st _ text Hp eq_refl).
      - apply (handle_replace_response JSON_parse report tools
                 (arrived (replaceResponseEvent (Some text))) st _ text eq_refl Hp eq_refl).
      - apply (handle_text JSON_parse report tools _ st _ text Hp eq_refl). }
    rewrite Hstep. unfold gen_bind at 1. rewrite IH.
    cbn [chunks eventCount errorReported].
    replace (S (eventCount st) + length messages)%nat
      with (eventCount st + S (length messages))%nat by lia.
    assert (Hchunks :
              (if isMetaResponse (received (text, suggested, replace)) then chunks st
               else if Response.isSuggestedReply (received (text, suggested, replace))
                    then chunks st
                    else (if Response.isReplaceResponse (received (text, suggested, replace))
                          then [] else chunks st)
                         ++ [Response.text (received (text, suggested, replace))])
              = (if suggested then chunks st
                 else (if replace then [] else chunks st) ++ [text])).
    { by destruct suggested, replace. }
    rewrite Hchunks.
    by destruct (consume JSON_parse report tools rest failure _).
Qed.

Lemma yielded_received (messages : list (string * bool * bool)) (out : list Output) :
  yielded (map (λ m, Yielded (received m)) messages ++ out)
  = map received messages ++ yielded out.
Proof.
  unfold yielded. rewrite omap_app. f_equal.
  induction messages as [|m messages IH]; [reflexivity|]. cbn. by rewrite IH.
Qed.

Lemma text_bot_no_raw_event (messages : list (string * bool * bool)) (stop : HandlerEnd) :
  forallb (λ step, negb (yields_raw_event step)) (steps (text_bot messages stop)) = true.
Proof.
  unfold text_bot. cbn [steps].
  induction messages as [|[[text suggested] replace] messages IH]; [reflexivity|].
  cbn [map forallb]. rewrite IH. reflexivity.
Qed.

Lemma query_text_bot (report : string → Result Thrown unit) (messageId : string)
    (messages : list (string * bool * bool))
    (stop : HandlerEnd) (bot : PoeBot) (sep : string) (parts : list string) (tools : bool) :
  pendingFileAttachmentTasks bot !! messageId = None →
  inherited messageId = false →
  sep = CRLF ∨ sep = String LF EmptyString →
  join EmptyString parts
  = response_body (handleQuery messageId (text_bot messages stop) bot).2 sep →
  match stop with
  | Returns =>
      query report tools parts
      = if bool_decide (collect_chunks (map received messages) = []) && negb tools
        then (map (λ m, Yielded (received m)) messages
              ++ [Reported "Bot returned no text in response"],
              report "Bot returned no text in response")
        else (map (λ m, Yielded (received m)) messages, Ok tt)
  | Throws m =>
      query report tools parts
      = (map (λ m, Yielded (received m)) messages, Throw (BotErrorNoRetry (caught_error m)))
  | ThrowsNullish => True
  end.
Proof.
  intros Hnone Hown Hsep Hbody. unfold query, performQueryRequest.
  cbn [reply_events reply_failure].
  rewrite (iterSSE_events_clean sep _ parts Hsep
             (handleQuery_clean messageId (text_bot messages stop) bot
                (text_bot_no_raw_event messages stop))
             Hbody).
  rewrite (handleQuery_text_bot messageId messages stop bot Hnone Hown).
  destruct stop as [|m|]; [| |exact I].
  - rewrite map_app, consume_texts. cbn [chunks eventCount errorReported].
    fold (collect_chunks (map received messages)).
    cbn [app map consume]. change (arrived doneEvent) with (sse_event "done" (Some "{}")).
    rewrite handle_done_event. cbn [chunks errorReported negb andb].
    rewrite andb_true_r.
    destruct (bool_decide (collect_chunks (map received messages) = []) && negb tools).
    + unfold gen_bind, gen_ret.
      by destruct (report "Bot returned no text in response") as [[]|e].
    + unfold gen_bind, gen_ret. by rewrite !app_nil_r.
  - rewrite map_app, consume_texts. cbn [chunks eventCount errorReported].
    cbn [app map consume]. rewrite handle_error_event. cbn [default]. unfold id.
    unfold gen_bind. by rewrite app_nil_r.
Qed.

(** X10: a bot that yields texts, replacements and suggested replies and
    returns, served by [handleQuery] (with no pending upload for the
    message, whose id is not a name that the table inherits) and read by
    [performQueryRequest] from the body of the response: the client yields
    one message for every response of the bot, in order, with its text and
    flags; when a message contributes to the final text, or tools were
    given, it then returns without a report; otherwise it reports the
    missing text and ends as the report does, returning when the bot
    accepts the report and throwing the error of the report when it does
    not. [getFinalResponse] returns the texts after the last replacement
    joined when there are some; when there are none and the report is
    accepted, it throws "Bot <name> sent no response". *)
Theorem bot_to_client (report : string → Result Thrown unit) (messageId botName : string)
    (messages : list (string * bool * bool))
    (bot : PoeBot) (sep : string) (parts : list string) (tools : bool) (n : nat) :
  pendingFileAttachmentTasks bot !! messageId = None →
  inherited messageId = false →
  sep = CRLF ∨ sep = String LF EmptyString →
  join EmptyString parts
  = response_body (handleQuery messageId (text_bot messages Returns) bot).2 sep →
  let texts := collect_chunks (map received messages) in
  let missing := "Bot returned no text in response" in
  query report tools parts
  = (if bool_decide (texts = []) && negb tools
     then (map (λ m, Yielded (received m)) messages ++ [Reported missing], report missing)
     else (map (λ m, Yielded (received m)) messages, Ok tt))
  ∧ (texts ≠ [] →
     getFinalResponse botName (S n) (λ _, query report false parts)
     = Ok (join EmptyString texts))
  ∧ (texts = [] → report missing = Ok tt →
     getFinalResponse botName (S n) (λ _, query report false parts)
     = Throw (BotError ("Bot " +:+ botName +:+ " sent no response"))).
Proof.
  intros Hnone Hown Hsep Hbody texts missing.
  assert (Hq : ∀ t, query report t parts
                    = if bool_decide (texts = []) && negb t
                      then (map (λ m, Yielded (received m)) messages ++ [Reported missing],
                            report missing)
                      else (map (λ m, Yielded (received m)) messages, Ok tt)).
  { intros t.
    apply (query_text_bot report messageId messages Returns bot sep parts t
             Hnone Hown Hsep Hbody). }
  split; [apply Hq|]. split.
  - intros Htexts. unfold getFinalResponse, streamRequestBase. cbn [retry_loop].
    rewrite Hq. rewrite (bool_decide_eq_false_2 (texts = [])) by done.
    cbn [andb result outputs].
    rewrite <- (app_nil_r (map (λ m, Yielded (received m)) messages)).
    rewrite yielded_received, app_nil_r. fold texts.
    by rewrite (bool_decide_eq_false_2 (texts = [])) by done.
  - intros Htexts Hreport. unfold getFinalResponse, streamRequestBase. cbn [retry_loop].
    rewrite Hq. rewrite (bool_decide_eq_true_2 (texts = [])) by done.
    cbn [andb negb]. rewrite Hreport. cbn [result outputs].
    rewrite yielded_received.
    change (yielded [Reported missing]) with (@nil Response.t). rewrite app_nil_r.
    fold texts. by rewrite Htexts.
Qed.

Lemma bot_to_client_witness :
  getFinalResponse "echo" 2
    (λ _, query accepted false
            [response_body
               (handleQuery "m1"
                  (text_bot [("draft", false, false); ("Hello", false, true);
                             ("More?", true, false); (" world", false, false)] Returns)
                  new_bot).2 CRLF])
  = Ok "Hello world".
Proof.
  apply (proj1 (proj2 (bot_to_client accepted "m1" "echo"
                  [("draft", false, false); ("Hello", false, true);
                   ("More?", true, false); (" world", false, false)]
                  new_bot CRLF
                  [response_body
                     (handleQuery "m1"
                        (text_bot [("draft", false, false); ("Hello", false, true);
                                   ("More?", true, false); (" world", false, false)] Returns)
                        new_bot).2 CRLF]
                  false 1 eq_refl eq_refl (or_introl eq_refl) eq_refl))).
  discriminate.
Defined.

(** X11: when the bot throws a value other than [null] and [undefined]
    after its responses (there is no pending upload for the message, whose
    id is not a name that the table inherits), the client yields the
    messages of these responses and then throws [BotErrorNoRetry] with the
    data of the error event, which holds the message of the thrown value
    when it has one; nothing is reported; [streamRequestBase] makes a
    single call, whatever the number of tries, does not sleep, and throws
    that error. *)
Theorem bot_exception_not_retried (report : string → Result Thrown unit)
    (messageId botName message : string)
    (messages : list (string * bool * bool)) (bot : PoeBot) (sep : string)
    (parts : list string) (tools : bool) (n : nat) :
  pendingFileAttachmentTasks bot !! messageId = None →
  inherited messageId = false →
  sep = CRLF ∨ sep = String LF EmptyString →
  join EmptyString parts
  = response_body (handleQuery messageId (text_bot messages (Throws message)) bot).2 sep →
  let error := BotErrorNoRetry (caught_error message) in
  let stream := streamRequestBase botName (S n) (λ _, query report tools parts) in
  query report tools parts = (map (λ m, Yielded (received m)) messages, Throw error)
  ∧ calls stream = 1%nat ∧ sleeps stream = 0%nat
  ∧ outputs stream = map (λ m, Yielded (received m)) messages
  ∧ result stream = Throw error.
Proof.
  intros Hnone Hown Hsep Hbody error stream.
  pose proof (query_text_bot report messageId messages (Throws message) bot sep parts tools
                Hnone Hown Hsep Hbody) as Hq. cbv iota in Hq.
  split; [exact Hq|].
  subst stream. unfold streamRequestBase. cbn [retry_loop]. rewrite Hq.
  change (isBotErrorNoRetry (BotErrorNoRetry (caught_error message))) with true.
  cbv iota. cbn [calls sleeps outputs result].
  by repeat split.
Qed.

Lemma bot_exception_not_retried_witness :
  calls (streamRequestBase "echo" 3
           (λ _, query accepted false
                   [response_body
                      (handleQuery "m1"
                         (text_bot [("partial", false, false)] (Throws "boom")) new_bot).2
                      CRLF]))
  = 1%nat.
Proof.
  apply (bot_exception_not_retried accepted "m1" "echo" "boom" [("partial", false, false)]
           new_bot CRLF
           [response_body
              (handleQuery "m1"
                 (text_bot [("partial", false, false)] (Throws "boom")) new_bot).2
              CRLF]
           false 2 eq_refl eq_refl (or_introl eq_refl) eq_refl).
Defined.

(** ** The retry loop and the loop of the client *)

Lemma retry_loop_accounting (botName : string) (attempt : nat → Gen unit) (remaining : nat) :
  ∀ (i : nat) (gotResponse : bool),
    let stream := retry_loop botName attempt remaining i gotResponse in
    outputs stream = concat (map (λ j, fst (attempt j)) (seq i (calls stream)))
    ∧ (sleeps stream ≤ calls stream - 1)%nat
    ∧ (calls stream = 0%nat ↔ remaining = 0%nat)
    ∧ (result stream = Ok tt →
       calls stream = remaining
       ∨ ∃ out, attempt (i + calls stream - 1)%nat = (out, Ok tt)).
Proof.
  induction remaining as [|r IH]; intros i gotResponse.
  { cbn. repeat split; try done. by left. }
  cbv zeta. cbn [retry_loop].
  destruct (attempt i) as [out res] eqn:Hi.
  assert (Hone : out = concat (map (λ j, fst (attempt j)) (seq i 1))).
  { cbn. by rewrite Hi, app_nil_r. }
  destruct res as [[]|e].
  { cbn [outputs calls sleeps result]. repeat split; try done; try lia.
    intros _. right. exists out. by replace (i + 1 - 1)%nat with i by lia. }
  destruct (isBotErrorNoRetry e).
  { cbn [outputs calls sleeps result]. repeat split; try done; lia. }
  specialize (IH (S i) (gotResponse || has_yield out)). cbv zeta in IH.
  destruct IH as (Hout & Hsl & Hc & Hok).
  set (next := retry_loop botName attempt r (S i) (gotResponse || has_yield out)) in *.
  assert (Hnext : ∀ sl,
             (sl ≤ sleeps next)%nat ∨ ((sl ≤ S (sleeps next))%nat ∧ r ≠ 0%nat) →
             out ++ outputs next
             = concat (map (λ j, fst (attempt j)) (seq i (S (calls next))))
             ∧ (sl ≤ S (calls next) - 1)%nat
             ∧ (S (calls next) = 0%nat ↔ S r = 0%nat)
             ∧ (result next = Ok tt →
                S (calls next) = S r
                ∨ ∃ out', attempt (i + S (calls next) - 1)%nat = (out', Ok tt))).
  { intros sl Hle. split; [|split; [|split]].
    - cbn [seq map concat]. by rewrite Hi, Hout.
    - lia.
    - split; intros; lia.
    - intros Hres. destruct (Hok Hres) as [Heq|(out' & Hat)]; [left; lia|].
      destruct (Nat.eq_dec (calls next) 0%nat) as [Hz|Hnz].
      + left. destruct Hc as [Hc _]. by rewrite (Hc Hz), Hz.
      + right. exists out'. rewrite <- Hat. f_equal. lia. }
  destruct (isError e).
  - destruct (Nat.eqb_spec r 0%nat) as [Hr|Hr].
    + rewrite orb_true_r. cbn [outputs calls sleeps result]. repeat split; try done; lia.
    + rewrite orb_false_r.
      destruct ((gotResponse || has_yield out)
                && negb (isAxiosError e && bool_decide (code e = Some "ECONNABORTED"))).
      * cbn [outputs calls sleeps result]. repeat split; try done; lia.
      * cbn [outputs calls sleeps result]. apply Hnext. right. split; [lia|done].
  - cbn [outputs calls sleeps result]. apply Hnext. left. lia.
Qed.

Lemma retry_loop_swallows (botName : string) (attempt : nat → Gen unit) (remaining : nat) :
  (∀ j, ∃ out e, attempt j = (out, Throw e) ∧ isError e = false) →
  ∀ (i : nat) (gotResponse : bool),
    let stream := retry_loop botName attempt remaining i gotResponse in
    calls stream = remaining ∧ sleeps stream = 0%nat ∧ result stream = Ok tt.
Proof.
  intros Hall. induction remaining as [|r IH]; intros i gotResponse; [done|].
  cbv zeta. cbn [retry_loop].
  destruct (Hall i) as (out & e & -> & He).
  assert (Hn : isBotErrorNoRetry e = false).
  { unfold isBotErrorNoRetry. unfold isError in He. by rewrite He. }
  rewrite Hn, He. cbn [calls sleeps result].
  destruct (IH (S i) (gotResponse || has_yield out)) as (-> & -> & ->). done.
Qed.

(** X12: the outputs of [streamRequestBase] are those of its calls of
    [performQueryRequest], in order; it sleeps at most once between two
    calls; it makes no call exactly when [numTries] is 0; when it ends
    normally, either its last call ended normally or it has used all its
    tries. When every call throws a value that is not an [Error], it uses
    all its tries without a sleep and ends normally: such a value is
    swallowed. *)
Theorem stream_accounting (botName : string) (numTries : nat) (attempt : nat → Gen unit) :
  let stream := streamRequestBase botName numTries attempt in
  outputs stream = concat (map (λ j, fst (attempt j)) (seq 0 (calls stream)))
  ∧ (sleeps stream ≤ calls stream - 1)%nat
  ∧ (calls stream = 0%nat ↔ numTries = 0%nat)
  ∧ (result stream = Ok tt →
     calls stream = numTries ∨ ∃ out, attempt (calls stream - 1)%nat = (out, Ok tt))
  ∧ ((∀ j, ∃ out e, attempt j = (out, Throw e) ∧ isError e = false) →
     calls stream = numTries ∧ sleeps stream = 0%nat ∧ result stream = Ok tt).
Proof.
  cbv zeta. unfold streamRequestBase.
  destruct (retry_loop_accounting botName attempt numTries 0 false) as (H1 & H2 & H3 & H4).
  split; [exact H1|]. split; [exact H2|]. split; [exact H3|]. split.
  - intros Hres. destruct (H4 Hres) as [?|(out & Hout)]; [by left|right].
    exists out. by rewrite <- Hout.
  - intros Hall. by apply retry_loop_swallows.
Qed.

Lemma stream_accounting_witness :
  let thrown := mkThrown false EmptyString "a string" false None in
  result (streamRequestBase "echo" 3 (λ _, ([], Throw thrown))) = Ok tt.
Proof.
  cbv zeta.
  apply (proj2 (proj2 (proj2 (proj2
           (stream_accounting "echo" 3
              (λ _, ([], Throw (mkThrown false EmptyString "a string" false None)))))))).
  intros j. by eexists _, _.
Defined.

Lemma handle_done_general (parse : string → option JsonValue)
    (report : string → Result Thrown unit) (tools : bool) (sse : SSE) (st : QueryState) :
  ServerSentEvent.event sse = Some "done" →
  handle_event parse report tools sse st
  = if bool_decide (chunks st = []) && negb (errorReported st) && negb tools
    then ([Reported "Bot returned no text in response"],
          match report "Bot returned no text in response" with
          | Ok _ => Ok Return
          | Throw e => Throw e
          end)
    else ([], Ok Return).
Proof.
  intros Hdone. unfold handle_event. rewrite Hdone.
  rewrite (bool_decide_eq_true_2 (Some "done" = Some "done")) by reflexivity.
  cbn [chunks errorReported].
  destruct (bool_decide (chunks st = []) && negb (errorReported st) && negb tools);
    [|reflexivity].
  unfold reportError, gen_bind, gen_ret.
  by destruct (report "Bot returned no text in response").
Qed.

Lemma consume_done (parse : string → option JsonValue)
    (report : string → Result Thrown unit) (tools : bool) (sse : SSE)
    (before after : list SSE) (failure : option Thrown) :
  ServerSentEvent.event sse = Some "done" →
  ∀ st, consume parse report tools (before ++ sse :: after) failure st
        = consume parse report tools (before ++ [sse]) None st.
Proof.
  intros Hdone. induction before as [|e before IH]; intros st.
  - cbn [app consume]. rewrite (handle_done_general parse report tools sse st Hdone).
    destruct (bool_decide _ && _ && _); [|reflexivity].
    by destruct (report "Bot returned no text in response").
  - cbn [app consume]. destruct (handle_event parse report tools e st) as [out [[st'|]|err]].
    + unfold gen_bind. by rewrite IH.
    + reflexivity.
    + reflexivity.
Qed.

(** X13: the [done] event ends the call of the client: the events that
    follow it, and a failure of the transport after it, change nothing. The
    event itself yields nothing. It makes the call return at once when a
    text was received, an error was reported before or tools were given;
    otherwise the client first reports the missing text, and the call
    returns when the bot accepts the report and throws the error of the
    report when it does not. *)
Theorem done_ends_request (parse : string → option JsonValue)
    (report : string → Result Thrown unit) (tools : bool) (sse : SSE)
    (before after : list SSE) (failure : option Thrown) :
  ServerSentEvent.event sse = Some "done" →
  performQueryRequest parse report tools (mkBotReply (before ++ sse :: after) failure)
  = performQueryRequest parse report tools (mkBotReply (before ++ [sse]) None)
  ∧ ∀ st, handle_event parse report tools sse st
          = if bool_decide (chunks st = []) && negb (errorReported st) && negb tools
            then ([Reported "Bot returned no text in response"],
                  match report "Bot returned no text in response" with
                  | Ok _ => Ok Return
                  | Throw e => Throw e
                  end)
            else ([], Ok Return).
Proof.
  intros Hdone. split.
  - unfold performQueryRequest. cbn [reply_events reply_failure]. by apply consume_done.
  - intros st. by apply handle_done_general.
Qed.

Lemma done_ends_request_witness :
  performQueryRequest JSON_parse accepted false
    (mkBotReply ([] ++ sse_event "done" None :: [sse_event "text" None]) (Some TypeError))
  = performQueryRequest JSON_parse accepted false
      (mkBotReply ([] ++ [sse_event "done" None]) None).
Proof.
  exact (proj1 (done_ends_request JSON_parse accepted false (sse_event "done" None) []
                  [sse_event "text" None] (Some TypeError) eq_refl)).
Defined.



Lemma collect_chunks_app (a b : list Response.t) :
  collect_chunks (a ++ b)
  = fold_left
      (λ chunks message,
         if isMetaResponse message then chunks
         else if Response.isSuggestedReply message then chunks
         else (if Response.isReplaceResponse message then [] else chunks)
              ++ [Response.text message])
      b (collect_chunks a).
Proof. unfold collect_chunks. by rewrite fold_left_app. Qed.

(** X15: in [getFinalResponse], a message with [isReplaceResponse] (that is
    neither a [MetaResponse] nor a suggested reply) discards every text
    received before it, and meta messages and suggested replies contribute
    nothing; so the texts kept are those of the plain messages when there
    is no replacement. *)
Theorem final_text (before after : list Response.t) (r : Response.t) :
  (isMetaResponse r = false → Response.isSuggestedReply r = false →
   Response.isReplaceResponse r = true →
   collect_chunks (before ++ r :: after) = collect_chunks (r :: after))
  ∧ (isMetaResponse r || Response.isSuggestedReply r = true →
     collect_chunks (before ++ r :: after) = collect_chunks (before ++ after))
  ∧ (Forall (λ m, isMetaResponse m = false ∧ Response.isSuggestedReply m = false
                  ∧ Response.isReplaceResponse m = false) after →
     collect_chunks (before ++ after) = collect_chunks before ++ map Response.text after).
Proof.
  split; [|split].
  - intros Hm Hs Hr. rewrite collect_chunks_app.
    unfold collect_chunks. cbn [fold_left]. by rewrite Hm, Hs, Hr.
  - intros H. rewrite !collect_chunks_app. cbn [fold_left].
    destruct (isMetaResponse r); [reflexivity|].
    cbn in H. by rewrite H.
  - intros Hall. rewrite collect_chunks_app. generalize (collect_chunks before).
    induction Hall as [|m after (Hm & Hs & Hr) _ IH]; intros acc.
    + by rewrite app_nil_r.
    + cbn [fold_left map]. rewrite Hm, Hs, Hr, IH. by rewrite <- app_assoc.
Qed.

Lemma final_text_witness :
  collect_chunks ([text_response "draft" false false]
                  ++ text_response "final" false true :: [text_response "!" false false])
  = collect_chunks (text_response "final" false true :: [text_response "!" false false]).
Proof.
  exact (proj1 (final_text [text_response "draft" false false]
                  [text_response "!" false false] (text_response "final" false true))
           eq_refl eq_refl eq_refl).
Defined.

(** ** The authorization of a POST *)

Lemma split_space_join (s : string) : join " " (split_space s) = s.
Proof.
  induction s as [|c s IH]; [reflexivity|]. cbn [split_space].
  destruct (Ascii.eqb_spec c " ") as [->|Hc].
  - destruct (split_space s) as [|h t] eqn:Hs.
    + by destruct s as [|c' s']; [|cbn in Hs; destruct (Ascii.eqb c' " "), (split_space s')].
    + rewrite join_cons. cbn [String.append]. by rewrite IH.
  - destruct (split_space s) as [|h t] eqn:Hs.
    + by destruct s as [|c' s']; [|cbn in Hs; destruct (Ascii.eqb c' " "), (split_space s')].
    + rewrite <- IH. unfold join. cbn [String.concat]. by destruct t.
Qed.

Lemma split_space_parts (s : string) :
  Forall (λ p, includes_char " "%char p = false) (split_space s).
Proof.
  induction s as [|c s IH]; [by repeat constructor|]. cbn [split_space].
  destruct (Ascii.eqb c " ") eqn:Hc.
  - constructor; [reflexivity|exact IH].
  - destruct (split_space s) as [|h t].
    + repeat constructor. cbn. by rewrite Hc.
    + apply Forall_cons in IH as [Hh Ht]. constructor; [|exact Ht]. cbn. by rewrite Hc, Hh.
Qed.

Lemma authorizePost_accepts (key header : string) :
  key ≠ EmptyString →
  authorizePost (Some key) (Some header) = Ok tt
  ↔ ∃ parts, split_space header = "Bearer" :: key :: parts.
Proof.
  intros Hkey. unfold authorizePost, extractAuthorization.
  assert (Hk : truthy (Some key) = true).
  { cbn. by destruct (String.eqb_spec key EmptyString). }
  rewrite Hk. cbn [negb].
  destruct (String.eqb_spec header EmptyString) as [->|Hh].
  { cbn. split; [discriminate|]. by intros (parts & [=]). }
  assert (Hth : truthy (Some header) = true).
  { cbn. by destruct (String.eqb_spec header EmptyString). }
  rewrite Hth. cbn [negb orb].
  destruct (split_space header) as [|sch [|cred parts]] eqn:Hs.
  - cbn. split; [discriminate|]. by intros (parts & [=]).
  - cbn. rewrite orb_true_r. split; [discriminate|]. by intros (parts & [=]).
  - cbn [lookup list_lookup truthy default from_option]. unfold id.
    destruct (String.eqb_spec sch EmptyString) as [->|Hsch].
    { cbn. split; [discriminate|]. by intros (parts' & [=]). }
    destruct (String.eqb_spec cred EmptyString) as [->|Hcred].
    { cbn. split; [discriminate|]. intros (parts' & [= _ Hc _]). by subst. }
    cbn [negb orb].
    destruct (String.eqb_spec (toLowerCase sch) "bearer") as [Hl|Hl]; cbn [negb].
    + cbn [scheme credentials].
      destruct (String.eqb_spec sch "Bearer") as [->|Hb]; cbn [negb orb].
      * destruct (decide (Some cred = Some key)) as [[= ->]|Hne].
        -- rewrite bool_decide_eq_true_2 by reflexivity. cbn. split; [|done]. by exists parts.
        -- rewrite bool_decide_eq_false_2 by done. cbn. split; [discriminate|].
           intros (parts' & [= Hc _]). by subst.
      * split; [discriminate|]. intros (parts' & [= Hc _]). by subst.
    + split; [discriminate|]. intros (parts' & [= -> _ _]). by destruct Hl.
Qed.

(** X16: a bot with an access key lets a POST through exactly when the
    access key holds no space and the Authorization header is the word
    [Bearer], one space and the key, possibly followed by a space and
    anything; the scheme in another case, such as [bearer], is refused. *)
Theorem auth_acceptance (key header : string) :
  key ≠ EmptyString →
  authorizePost (Some key) (Some header) = Ok tt
  ↔ includes_char " "%char key = false
    ∧ (header = "Bearer " +:+ key ∨ ∃ rest, header = "Bearer " +:+ key +:+ " " +:+ rest).
Proof.
  intros Hkey. rewrite (authorizePost_accepts key header Hkey). split.
  - intros (parts & Hs).
    pose proof (split_space_parts header) as Hparts. rewrite Hs in Hparts.
    apply Forall_cons in Hparts as [_ Hparts]. apply Forall_cons in Hparts as [Hk _].
    split; [exact Hk|].
    pose proof (split_space_join header) as Hj. rewrite Hs in Hj.
    rewrite join_cons in Hj. destruct parts as [|p parts].
    + left. by rewrite <- Hj.
    + right. rewrite join_cons in Hj. exists (join " " (p :: parts)). by rewrite <- Hj.
  - intros [Hk [->| [rest ->]]].
    + exists []. change ("Bearer " +:+ key) with ("Bearer" +:+ " " +:+ key).
      rewrite split_space_app by reflexivity. by rewrite split_space_no_space.
    + exists (split_space rest).
      change ("Bearer " +:+ key +:+ " " +:+ rest) with ("Bearer" +:+ " " +:+ key +:+ " " +:+ rest).
      rewrite split_space_app by reflexivity. by rewrite split_space_app.
Qed.

Lemma auth_acceptance_witness :
  authorizePost (Some "0123456789abcdef0123456789abcdef")
    (Some "Bearer 0123456789abcdef0123456789abcdef trailing words")
  = Ok tt.
Proof.
  apply (proj2 (auth_acceptance "0123456789abcdef0123456789abcdef"
                  "Bearer 0123456789abcdef0123456789abcdef trailing words"
                  ltac:(discriminate))).
  split; [reflexivity|]. right. by exists "trailing words".
Defined.

(** ** The application *)

Lemma unique_paths_NoDup (bots : list Bot.t) :
  ∀ pathToBots, unique_paths bots pathToBots = Ok tt →
                NoDup pathToBots → NoDup (pathToBots ++ map Bot.path bots).
Proof.
  induction bots as [|bot bots IH]; intros seen Hok Hnd.
  - by rewrite app_nil_r.
  - cbn [unique_paths map] in *.
    destruct (decide (Bot.path bot ∈ seen)) as [Hin|Hnin].
    + by rewrite bool_decide_eq_true_2 in Hok.
    + rewrite bool_decide_eq_false_2 in Hok by done.
      specialize (IH _ Hok). rewrite <- app_assoc in IH. apply IH.
      apply NoDup_app. split; [exact Hnd|]. split.
      * intros x Hx Hx'. apply list_elem_of_singleton in Hx'. by subst.
      * apply NoDup_singleton.
Qed.

Lemma keys_present_all (bots : list Bot.t) :
  keys_present bots false = Ok tt →
  Forall (λ bot, truthy (Bot.accessKey bot) = true) bots.
Proof.
  induction bots as [|bot bots IH]; [constructor|]. cbn [keys_present].
  destruct (truthy (Bot.accessKey bot)) eqn:Hk; cbn; [|discriminate].
  intros H. constructor; [exact Hk|by apply IH].
Qed.

Lemma verifyAccessKey_key (env : Environment) (accessKey apiKey : option string)
    (allowWithoutKey : bool) (key : option string) :
  verifyAccessKey env accessKey apiKey allowWithoutKey = Ok key →
  match key with
  | Some k =>
      String.length k = 32%nat
      ∧ key ∈ [accessKey; POE_ACCESS_KEY env; apiKey; POE_API_KEY env]
  | None =>
      allowWithoutKey = true
      ∧ Forall (λ k, truthy k = false) [accessKey; POE_ACCESS_KEY env; apiKey; POE_API_KEY env]
  end.
Proof.
  unfold verifyAccessKey, findAccessKey.
  destruct (truthy accessKey) eqn:H1;
    [|destruct (truthy (POE_ACCESS_KEY env)) eqn:H2;
      [|destruct (truthy apiKey) eqn:H3; [|destruct (truthy (POE_API_KEY env)) eqn:H4]]].
  all: rewrite ?H1, ?H2, ?H3, ?H4; cbn [negb truthy].
  5:{ destruct allowWithoutKey; [|discriminate]. intros [= <-]. by repeat constructor. }
  all: match goal with
       | |- context [String.length (default EmptyString ?k)] =>
           destruct k as [k'|]; [|discriminate]; cbn [default from_option]; unfold id;
           destruct (Nat.eqb_spec (String.length k') 32) as [Hlen|Hlen]; cbn [negb];
           [|discriminate]; intros [= <-]; split; [exact Hlen|]
       end.
  all: rewrite !elem_of_cons; tauto.
Qed.

(** X17: when [makeApp] returns, no two bots that it serves have the same
    path; unless [allowWithoutKey] is set, every bot has a non-empty access
    key, so that a POST without an Authorization header is not passed on
    to the handler that answers the bot: the first handler throws the
    [HTTPException] 403 [Not authenticated], and the request stays without
    a response; a single bot without a key of its own has got the first
    non-empty one of [accessKey], [POE_ACCESS_KEY], [apiKey] and
    [POE_API_KEY], which has 32 characters; and several bots are served as
    they were given, no key being accepted for them. *)
Theorem makeApp_served (env : Environment) (bot : Bot.t + list Bot.t)
    (accessKey apiKey : string) (allowWithoutKey : bool) (served : list Bot.t) :
  makeApp env bot accessKey apiKey allowWithoutKey = Ok served →
  NoDup (map Bot.path served)
  ∧ (allowWithoutKey = false →
     Forall (λ b, truthy (Bot.accessKey b) = true
                  ∧ servePost (Bot.accessKey b) None
                    = Unanswered (mkHTTPException 403 "Not authenticated" None []))
            served)
  ∧ (∀ b, bot = inl b → truthy (Bot.accessKey b) = false →
          ∃ key, served = [Bot.mk (Bot.path b) key]
                 ∧ verifyAccessKey env (Some accessKey) (Some apiKey) allowWithoutKey = Ok key
                 ∧ ∀ k, key = Some k → String.length k = 32%nat)
  ∧ (∀ bots, bot = inr bots →
             served = bots ∧ accessKey = EmptyString ∧ apiKey = EmptyString).
Proof.
  unfold makeApp. intros H.
  match type of H with
  | match ?c with _ => _ end = _ => destruct c as [bots|e] eqn:Hchosen; [|discriminate]
  end.
  destruct (unique_paths bots []) as [[]|e] eqn:Hu; [|discriminate].
  destruct (keys_present bots allowWithoutKey) as [[]|e] eqn:Hk; [|discriminate].
  injection H as <-.
  split; [|split; [|split]].
  - apply (unique_paths_NoDup bots [] Hu). constructor.
  - intros ->. eapply Forall_impl; [exact (keys_present_all bots Hk)|].
    intros b Hb. split; [exact Hb|]. unfold servePost, authorizePost. by rewrite Hb.
  - intros b -> Hb. rewrite Hb in Hchosen. cbn [negb] in Hchosen.
    destruct (verifyAccessKey env (Some accessKey) (Some apiKey) allowWithoutKey)
      as [key|e] eqn:Hv; [|discriminate].
    injection Hchosen as <-. exists key. split; [reflexivity|]. split; [reflexivity|].
    intros k ->. by destruct (verifyAccessKey_key _ _ _ _ _ Hv).
  - intros bs ->.
    destruct (String.eqb_spec accessKey EmptyString) as [->|Ha].
    + destruct (String.eqb_spec apiKey EmptyString) as [->|Hb].
      * by injection Hchosen as <-.
      * cbn in Hchosen. by destruct (String.eqb_spec apiKey EmptyString).
    + cbn in Hchosen. by destruct (String.eqb_spec accessKey EmptyString).
Qed.

Lemma makeApp_served_witness :
  NoDup (map Bot.path [Bot.mk "/a" (Some "ka"); Bot.mk "/b" (Some "kb")]).
Proof.
  exact (proj1 (makeApp_served (mkEnvironment None None)
                  (inr [Bot.mk "/a" (Some "ka"); Bot.mk "/b" (Some "kb")])
                  EmptyString EmptyString false
                  [Bot.mk "/a" (Some "ka"); Bot.mk "/b" (Some "kb")] eq_refl)).
Defined.

Lemma includes_LF_concat_lines (sep : string) (lines : list string) :
  includes_char LF sep = false →
  Forall (λ l, has_line_sep l = false) lines →
  includes_char LF (concat_lines sep lines) = false.
Proof.
  intros Hsep. induction 1 as [|l lines Hl _ IH]; [reflexivity|].
  cbn [concat_lines fold_right]. fold (concat_lines sep lines).
  rewrite !includes_char_app, Hsep, IH.
  apply orb_false_iff in Hl as [_ ->]. reflexivity.
Qed.

Lemma iterSSE_events_no_LF (chunks : list string) :
  includes_char LF (join EmptyString chunks) = false → iterSSE_events chunks = [].
Proof.
  unfold iterSSE_events. rewrite iterSSE_loop_feed by reflexivity.
  generalize (join EmptyString chunks). intros body Hb.
  assert (Hf : ∀ partial d, (feed_chunk body partial d).2 = []).
  { induction body as [|c body IH]; intros partial d; [reflexivity|].
    cbn in Hb. apply orb_false_iff in Hb as [Hc Hb].
    cbn [feed_chunk]. rewrite Hc. by apply IH. }
  apply Hf.
Qed.

(** X18: the constructor of [ExpressEventSourceResponse] refuses each of
    the three line terminators as the option [sep]; the separator it sets
    is [\r\n] when the option is absent or empty, and otherwise one of the
    three texts that start with a backslash, which hold no line terminator:
    a response written with such a separator gives no event to
    [iterSSE]. *)
Theorem separator_option :
  (∀ sep, sep ∈ line_separators →
          new_ExpressEventSourceResponse (Some sep) = Throw (UnknownSeparator sep))
  ∧ (∀ option sep,
       new_ExpressEventSourceResponse option = Ok sep →
       (sep = CRLF ∧ truthy option = false)
       ∨ (option = Some sep ∧ sep ∈ known_separators ∧ has_line_sep sep = false
          ∧ ∀ events chunks,
              Forall (λ e, wire_safe e = true) events →
              join EmptyString chunks = response_body events sep →
              iterSSE_events chunks = [])).
Proof.
  split.
  - intros sep Hsep. unfold line_separators in Hsep. rewrite !elem_of_cons in Hsep.
    destruct Hsep as [->|[->|[->|Hn]]]; [reflexivity..|by apply elem_of_nil in Hn].
  - intros option sep. unfold new_ExpressEventSourceResponse.
    destruct (truthy option) eqn:Hopt.
    + destruct option as [s|]; [|discriminate]. cbn [default from_option andb]. unfold id.
      destruct (decide (s ∈ known_separators)) as [Hin|Hnin].
      * rewrite bool_decide_eq_true_2 by done. cbn. intros [= <-]. right.
        assert (Hs : has_line_sep s = false).
        { unfold known_separators in Hin. rewrite !elem_of_cons in Hin.
          destruct Hin as [->|[->|[->|Hn]]]; [reflexivity..|by apply elem_of_nil in Hn]. }
        repeat split; try done.
        intros events chunks Hall Hbody. apply iterSSE_events_no_LF.
        rewrite Hbody, response_body_records, records_body_lines.
        apply orb_false_iff in Hs as [_ Hlf].
        apply includes_LF_concat_lines; [exact Hlf|]. clear Hbody.
        induction Hall as [|e events He _ IH]; [constructor|].
        cbn [map concat fst snd]. apply Forall_app. split; [|exact IH].
        destruct (wire_safe_inv e He) as [Hid Hev].
        apply encode_lines_no_line_sep.
        -- intros i Hi. destruct (Hid i Hi) as [H _]. by rewrite replace_line_sep_id.
        -- intros ev Hev'. by rewrite replace_line_sep_id; apply Hev.
      * rewrite bool_decide_eq_false_2 by done. discriminate.
    + cbn. intros [= <-]. by left.
Qed.

Lemma separator_option_witness :
  new_ExpressEventSourceResponse (Some (String LF EmptyString))
  = Throw (UnknownSeparator (String LF EmptyString)).
Proof.
  apply (proj1 separator_option (String LF EmptyString)).
  unfold line_separators.
  apply elem_of_cons. right. apply elem_of_cons. right. apply elem_of_cons. by left.
Defined.
